(** * Campus Q&A system: the retrieval pipeline, embedded and verified

  A shallow embedding of the Python sources under [app/]:
  - [app/rag.py]: [chunk_text], [load_documents], the two remote rerankers,
    [RAGPipeline.retrieve] and [RAGPipeline._build_context];
  - [app/embedding_provider.py]: [EmbeddingProvider.embed] with its retry loop;
  - [app/agents.py]: the response cache, the relevance gate, [handle] and
    [handle_stream];
  - [app/main.py]: [_run_vectorize_job], the credential checks, the login
    and password endpoints and what the query endpoints store;
  - [app/vectorstore_pgvector.py]: [upsert_documents] and
    [delete_documents], on the table;
  - [app/metrics.py]: the counters of [Metrics];
  - [app/document_storage.py], [app/user_store.py], [app/session_store.py]:
    the in-memory stores.

  Python [str] is a list of code points, Python [int] is [Z], Python [float]
  is the kernel's binary64 [float]; exceptions are the [Raise] branch of
  [result]; [while] loops that the source does not bound carry fuel.  A
  numpy float32 is a binary32 number of [SpecFloat], with its rounding. *)

From Stdlib Require Import String Ascii.
From Stdlib Require Import ZArith List Lia Bool Floats Reals Lra DecimalString.
From Stdlib Require DecimalZ.
From stdpp Require Import gmap.

Set Warnings "-inexact-float,-register-all".
Open Scope Z_scope.

(* ===================================================================== *)
(** * Python values                                                        *)
(* ===================================================================== *)

Module Py.

(** A code point; [len] of a [str] counts these. *)
Definition char := N.
Definition str := list char.
Definition bytes := list Byte.byte.

(** ASCII literals, written as Rocq strings. *)
Definition lit (s : String.string) : str :=
  map Ascii.N_of_ascii (String.list_ascii_of_string s).
Arguments lit s%_string.

Definition len {A} (l : list A) : Z := Z.of_nat (length l).

(** Exceptions carry their class and their message ([str(exc)]). *)
Inductive exn_class :=
| RuntimeError | ValueError | OverflowError | IndexError | AttributeError
| FileNotFoundError | RateLimitError | HTTPError | OtherError.

Record exn := Exn { exn_cls : exn_class; exn_msg : str }.

Inductive result (A : Type) :=
| Ok (a : A)
| Raise (e : exn).
Arguments Ok {A} a.
Arguments Raise {A} e.

Definition bind {A B} (r : result A) (k : A -> result B) : result B :=
  match r with
  | Ok a => k a
  | Raise e => Raise e
  end.

Definition raise {A} (c : exn_class) : result A := Raise (Exn c []).

(** ** Lists and slices *)

(** A slice bound, clamped the way [l[a:b]] clamps it. *)
Definition slice_bound (n i : Z) : Z :=
  if i <? 0 then Z.max 0 (i + n) else Z.min i n.

(** [l[start:stop]]. *)
Definition slice {A} (l : list A) (start stop : Z) : list A :=
  let a := slice_bound (len l) start in
  let b := slice_bound (len l) stop in
  firstn (Z.to_nat (b - a)) (skipn (Z.to_nat a) l).

(** [l[:stop]]. *)
Definition slice_to {A} (l : list A) (stop : Z) : list A :=
  slice l 0 stop.

(** [l[i]]: a negative index counts from the end, out of range raises. *)
Definition index {A} (l : list A) (i : Z) : result A :=
  let j := if i <? 0 then i + len l else i in
  if j <? 0 then raise IndexError
  else match nth_error l (Z.to_nat j) with
       | Some x => Ok x
       | None => raise IndexError
       end.

(** [enumerate(l)]. *)
Fixpoint enumerate_from {A} (i : Z) (l : list A) : list (Z * A) :=
  match l with
  | [] => []
  | x :: l' => (i, x) :: enumerate_from (i + 1) l'
  end.
Definition enumerate {A} (l : list A) : list (Z * A) := enumerate_from 0 l.

(** [range(0, n, step)] for a positive [step], as the list of its values. *)
Fixpoint range_from (count : nat) (start step : Z) : list Z :=
  match count with
  | O => []
  | S c => start :: range_from c (start + step) step
  end.
Definition range_step (n step : Z) : list Z :=
  range_from (Z.to_nat ((n + step - 1) / step)) 0 step.

(** ** Integers *)

(** [x or d] on an int. *)
Definition int_or (x d : Z) : Z := if x =? 0 then d else x.

(** [x or d] on an [Optional[int]]. *)
Definition opt_int_or (x : option Z) (d : Z) : Z :=
  match x with
  | Some v => int_or v d
  | None => d
  end.

(** [str(z)]. *)
Definition str_of_int (z : Z) : str := lit (NilZero.string_of_int (Z.to_int z)).

(** [str(x)] of an [Optional[int]], as an f-string prints it. *)
Definition str_of_opt_int (x : option Z) : str :=
  match x with
  | Some z => str_of_int z
  | None => lit "None"
  end.

(** ** Strings *)

(** The code points [str.isspace] accepts; [str.strip()] removes these. *)
Definition isspace (c : char) : bool :=
  let c := Z.of_N c in
  ((9 <=? c) && (c <=? 13)) || ((28 <=? c) && (c <=? 32))
  || (c =? 133) || (c =? 160) || (c =? 5760)
  || ((8192 <=? c) && (c <=? 8202))
  || (c =? 8232) || (c =? 8233) || (c =? 8239) || (c =? 8287) || (c =? 12288).

Fixpoint lstrip (s : str) : str :=
  match s with
  | c :: s' => if isspace c then lstrip s' else s
  | [] => []
  end.
Definition rstrip (s : str) : str := rev (lstrip (rev s)).
Definition strip (s : str) : str := rstrip (lstrip s).

(** [sep.join(parts)]. *)
Fixpoint join (sep : str) (parts : list str) : str :=
  match parts with
  | [] => []
  | [p] => p
  | p :: rest => p ++ sep ++ join sep rest
  end.

Definition str_eqb (a b : str) : bool := bool_decide (a = b).

Fixpoint is_prefix (p s : str) : bool :=
  match p, s with
  | [], _ => true
  | _ :: _, [] => false
  | a :: p', b :: s' => (a =? b)%N && is_prefix p' s'
  end.

(** [tok in s] on strings. *)
Fixpoint contains (s tok : str) : bool :=
  is_prefix tok s ||
  match s with
  | [] => false
  | _ :: s' => contains s' tok
  end.

(** [s.replace(" ", "")]. *)
Definition remove_spaces (s : str) : str :=
  filter (fun c => c <> 32%N) s.

(** ** Floats *)

Definition truthy (x : float) : bool := negb (x =? 0)%float.

(** [x or d] on a float. *)
Definition float_or (x d : float) : float := if truthy x then x else d.

(** [max(a, b)]: the first argument stays unless the second is greater. *)
Definition fmax (a b : float) : float := if (a <? b)%float then b else a.
(** [min(a, b)]: the first argument stays unless the second is smaller. *)
Definition fmin (a b : float) : float := if (b <? a)%float then b else a.

(** [max(xs, default=d)] over an iterable. *)
Definition fmax_list (xs : list float) (d : float) : float :=
  match xs with
  | [] => d
  | x :: rest => fold_left fmax rest x
  end.

(** [float(z)]: rounded to nearest even, [OverflowError] past the largest
    double. *)
Definition float_of_int (z : Z) : result float :=
  let f := SF2Prim (binary_normalize 53 1024 z 0 false) in
  if PrimFloat.is_infinity f then raise OverflowError else Ok f.

(** [int(f)]: truncation towards zero; NaN and the infinities raise. *)
Definition int_of_float (f : float) : result Z :=
  match Prim2SF f with
  | S754_zero _ => Ok 0
  | S754_finite s m e =>
      let mag := if 0 <=? e then Z.pos m * 2 ^ e else Z.pos m / 2 ^ (- e) in
      Ok (if s then - mag else mag)
  | S754_infinity _ => raise OverflowError
  | S754_nan => raise ValueError
  end.

(** ** JSON values, as [json.loads] and [resp.json()] return them *)

Inductive json :=
| JNull
| JBool (b : bool)
| JInt (z : Z)
| JFloat (f : float)
| JStr (s : str)
| JList (l : list json)
| JDict (d : list (str * json)).

(** [d.get(key)] on a dict given by its items. *)
Fixpoint dict_get {V} (d : list (str * V)) (key : str) : option V :=
  match d with
  | [] => None
  | (k, v) :: d' => if str_eqb k key then Some v else dict_get d' key
  end.

(** [entry.get(key)]: [None] and an absent key both read as [JNull]; an
    entry that is no dict has no [get]. *)
Definition json_get (entry : json) (key : str) : result json :=
  match entry with
  | JDict d => Ok (default JNull (dict_get d key))
  | _ => raise AttributeError
  end.

(** ** Library functions

    What the sources call in the standard library and in third-party
    packages, and which is not defined here: Unicode case mapping and digit
    classes, number parsing, [pathlib], the document decoders, SHA-256, the
    regular-expression engine, [time.sleep], which returns or raises, and
    [np.linalg.norm] along a row of float32 numbers (binary32, in the
    representation of [SpecFloat]). *)
Record lib := Lib {
  lower : str -> str;
  isdigit : str -> bool;
  int_of_str : str -> result Z;
  float_of_str : str -> option float;
  path_suffix : str -> str;
  path_stem : str -> str;
  path_name : str -> str;
  utf8_decode_ignore : bytes -> str;
  pdf_pages : bytes -> result (list (result str));
  docx_paragraphs : bytes -> result (list str);
  xlsx_rows : bytes -> result (list (list (option str)));
  sha256_hex_utf8 : str -> result str;
  greeting_pattern_match : str -> bool;
  time_sleep : float -> result unit;
  linalg_norm : list spec_float -> spec_float;
}.

End Py.

Notation "'let*' x ':=' r 'in' k" := (Py.bind r (fun x => k))
  (at level 10, x name, r at level 100, k at level 200).

(* ===================================================================== *)
(** * app/rag.py: the chunker                                              *)
(* ===================================================================== *)

Module Chunker.
Import Py.

(** The [while start < len(text)] loop of [chunk_text]; the loop state is
    [(chunks, start)].  [None] is fuel exhaustion: the source loop has no
    bound of its own. *)
Fixpoint chunk_loop {A} (text : list A) (chunk_size overlap : Z)
  (fuel : nat) (chunks : list (list A)) (start : Z) : option (list (list A)) :=
  match fuel with
  | O => None
  | S fuel' =>
      if start <? len text then
        let end_ := Z.min (start + chunk_size) (len text) in
        let chunk := slice text start end_ in
        let chunks := chunks ++ [chunk] in
        if end_ =? len text then Some chunks
        else chunk_loop text chunk_size overlap fuel' chunks (end_ - overlap)
      else Some chunks
  end.

Definition chunk_text {A} (text : list A) (chunk_size overlap : Z) (fuel : nat)
  : option (list (list A)) :=
  chunk_loop text chunk_size overlap fuel [] 0.

(** A window [(a, b)] stands for [text[a:b]]. *)
Definition window_text {A} (text : list A) (w : Z * Z) : list A :=
  slice text (fst w) (snd w).

(** The windows a run visits from [start] on: every window but the last is a
    full [chunk_size], the next one starts [overlap] before the previous end,
    and the last one ends at [len text]. *)
Inductive window_chain (n chunk_size overlap : Z) : Z -> list (Z * Z) -> Prop :=
| chain_last a :
    a < n -> n <= a + chunk_size ->
    window_chain n chunk_size overlap a [(a, n)]
| chain_step a ws :
    a + chunk_size < n ->
    window_chain n chunk_size overlap (a + chunk_size - overlap) ws ->
    window_chain n chunk_size overlap a ((a, a + chunk_size) :: ws).

End Chunker.

(* ===================================================================== *)
(** * app/models.py and app/config.py                                      *)
(* ===================================================================== *)

Module Models.
Import Py.

Record DocumentChunk := {
  dc_id : str;
  dc_text : str;
  dc_source : str;
  dc_source_type : str;
  dc_url : option str;
  dc_metadata : list (str * json);
}.

Record RetrievedChunk := { chunk : DocumentChunk; score : float }.

Record QueryRequest := {
  query : str;
  top_k : option Z;
  max_tokens : option Z;
  streaming : bool;
  session_id : option str;
}.

Record SourceAttribution := {
  sa_source : str;
  sa_snippet : str;
  sa_score : float;
}.

Record QueryResponse := {
  answer : str;
  sources : list SourceAttribution;
  latency_ms : option float;
}.

(** The fields of [Settings] that the embedded code reads. *)
Record Settings := {
  embedding_batch_size : Z;
  embedding_max_retries : Z;
  embedding_retry_base_delay : float;
  embedding_retry_max_delay : float;
  chunk_size : Z;
  chunk_overlap : Z;
  chunk_overlap_ratio : float;
  settings_top_k : Z;
  min_relevance : float;
  max_context_chars : Z;
  rerank_top_n : Z;
  cache_enabled : bool;
}.

(** The defaults of [app/config.py]. *)
Definition default_settings : Settings := {|
  embedding_batch_size := 32;
  embedding_max_retries := 4;
  embedding_retry_base_delay := 0.8;
  embedding_retry_max_delay := 6.0;
  chunk_size := 700;
  chunk_overlap := 0;
  chunk_overlap_ratio := 0.12;
  settings_top_k := 4;
  min_relevance := 0.35;
  max_context_chars := 3200;
  rerank_top_n := 8;
  cache_enabled := true;
|}.

End Models.

(* ===================================================================== *)
(** * app/rag.py: extraction and [load_documents]                          *)
(* ===================================================================== *)

Module Loader.
Import Py Models Chunker.

Definition ALLOWED_DOC_EXTS : list str :=
  [lit ".txt"; lit ".md"; lit ".pdf"; lit ".docx"; lit ".xlsx"].

Definition str_in (s : str) (l : list str) : bool := existsb (str_eqb s) l.

(** [a or b] on strings. *)
Definition str_or (a b : str) : str :=
  match a with [] => b | _ => a end.

(** The pages whose [extract_text] raised are skipped. *)
Definition pdf_page_texts (pages : list (result str)) : list str :=
  flat_map (fun p => match p with Ok t => [t] | Raise _ => [] end) pages.

(** One line per row that has a cell, the cells joined by [" \t "]. *)
Definition xlsx_parts (rows : list (list (option str))) : list str :=
  flat_map (fun row =>
              match omap (fun c => c) row with
              | [] => []
              | cells => [join [32; 9; 32]%N cells]
              end) rows.

Definition extract_text_from_bytes (L : lib) (data : bytes) (ext : str)
  : result str :=
  let ext := lower L ext in
  if str_in ext [lit ".txt"; lit ".md"] then Ok (utf8_decode_ignore L data)
  else if str_eqb ext (lit ".pdf") then
    let* pages := pdf_pages L data in
    Ok (join [10%N] (pdf_page_texts pages))
  else if str_eqb ext (lit ".docx") then
    let* paragraphs := docx_paragraphs L data in
    Ok (join [10%N] paragraphs)
  else if str_eqb ext (lit ".xlsx") then
    let* rows := xlsx_rows L data in
    Ok (join [10%N] (xlsx_parts rows))
  else Ok [].

(** A document payload: [name] and [ext] are [""] when the key is absent or
    holds [None]; [content] is [None] unless it holds bytes. *)
Record payload := {
  p_name : str;
  p_ext : str;
  p_content : option bytes;
}.

(** [overlap if overlap > 0 else max(1, int(chunk_size * overlap_ratio))]. *)
Definition effective_overlap (chunk_size overlap : Z) (overlap_ratio : float)
  : result Z :=
  if 0 <? overlap then Ok overlap
  else
    let* size := float_of_int chunk_size in
    let* n := int_of_float (size * overlap_ratio)%float in
    Ok (Z.max 1 n).

(** The chunk that [load_documents] appends for window [idx] of a document. *)
Definition make_chunk (base_id name ext : str) (idx : Z) (window : str)
  : DocumentChunk := {|
  dc_id := base_id ++ lit "-" ++ str_of_int idx;
  dc_text := strip window;
  dc_source := name;
  dc_source_type := lit "file";
  dc_url := None;
  dc_metadata := [(lit "chunk_id", JInt idx); (lit "ext", JStr ext)];
|}.

(** The body of the [for doc in documents] loop: what one document appends
    to [docs].  [None] is a [chunk_text] that does not return. *)
Definition load_one (L : lib) (fuel : nat) (chunk_size eff_overlap : Z)
  (doc : payload) : option (result (list DocumentChunk)) :=
  let name := p_name doc in
  match name, p_content doc with
  | [], _ | _, None => Some (Ok [])
  | _, Some content =>
      let ext := lower L (str_or (p_ext doc) (path_suffix L name)) in
      if negb (str_in ext ALLOWED_DOC_EXTS) then Some (Ok [])
      else
        match extract_text_from_bytes L content ext with
        | Raise e => Some (Raise e)
        | Ok text =>
            match strip text with
            | [] => Some (Ok [])
            | _ =>
                let base_id :=
                  str_or (path_stem L name) (str_or (path_name L name) (lit "doc")) in
                match chunk_text text chunk_size eff_overlap fuel with
                | None => None
                | Some windows =>
                    Some (Ok (map (fun iw => make_chunk base_id name ext (fst iw) (snd iw))
                                  (enumerate windows)))
                end
            end
        end
  end.

Fixpoint load_loop (L : lib) (fuel : nat) (chunk_size eff_overlap : Z)
  (documents : list payload) (docs : list DocumentChunk)
  : option (result (list DocumentChunk)) :=
  match documents with
  | [] => Some (Ok docs)
  | doc :: rest =>
      match load_one L fuel chunk_size eff_overlap doc with
      | None => None
      | Some (Raise e) => Some (Raise e)
      | Some (Ok new) => load_loop L fuel chunk_size eff_overlap rest (docs ++ new)
      end
  end.

Definition load_documents (L : lib) (fuel : nat) (documents : list payload)
  (chunk_size overlap : Z) (overlap_ratio : float)
  : option (result (list DocumentChunk)) :=
  match effective_overlap chunk_size overlap overlap_ratio with
  | Raise e => Some (Raise e)
  | Ok eff => load_loop L fuel chunk_size eff documents []
  end.

(** Where a chunk of the result comes from: a document that has a name and
    bytes, whose decoded text is not blank, and one window of that text. *)
Definition emitted_from (L : lib) (fuel : nat) (chunk_size eff_overlap : Z)
  (doc : payload) (c : DocumentChunk) : Prop :=
  exists content text windows window,
    p_content doc = Some content /\
    extract_text_from_bytes L content
      (lower L (str_or (p_ext doc) (path_suffix L (p_name doc)))) = Ok text /\
    strip text <> [] /\
    chunk_text text chunk_size eff_overlap fuel = Some windows /\
    In window windows /\
    dc_source c = p_name doc /\
    dc_text c = strip window.

End Loader.

(* ===================================================================== *)
(** * app/rag.py: the remote rerankers                                     *)
(* ===================================================================== *)

Module Rerank.
Import Py Models.

(** Python truth value of a JSON value. *)
Definition json_truthy (j : json) : bool :=
  match j with
  | JNull => false
  | JBool b => b
  | JInt z => negb (z =? 0)
  | JFloat f => truthy f
  | JStr s => match s with [] => false | _ => true end
  | JList l => match l with [] => false | _ => true end
  | JDict d => match d with [] => false | _ => true end
  end.

(** [a or b] on JSON values. *)
Definition json_or (a b : json) : json := if json_truthy a then a else b.

(** The index an entry carries under [key], if [isinstance(value, int)] (a
    bool is an int) or a string of digits. *)
Definition index_value (L : lib) (value : json) : result (option Z) :=
  match value with
  | JInt z => Ok (Some z)
  | JBool b => Ok (Some (if b then 1 else 0))
  | JStr s => if isdigit L s then let* z := int_of_str L s in Ok (Some z)
              else Ok None
  | _ => Ok None
  end.

(** The score an entry carries under one key: [Some] ends the search over
    the keys, [None] moves on to the next key. *)
Definition score_value (L : lib) (value : json) : result (option float) :=
  match value with
  | JInt z => let* f := float_of_int z in Ok (Some f)
  | JBool b => Ok (Some (if b then 1 else 0)%float)
  | JFloat f => Ok (Some f)
  | JStr s => Ok (float_of_str L s)
  | _ => Ok None
  end.

(** [_resolve_score], shared in shape by both classes: the first key of
    [keys] that holds a number, else the default. *)
Fixpoint resolve_score (L : lib) (keys : list str) (entry : json)
  (default : float) : result float :=
  match keys with
  | [] => Ok default
  | key :: keys' =>
      let* value := json_get entry key in
      let* found := score_value L value in
      match found with
      | Some f => Ok f
      | None => resolve_score L keys' entry default
      end
  end.

(** The state of the scoring loops: the result so far and the indices used. *)
Definition scoring := (list RetrievedChunk * gset Z)%type.

(** The padding loop, [for i, item in enumerate(candidates)], shared by both
    classes. *)
Fixpoint pad (top_k : Z) (used : gset Z) (items : list (Z * RetrievedChunk))
  (scored : list RetrievedChunk) : list RetrievedChunk :=
  match items with
  | [] => scored
  | (i, item) :: rest =>
      if top_k <=? len scored then scored
      else if bool_decide (i ∈ used) then pad top_k used rest scored
      else pad top_k used rest
             (scored ++ [{| chunk := chunk item; score := score item |}])
  end.

Definition pad_if_short (top_k : Z) (candidates : list RetrievedChunk)
  (st : scoring) : list RetrievedChunk :=
  let '(scored, used) := st in
  if len scored <? Z.min top_k (len candidates)
  then pad top_k used (enumerate candidates) scored
  else scored.

(** The result item [r] was taken from the candidate at position [i]. *)
Definition picked (candidates : list RetrievedChunk) (r : RetrievedChunk) (i : Z)
  : Prop :=
  0 <= i /\ exists c, candidates !! Z.to_nat i = Some c /\ chunk r = chunk c.

(** The candidates, in recall order, that a set of used indices leaves. *)
Definition unused (used : gset Z) (items : list (Z * RetrievedChunk))
  : list (Z * RetrievedChunk) :=
  filter (fun p => fst p ∉ used) items.

(** ** OpenAICompatibleReranker *)

Module OpenAICompatible.

Definition SCORE_KEYS : list str :=
  [lit "relevance_score"; lit "score"; lit "similarity"].

Definition _extract_entries (data : json) : result (list json) :=
  let* v1 := json_get data (lit "results") in
  match v1 with
  | JList l => Ok l
  | _ =>
      let* v2 := json_get data (lit "data") in
      match v2 with
      | JList l => Ok l
      | _ =>
          let* v3 := json_get data (lit "result") in
          match v3 with
          | JList l => Ok l
          | _ => Ok []
          end
      end
  end.

Definition _resolve_index (L : lib) (entry : json) : result (option Z) :=
  let* idx := json_get entry (lit "index") in
  index_value L idx.

(** The [for entry in entries] loop. *)
Fixpoint score_entries (L : lib) (top_k : Z) (candidates : list RetrievedChunk)
  (entries : list json) (st : scoring) : result scoring :=
  match entries with
  | [] => Ok st
  | entry :: rest =>
      let '(scored, used) := st in
      let* idx := _resolve_index L entry in
      match idx with
      | None => score_entries L top_k candidates rest st
      | Some idx =>
          if (len candidates <=? idx) || bool_decide (idx ∈ used)
          then score_entries L top_k candidates rest st
          else
            let* cand := index candidates idx in
            let* sc := resolve_score L SCORE_KEYS entry (score cand) in
            let scored := scored ++ [{| chunk := chunk cand; score := sc |}] in
            let used := {[ idx ]} ∪ used in
            if Z.min top_k (len candidates) <=? len scored then Ok (scored, used)
            else score_entries L top_k candidates rest (scored, used)
      end
  end.

(** [rerank]; [post query documents top_n] is the HTTP round trip
    ([httpx.post], [raise_for_status], [resp.json()]). *)
Definition rerank (L : lib) (S : Settings)
  (post : str -> list str -> Z -> result json)
  (query : str) (hits : list RetrievedChunk) (top_k : Z)
  : result (list RetrievedChunk) :=
  match hits with
  | [] => Ok []
  | _ =>
      let candidate_limit := Z.max (int_or top_k (settings_top_k S)) (rerank_top_n S) in
      let candidates := slice_to hits candidate_limit in
      let documents := map (fun h => dc_text (chunk h)) candidates in
      let top_n := Z.min (int_or top_k (len candidates)) (len candidates) in
      let* data := post query documents top_n in
      let* entries := _extract_entries data in
      match entries with
      | [] => Ok (slice_to candidates top_k)
      | _ =>
          let* st := score_entries L top_k candidates entries ([], ∅) in
          Ok (pad_if_short top_k candidates st)
      end
  end.

End OpenAICompatible.

(** ** QianfanReranker *)

Module Qianfan.

Definition SCORE_KEYS : list str :=
  [lit "relevance_score"; lit "score"; lit "similarity"; lit "rerank_score";
   lit "probability"].
Definition INDEX_KEYS : list str :=
  [lit "index"; lit "position"; lit "document_index"; lit "doc_index";
   lit "order"].

(** What [self._client.do] returns: [None], an object with a [body]
    attribute, or a plain JSON value. *)
Inductive response :=
| RespNone
| RespObject (body : json)
| RespValue (value : json).

(** [_first_list]: the first of [keys] that holds a list or a dict. *)
Fixpoint _first_list (payload : list (str * json)) (keys : list str) : json :=
  match keys with
  | [] => JNull
  | key :: keys' =>
      match default JNull (dict_get payload key) with
      | JList l => JList l
      | JDict d => JDict d
      | _ => _first_list payload keys'
      end
  end.

(** The closing [for key in ("documents", "items", "data")] of
    [_extract_entries]. *)
Fixpoint first_list_only (body : list (str * json)) (keys : list str)
  : list json :=
  match keys with
  | [] => []
  | key :: keys' =>
      match default JNull (dict_get body key) with
      | JList l => l
      | _ => first_list_only body keys'
      end
  end.

Definition inner_keys : list str := [lit "documents"; lit "items"; lit "data"].

Definition entries_of_body (body : list (str * json)) : list json :=
  let candidates := _first_list body [lit "result"; lit "results"; lit "data"] in
  let candidates :=
    match candidates with
    | JDict d => _first_list d inner_keys
    | _ => candidates
    end in
  match candidates with
  | JList l => l
  | _ => first_list_only body inner_keys
  end.

Definition _extract_entries (resp : response) : list json :=
  match resp with
  | RespObject (JDict body) => entries_of_body body
  | RespValue (JDict body) => entries_of_body body
  | _ => []
  end.

(** [documents.index(doc_text)], [None] for the [ValueError]. *)
Fixpoint list_index (documents : list str) (doc_text : str) (i : Z) : option Z :=
  match documents with
  | [] => None
  | d :: rest => if str_eqb d doc_text then Some i else list_index rest doc_text (i + 1)
  end.

Fixpoint index_by_keys (L : lib) (keys : list str) (entry : json)
  : result (option Z) :=
  match keys with
  | [] => Ok None
  | key :: keys' =>
      let* value := json_get entry key in
      let* found := index_value L value in
      match found with
      | Some z => Ok (Some z)
      | None => index_by_keys L keys' entry
      end
  end.

Definition _resolve_index (L : lib) (entry : json) (documents : list str)
  : result (option Z) :=
  let* found := index_by_keys L INDEX_KEYS entry in
  match found with
  | Some z => Ok (Some z)
  | None =>
      let* a := json_get entry (lit "document") in
      let* b := json_get entry (lit "text") in
      let* c := json_get entry (lit "content") in
      match json_or a (json_or b c) with
      | JStr doc_text => Ok (list_index documents doc_text 0)
      | _ => Ok None
      end
  end.

(** The [for entry in entries] loop. *)
Fixpoint score_entries (L : lib) (top_k : Z) (candidates : list RetrievedChunk)
  (documents : list str) (entries : list json) (st : scoring) : result scoring :=
  match entries with
  | [] => Ok st
  | entry :: rest =>
      let '(scored, used) := st in
      let* idx := _resolve_index L entry documents in
      match idx with
      | None => score_entries L top_k candidates documents rest st
      | Some idx =>
          if negb ((0 <=? idx) && (idx <? len candidates))
          then score_entries L top_k candidates documents rest st
          else if bool_decide (idx ∈ used)
          then score_entries L top_k candidates documents rest st
          else
            let* cand := index candidates idx in
            let* sc := resolve_score L SCORE_KEYS entry (score cand) in
            let scored := scored ++ [{| chunk := chunk cand; score := sc |}] in
            let used := {[ idx ]} ∪ used in
            if top_k <=? len scored then Ok (scored, used)
            else score_entries L top_k candidates documents rest (scored, used)
      end
  end.

(** [rerank]; [client_do query documents top_n] is [self._client.do]. *)
Definition rerank (L : lib) (S : Settings)
  (client_do : str -> list str -> Z -> result response)
  (query : str) (hits : list RetrievedChunk) (top_k : Z)
  : result (list RetrievedChunk) :=
  match hits with
  | [] => Ok []
  | _ =>
      let candidate_limit := Z.max (int_or top_k (settings_top_k S)) (rerank_top_n S) in
      let candidates := slice_to hits candidate_limit in
      let documents := map (fun h => dc_text (chunk h)) candidates in
      let top_n := Z.min (int_or top_k (len candidates)) (len candidates) in
      let* resp := client_do query documents top_n in
      match _extract_entries resp with
      | [] => Ok (slice_to candidates top_k)
      | entries =>
          let* st := score_entries L top_k candidates documents entries ([], ∅) in
          Ok (pad_if_short top_k candidates st)
      end
  end.

End Qianfan.

End Rerank.

(* ===================================================================== *)
(** * app/rag.py: [RAGPipeline]                                            *)
(* ===================================================================== *)

Module Pipeline.
Import Py Models.

(** A configured reranker, through its [rerank(query, hits, top_k)]. *)
Definition reranker := str -> list RetrievedChunk -> Z -> result (list RetrievedChunk).

(** [RAGPipeline.retrieve]; [search] is [self.vectorstore.search]. *)
Definition retrieve (S : Settings)
  (search : str -> Z -> result (list RetrievedChunk))
  (rr : option reranker) (query : str) (top_k : option Z)
  : result (list RetrievedChunk) :=
  let k := opt_int_or top_k (settings_top_k S) in
  let* hits := search query (Z.max k (match rr with Some _ => rerank_top_n S | None => k end)) in
  match rr with
  | Some r =>
      match r query hits k with
      | Ok reranked => Ok reranked
      | Raise _ => Ok (slice_to hits k)
      end
  | None => Ok hits
  end.

(** The label that opens a context line, U+6765 U+6E90 for "source". *)
Definition source_label : str := [91; 26469; 28304; 58]%N.

(** [f"[来源:{item.chunk.source}] {item.chunk.text}\n"]. *)
Definition snippet (item : RetrievedChunk) : str :=
  source_label ++ dc_source (chunk item) ++ lit "] " ++ dc_text (chunk item) ++ [10%N].

(** The [for item in chunks] loop of [_build_context], state
    [(parts, current_len)]. *)
Fixpoint context_parts (max_chars : Z) (chunks : list RetrievedChunk)
  (parts : list str) (current_len : Z) : list str :=
  match chunks with
  | [] => parts
  | item :: rest =>
      if max_chars <? current_len + len (snippet item) then parts
      else context_parts max_chars rest (parts ++ [snippet item])
                         (current_len + len (snippet item))
  end.

Definition _build_context (chunks : list RetrievedChunk) (max_chars : Z) : str :=
  join [10%N] (context_parts max_chars chunks [] 0).

(** The reading of the specification: the lines themselves, one after the
    other, with nothing between them. *)
Definition concat_lines (chunks : list RetrievedChunk) : str :=
  concat (map snippet chunks).

End Pipeline.

(* ===================================================================== *)
(** * app/agents.py: [AgentOrchestrator]                                   *)
(* ===================================================================== *)

Module Agents.
Import Py Models.

(** The constants of [app/prompts.py], which is not among the sources:
    [FALLBACK_GREETING], and [FALLBACK_NO_CONTEXT] through its
    [.format(query=...)]. *)
Record prompts := {
  FALLBACK_GREETING : str;
  FALLBACK_NO_CONTEXT_format : str -> str;
}.

(** What [handle] calls outside this class: [self.rag.retrieve], the answer
    of [self.lc_rag] when one is configured, [self.rag.generate_answer], and
    the milliseconds [time.time()] measures around them. *)
Record world := {
  rag_retrieve : str -> option Z -> result (list RetrievedChunk);
  lc_rag_answer : option (str -> result str);
  rag_generate_answer : str -> list RetrievedChunk -> option Z -> result str;
  elapsed_ms : float;
}.

(** [f"{req.query}|{req.top_k}|{req.max_tokens}"]. *)
Definition cache_key_raw (req : QueryRequest) : str :=
  query req ++ lit "|" ++ str_of_opt_int (top_k req) ++ lit "|"
  ++ str_of_opt_int (max_tokens req).

Definition _cache_key (L : lib) (req : QueryRequest) : result str :=
  sha256_hex_utf8 L (cache_key_raw req).

(** The threshold after [float(... or 0.0)] and [max(0.0, min(1.0, ...))]. *)
Definition clamped_threshold (S : Settings) : float :=
  fmax 0 (fmin 1 (float_or (min_relevance S) 0)).

Definition _apply_relevance_threshold (S : Settings) (hits : list RetrievedChunk)
  : list RetrievedChunk * float :=
  let threshold := clamped_threshold S in
  let best_score := fmax_list (map score hits) 0 in
  if (threshold <=? 0)%float then (hits, best_score)
  else (filter (fun h => (threshold <=? score h)%float = true) hits, best_score).

Definition _is_greeting (L : lib) (text : str) : bool :=
  match text with
  | [] => false
  | _ =>
      let normalized := strip text in
      match normalized with
      | [] => false
      | _ =>
          if greeting_pattern_match L normalized then true
          else
            let compact := remove_spaces normalized in
            (len compact <=? 6)
            && (str_eqb (lower L compact) (lit "hello")
                || str_eqb (lower L compact) (lit "hi"))
      end
  end.

(** U+8BE5 U+95EE U+9898, "this question". *)
Definition this_question : str := [35813; 38382; 39064]%N.

Definition _fallback_text (L : lib) (P : prompts) (query : str) : str :=
  let clean := strip query in
  if _is_greeting L clean then FALLBACK_GREETING P
  else
    let clean := match clean with [] => this_question | _ => clean end in
    FALLBACK_NO_CONTEXT_format P clean.

Definition _build_low_relevance_response (L : lib) (P : prompts) (query : str)
  : QueryResponse :=
  {| answer := _fallback_text L P query; sources := []; latency_ms := Some 0%float |}.

Definition attribution (hit : RetrievedChunk) : SourceAttribution :=
  {| sa_source := dc_source (chunk hit);
     sa_snippet := slice_to (dc_text (chunk hit)) 160;
     sa_score := score hit |}.

(** [self.cache], a dict from key to response. *)
Definition cache_store (S : Settings) (cache : gmap str QueryResponse)
  (key : str) (resp : QueryResponse) : gmap str QueryResponse :=
  if cache_enabled S then <[key := resp]> cache else cache.

(** [handle]: the response, the cache-hit flag and the cache it leaves. *)
Definition handle (L : lib) (P : prompts) (S : Settings) (W : world)
  (cache : gmap str QueryResponse) (req : QueryRequest)
  : result (QueryResponse * bool * gmap str QueryResponse) :=
  let* cache_key := _cache_key L req in
  match (if cache_enabled S then cache !! cache_key else None) with
  | Some cached => Ok (cached, true, cache)
  | None =>
      let* hits := rag_retrieve W (query req) (top_k req) in
      let '(filtered_hits, best_score) := _apply_relevance_threshold S hits in
      match filtered_hits with
      | [] =>
          let resp := _build_low_relevance_response L P (query req) in
          Ok (resp, false, cache_store S cache cache_key resp)
      | _ =>
          let* answer_text :=
            match lc_rag_answer W with
            | Some lc => lc (query req)
            | None => rag_generate_answer W (query req) filtered_hits (max_tokens req)
            end in
          let resp := {| answer := answer_text;
                         sources := map attribution filtered_hits;
                         latency_ms := Some (elapsed_ms W) |} in
          Ok (resp, false, cache_store S cache cache_key resp)
      end
  end.

End Agents.

(* ===================================================================== *)
(** * app/embedding_provider.py: [EmbeddingProvider]                       *)
(* ===================================================================== *)

Module Embedding.
Import Py Models.

(** ** numpy float32 *)

(** A float32: a binary32 number, 24 bits of precision and exponents below
    128.  Sums and quotients are rounded to the nearest, ties to even. *)
Definition float32 := spec_float.
Definition f32_add : float32 -> float32 -> float32 := SFadd 24 128.
Definition f32_div : float32 -> float32 -> float32 := SFdiv 24 128.

(** A Python float cast to float32: rounded, and an infinity when it is too
    large. *)
Definition f32_of_float (x : float) : float32 :=
  match Prim2SF x with
  | S754_finite s m e => binary_normalize 24 128 (cond_Zopp s (Z.pos m)) e s
  | other => other
  end.

(** A numpy float32 matrix, by rows. *)
Definition vector := list float32.
Definition matrix := list vector.

(** The [1e-12] added to every norm. *)
Definition epsilon : float32 := f32_of_float 1e-12.

(** One row of [arr / norms], where [norms] is
    [np.linalg.norm(arr, axis=1, keepdims=True) + 1e-12]. *)
Definition normalize (L : lib) (v : vector) : vector :=
  let norm := f32_add (linalg_norm L v) epsilon in
  map (fun x => f32_div x norm) v.

(** [np.asarray(vecs, dtype="float32")] followed by the norm along axis 1:
    no row at all leaves a one-dimensional array, for which axis 1 does not
    exist, and rows of different lengths make no array. *)
Definition asarray (vecs : list (list float)) : result matrix :=
  match vecs with
  | [] => raise ValueError
  | v :: rest =>
      if forallb (fun w => len w =? len v) rest
      then Ok (map (map f32_of_float) vecs)
      else raise ValueError
  end.

(** [_embed_openai]; [create call texts] is
    [self._openai_client.embeddings.create] at its [call]-th use, already
    read as [[item.embedding for item in resp.data]]. *)
Definition _embed_openai (L : lib) (create : nat -> list str -> result (list (list float)))
  (call : nat) (texts : list str) : result matrix :=
  let* vecs := create call texts in
  let* arr := asarray vecs in
  Ok (map (normalize L) arr).

(** What [self._qianfan_client.do] answers: [error_code] rendered as text
    when it is truthy, the message picked by
    [error_msg or error_message or "Unknown error"], and the embeddings of
    [data]. *)
Record qianfan_response := {
  error_code : option str;
  error_msg : str;
  data : list (list float);
}.

Definition _embed_qianfan (L : lib)
  (client_do : nat -> list str -> result qianfan_response)
  (call : nat) (texts : list str) : result matrix :=
  let* resp := client_do call texts in
  match error_code resp with
  | Some code =>
      Raise (Exn RuntimeError
               (lit "Qianfan embedding error " ++ code ++ lit ": " ++ error_msg resp))
  | None =>
      if negb (len (data resp) =? len texts)
      then Raise (Exn RuntimeError (lit "Qianfan embedding returned unexpected result length"))
      else
        let* arr := asarray (data resp) in
        Ok (map (normalize L) arr)
  end.




Definition keywords : list str :=
  [lit "429"; lit "rate limit"; lit "too many requests"; lit "tpm"; lit "rpm"].

Definition _is_retryable_error (L : lib) (exc : exn) : bool :=
  match exn_cls exc with
  | RateLimitError => true
  | _ =>
      let msg := lower L (exn_msg exc) in
      existsb (fun token => contains msg token) keywords
  end.

(** The four locals [embed] derives from the settings. *)
Definition batch_size (S : Settings) : Z :=
  Z.max 1 (int_or (embedding_batch_size S) 1).
Definition max_retries (S : Settings) : Z :=
  Z.max 1 (int_or (embedding_max_retries S) 1).
Definition base_delay (S : Settings) : float :=
  fmax 0.1 (float_or (embedding_retry_base_delay S) 0.1).
Definition max_delay (S : Settings) : float :=
  fmax (base_delay S) (float_or (embedding_retry_max_delay S) (base_delay S)).

(** The effects of a run: how many provider calls were made and the
    delays that [time.sleep] waited for, in order. *)
Record trace := { calls : nat; slept : list float }.

Definition called (tr : trace) : trace :=
  {| calls := S (calls tr); slept := slept tr |}.
Definition waited (delay : float) (tr : trace) : trace :=
  {| calls := calls tr; slept := slept tr ++ [delay] |}.

(** The [while True] loop around one batch, state [(attempt, delay)].
    What [time.sleep] raises is raised inside the handler and leaves the
    loop.  [None] is fuel exhaustion. *)
Fixpoint retry_loop (L : lib) (provider : nat -> list str -> result matrix)
  (chunk : list str) (max_retries : Z) (max_delay : float)
  (fuel : nat) (attempt : Z) (delay : float) (tr : trace)
  : option (result matrix * trace) :=
  match fuel with
  | O => None
  | S fuel' =>
      match provider (calls tr) chunk with
      | Ok vecs => Some (Ok vecs, called tr)
      | Raise exc =>
          let attempt := attempt + 1 in
          if (max_retries <=? attempt) || negb (_is_retryable_error L exc)
          then Some (Raise exc, called tr)
          else
            match time_sleep L delay with
            | Raise refused => Some (Raise refused, called tr)
            | Ok _ =>
                retry_loop L provider chunk max_retries max_delay fuel' attempt
                           (fmin (delay * 2) max_delay) (waited delay (called tr))
            end
      end
  end.

(** The [for start in range(0, len(texts), batch_size)] loop. *)
Fixpoint embed_batches (L : lib) (S : Settings)
  (provider : nat -> list str -> result matrix) (texts : list str)
  (fuel : nat) (starts : list Z) (batches : list matrix) (tr : trace)
  : option (result (list matrix) * trace) :=
  match starts with
  | [] => Some (Ok batches, tr)
  | start :: rest =>
      let chunk := slice texts start (start + batch_size S) in
      match retry_loop L provider chunk (max_retries S) (max_delay S) fuel 0
                       (base_delay S) tr with
      | None => None
      | Some (Raise exc, tr') => Some (Raise exc, tr')
      | Some (Ok vecs, tr') =>
          embed_batches L S provider texts fuel rest (batches ++ [vecs]) tr'
      end
  end.

(** [np.vstack]: the blocks must agree on their number of columns. *)
Definition vstack (batches : list matrix) : result matrix :=
  match batches with
  | [] => raise ValueError
  | b :: rest =>
      if forallb (fun m => len (default [] (head m)) =? len (default [] (head b))) rest
      then Ok (concat batches)
      else raise ValueError
  end.

(** [embed], with the provider chosen at construction. *)
Definition embed (L : lib) (S : Settings)
  (provider : nat -> list str -> result matrix) (fuel : nat)
  (texts : list str) (tr : trace) : option (result matrix * trace) :=
  match texts with
  | [] => Some (Ok [], tr)
  | _ =>
      match embed_batches L S provider texts fuel
                          (range_step (len texts) (batch_size S)) [] tr with
      | None => None
      | Some (Raise exc, tr') => Some (Raise exc, tr')
      | Some (Ok [], tr') => Some (Ok [], tr')
      | Some (Ok batches, tr') => Some (vstack batches, tr')
      end
  end.

(** The delays the specification words describe: the first is [base], each
    next one is twice the previous one, capped at [cap]. *)
Fixpoint backoff_schedule (n : nat) (base cap : float) : list float :=
  match n with
  | O => []
  | S n' => base :: backoff_schedule n' (fmin (base * 2) cap) cap
  end.

(** The delay after the first [n] of them. *)
Fixpoint backoff_delay (n : nat) (base cap : float) : float :=
  match n with
  | O => base
  | S n' => backoff_delay n' (fmin (base * 2) cap) cap
  end.

(** The provider fails at each of the [j] calls from the [c0]-th on, every
    time with an error that is classified as retryable. *)
Definition transient_failures (L : lib) (provider : nat -> list str -> result matrix)
  (chunk : list str) (c0 j : nat) : Prop :=
  forall i, (i < j)%nat ->
    exists e, provider (c0 + i)%nat chunk = Raise e /\ _is_retryable_error L e = true.

(** [time.sleep] takes every delay of a list. *)
Definition sleeps (L : lib) (delays : list float) : Prop :=
  Forall (fun d => exists u, time_sleep L d = Ok u) delays.

(** How one batch ends, in the words of the specification: after [j]
    retryable failures, each followed by its delay of the schedule, call
    [j] decides.  It succeeds; or it fails with an error that is not
    retryable; or it fails, retryable or not, as the last of the [limit]
    calls allowed; or it fails with a retryable error before the last call
    allowed and [time.sleep] raises on the delay that is due.  The outcome
    comes with the number of calls made and the delays slept. *)
Inductive batch_outcome (L : lib) (provider : nat -> list str -> result matrix)
  (chunk : list str) (base cap : float) (c0 : nat) (limit : Z)
  : result matrix -> nat -> list float -> Prop :=
| batch_success j vecs :
    Z.of_nat j < limit ->
    transient_failures L provider chunk c0 j ->
    sleeps L (backoff_schedule j base cap) ->
    provider (c0 + j)%nat chunk = Ok vecs ->
    batch_outcome L provider chunk base cap c0 limit
                  (Ok vecs) (S j) (backoff_schedule j base cap)
| batch_fatal j e :
    Z.of_nat j < limit ->
    transient_failures L provider chunk c0 j ->
    sleeps L (backoff_schedule j base cap) ->
    provider (c0 + j)%nat chunk = Raise e ->
    _is_retryable_error L e = false ->
    batch_outcome L provider chunk base cap c0 limit
                  (Raise e) (S j) (backoff_schedule j base cap)
| batch_exhausted j e :
    Z.of_nat (S j) = limit ->
    transient_failures L provider chunk c0 j ->
    sleeps L (backoff_schedule j base cap) ->
    provider (c0 + j)%nat chunk = Raise e ->
    batch_outcome L provider chunk base cap c0 limit
                  (Raise e) (S j) (backoff_schedule j base cap)
| batch_sleep_refused j e refused :
    Z.of_nat (S j) < limit ->
    transient_failures L provider chunk c0 j ->
    sleeps L (backoff_schedule j base cap) ->
    provider (c0 + j)%nat chunk = Raise e ->
    _is_retryable_error L e = true ->
    time_sleep L (backoff_delay j base cap) = Raise refused ->
    batch_outcome L provider chunk base cap c0 limit
                  (Raise refused) (S j) (backoff_schedule j base cap).

(** ** Reading a float32 as a number *)





End Embedding.
(* ===================================================================== *)
(** * app/main.py: [_run_vectorize_job]                                    *)
(* ===================================================================== *)

Module Main.
Import Py Models Loader.

(** ** The collaborators *)

(** A row of the PgVector table: [chunk_id] is the primary key and
    [document_id] holds the chunk's [source]. *)
Record row := { chunk_id : str; document_id : str; row_chunk : DocumentChunk }.

Definition row_of (c : DocumentChunk) : row :=
  {| chunk_id := dc_id c; document_id := dc_source c; row_chunk := c |}.

(** A call received by the status sink ([redis_coord.set_status] and
    [redis_coord.record_event] through [_record_ingest_event]). *)
Inductive status := Failed | Completed.

Record report := {
  r_doc : str;
  r_status : status;
  r_job_id : option str;
  r_error : option str;
  r_chunk_count : option Z;
  r_note : option str;
}.

Inductive sink_call :=
| SetStatus (r : report)
| RecordEvent (r : report).

(** What the job leaves behind. *)
Record state := {
  index : list row;
  sink : list sink_call;
  vector_refs : list (str * list str);
  total_doc_uploads : Z;
}.

(** What the outside does during one job.  [get_document] is the document
    store.  [embed_rows texts] is [self._embed(texts)] inside
    [upsert_documents]: the exception the embedding backend ends with, or
    the number of rows of the matrix it returns.  The faults are the
    exceptions, if any, with which the database fails in [upsert_documents]
    (in [_ensure_schema] or in the transaction) and in [delete_documents],
    and the store in [update_vector_refs]. *)
Record world := {
  get_document : str -> result payload;
  embed_rows : list str -> result nat;
  upsert_fault : option exn;
  delete_fault : option exn;
  refs_fault : str -> option exn;
}.

Definition NO_SUCH_FILE : str := [25991; 20214; 19981; 23384; 22312]%N.
Definition UNSUPPORTED_TYPE : str :=
  [19981; 25903; 25345; 30340; 25991; 20214; 31867; 22411; 58; 32]%N.
Definition INDEX_BUILD_FAILED : str := [32034; 24341; 26500; 24314; 22833; 36133]%N.

(** ** Dicts in insertion order *)

Fixpoint dict_set {V} (d : list (str * V)) (key : str) (v : V) : list (str * V) :=
  match d with
  | [] => [(key, v)]
  | (k, w) :: d' =>
      if str_eqb k key then (k, v) :: d' else (k, w) :: dict_set d' key v
  end.

Definition dict_of {V} (items : list (str * V)) : list (str * V) :=
  fold_left (fun d kv => dict_set d (fst kv) (snd kv)) items [].

(** ** PGVectorStore on the table *)

Definition delete_rows (targets : list str) (rows : list row) : list row :=
  filter (fun r => str_in (document_id r) targets = false) rows.

(** [delete_documents]. *)
Definition delete_documents (W : world) (doc_names : list str) (rows : list row)
  : result (list row) :=
  let targets := filter (fun name => name <> []) doc_names in
  match targets with
  | [] => Ok rows
  | _ =>
      match delete_fault W with
      | Some e => Raise e
      | None => Ok (delete_rows targets rows)
      end
  end.

(** [INSERT ... ON CONFLICT (chunk_id) DO UPDATE] of one row. *)
Fixpoint insert_row (r : row) (rows : list row) : list row :=
  match rows with
  | [] => [r]
  | r' :: rest =>
      if str_eqb (chunk_id r') (chunk_id r) then r :: rest
      else r' :: insert_row r rest
  end.

Definition has_duplicates (keys : list str) : bool :=
  negb (bool_decide (NoDup keys)).

(** [execute_values] is called without a [page_size], so psycopg2 takes
    its default. *)
Definition PAGE_SIZE : nat := 100.

(** The pages [execute_values] cuts its rows into: [page_size] rows each,
    the last one with what is left.  [fuel] bounds the number of pages. *)
Fixpoint paginate {A} (page_size fuel : nat) (seq : list A) : list (list A) :=
  match fuel, seq with
  | S fuel', _ :: _ =>
      take page_size seq :: paginate page_size fuel' (drop page_size seq)
  | _, _ => []
  end.

Definition pages {A} (seq : list A) : list (list A) :=
  paginate PAGE_SIZE (length seq) seq.

(** One page is one [INSERT ... ON CONFLICT (chunk_id) DO UPDATE]
    statement: the database refuses a statement that names one [chunk_id]
    twice, and a row of a later statement overwrites the row an earlier one
    wrote under its [chunk_id]. *)
Definition insert_page (page : list row) (rows : list row) : result (list row) :=
  if has_duplicates (map chunk_id page) then raise OtherError
  else Ok (fold_left (fun acc r => insert_row r acc) page rows).

Fixpoint insert_pages (todo : list (list row)) (rows : list row)
  : result (list row) :=
  match todo with
  | [] => Ok rows
  | page :: rest =>
      let* rows := insert_page page rows in
      insert_pages rest rows
  end.

(** [upsert_documents].  The rows are built by
    [zip(ordered, embeddings)], which stops at the shorter of the two.  The
    delete and the inserts are one transaction, so a failure leaves the
    table as it was. *)
Definition upsert_documents (W : world) (chunk_map : list (str * list DocumentChunk))
  (rows : list row) : result (list row) :=
  let kept := filter (fun kv => negb (str_eqb (fst kv) []) &&
                                 match snd kv with [] => false | _ => true end = true)
                     chunk_map in
  let targets := map fst kept in
  let ordered := flat_map snd kept in
  match ordered with
  | [] => match targets with [] => Ok rows | _ => delete_documents W targets rows end
  | _ =>
      let* embeddings := embed_rows W (map dc_text ordered) in
      match upsert_fault W with
      | Some e => Raise e
      | None =>
          let new_rows := map row_of (take embeddings ordered) in
          insert_pages (pages new_rows) (delete_rows targets rows)
      end
  end.

(** ** The job *)

(** An entry of the scheduled batch: [filename] is [""] when absent or
    empty. *)
Record entry := { filename : str; job_id : option str }.

Definition job_map (entries : list entry) : list (str * option str) :=
  dict_of (map (fun e => (filename e, job_id e))
               (filter (fun e => filename e <> []) entries)).

Definition job_of (entries : list entry) (doc_name : str) : option str :=
  default None (dict_get (job_map entries) doc_name).

(** [_fail]. *)
Definition _fail (entries : list entry) (doc_name reason : str) (st : state) : state :=
  let r := {| r_doc := doc_name; r_status := Failed;
              r_job_id := job_of entries doc_name; r_error := Some reason;
              r_chunk_count := None; r_note := None |} in
  {| index := index st; sink := sink st ++ [SetStatus r; RecordEvent r];
     vector_refs := vector_refs st; total_doc_uploads := total_doc_uploads st |}.

(** [_complete]. *)
Definition _complete (entries : list entry) (doc_name : str) (chunk_count : Z)
  (note : option str) (st : state) : state :=
  let r := {| r_doc := doc_name; r_status := Completed;
              r_job_id := job_of entries doc_name; r_error := None;
              r_chunk_count := Some chunk_count; r_note := note |} in
  {| index := index st; sink := sink st ++ [SetStatus r; RecordEvent r];
     vector_refs := vector_refs st; total_doc_uploads := total_doc_uploads st |}.

Definition record_doc_upload (st : state) : state :=
  {| index := index st; sink := sink st; vector_refs := vector_refs st;
     total_doc_uploads := total_doc_uploads st + 1 |}.

Definition set_index (rows : list row) (st : state) : state :=
  {| index := rows; sink := sink st; vector_refs := vector_refs st;
     total_doc_uploads := total_doc_uploads st |}.

Definition set_refs (refs : list (str * list str)) (st : state) : state :=
  {| index := index st; sink := sink st; vector_refs := refs;
     total_doc_uploads := total_doc_uploads st |}.

(** The first loop, [for name in filenames]: the documents that are found
    and supported; the others are failed.  An exception other than
    [FileNotFoundError] leaves the job. *)
Fixpoint collect_requested (L : lib) (W : world) (entries : list entry)
  (filenames : list str) (requested : list (str * payload)) (st : state)
  : result (list (str * payload)) * state :=
  match filenames with
  | [] => (Ok requested, st)
  | name :: rest =>
      match get_document W name with
      | Raise e =>
          match exn_cls e with
          | FileNotFoundError =>
              collect_requested L W entries rest requested
                                (_fail entries name NO_SUCH_FILE st)
          | _ => (Raise e, st)
          end
      | Ok doc =>
          let ext := lower L (p_ext doc) in
          if negb (str_in ext ALLOWED_DOC_EXTS) then
            collect_requested L W entries rest requested
              (_fail entries name
                     (UNSUPPORTED_TYPE ++ str_or ext (lit "unknown")) st)
          else collect_requested L W entries rest (dict_set requested name doc) st
      end
  end.

(** [for chunk in chunks: if chunk.source in doc_chunk_map: ...append]. *)
Definition attribute_chunk (m : list (str * list DocumentChunk)) (c : DocumentChunk)
  : list (str * list DocumentChunk) :=
  match dict_get m (dc_source c) with
  | Some chunk_list => dict_set m (dc_source c) (chunk_list ++ [c])
  | None => m
  end.

(** [for doc_name, chunk_list in doc_chunk_map.items(): update_vector_refs]. *)
Fixpoint update_all_refs (W : world) (items : list (str * list DocumentChunk))
  (refs : list (str * list str)) : result (list (str * list str)) :=
  match items with
  | [] => Ok refs
  | (doc_name, chunk_list) :: rest =>
      match refs_fault W doc_name with
      | Some e => Raise e
      | None => update_all_refs W rest (dict_set refs doc_name (map dc_id chunk_list))
      end
  end.

(** The body of the [try], under [_vectorize_lock]: the chunk map it builds
    and the state it leaves.  [None] is a chunker that does not return. *)
Definition indexing_section (L : lib) (S : Settings) (W : world) (fuel : nat)
  (requested : list (str * payload)) (st : state)
  : option (result (list (str * list DocumentChunk)) * state) :=
  let empty_map := map (fun kv => (fst kv, @nil DocumentChunk)) requested in
  match load_documents L fuel (map snd requested) (chunk_size S)
                       (chunk_overlap S) (chunk_overlap_ratio S) with
  | None => None
  | Some (Raise e) => Some (Raise e, st)
  | Some (Ok chunks) =>
      let doc_chunk_map := fold_left attribute_chunk chunks empty_map in
      let upsert_payload :=
        filter (fun kv => match snd kv with [] => false | _ => true end = true)
               doc_chunk_map in
      match (match upsert_payload with
             | [] => Ok (index st)
             | _ => upsert_documents W upsert_payload (index st)
             end) with
      | Raise e => Some (Raise e, st)
      | Ok rows1 =>
          let st1 := set_index rows1 st in
          let empty_docs :=
            map fst (filter (fun kv => match snd kv with [] => true | _ => false end = true)
                            doc_chunk_map) in
          match (match empty_docs with
                 | [] => Ok rows1
                 | _ => delete_documents W empty_docs rows1
                 end) with
          | Raise e => Some (Raise e, st1)
          | Ok rows2 =>
              let st2 := set_index rows2 st1 in
              match update_all_refs W doc_chunk_map (vector_refs st2) with
              | Raise e => Some (Raise e, st2)
              | Ok refs => Some (Ok doc_chunk_map, set_refs refs st2)
              end
          end
      end
  end.

(** The closing loop, [for name, chunk_list in doc_chunk_map.items()]. *)
Definition report_all (entries : list entry)
  (doc_chunk_map : list (str * list DocumentChunk)) (st : state) : state :=
  fold_left (fun st kv =>
               let chunk_count := len (snd kv) in
               if 0 <? chunk_count
               then _complete entries (fst kv) chunk_count None (record_doc_upload st)
               else _complete entries (fst kv) 0 (Some (lit "no_chunks")) st)
            doc_chunk_map st.

Definition fail_all (entries : list entry) (requested : list (str * payload))
  (st : state) : state :=
  fold_left (fun st kv => _fail entries (fst kv) INDEX_BUILD_FAILED st) requested st.

(** [_run_vectorize_job]: [Ok] when the function returns, [Raise] when an
    exception leaves it. *)
Definition _run_vectorize_job (L : lib) (S : Settings) (W : world) (fuel : nat)
  (entries : list entry) (st : state) : option (result unit * state) :=
  let filenames := map filename (filter (fun e => filename e <> []) entries) in
  match filenames with
  | [] => Some (Ok tt, st)
  | _ =>
      match collect_requested L W entries filenames [] st with
      | (Raise e, st0) => Some (Raise e, st0)
      | (Ok [], st0) => Some (Ok tt, st0)
      | (Ok requested, st0) =>
          match indexing_section L S W fuel requested st0 with
          | None => None
          | Some (Raise _, st1) => Some (Ok tt, fail_all entries requested st1)
          | Some (Ok doc_chunk_map, st1) =>
              Some (Ok tt, report_all entries doc_chunk_map st1)
          end
      end
  end.

(** The statuses the sink was told for a document, in order. *)
Definition statuses_of (doc_name : str) (calls : list sink_call) : list report :=
  flat_map (fun c => match c with
                     | SetStatus r => if str_eqb (r_doc r) doc_name then [r] else []
                     | RecordEvent _ => []
                     end) calls.

(** The last status the sink was told for a document. *)
Definition last_status (calls : list sink_call) (doc_name : str) : option report :=
  last (statuses_of doc_name calls).

(** What the closing loop tells the sink for one item of the chunk map. *)
Definition completion_report (entries : list entry) (kv : str * list DocumentChunk)
  : report :=
  {| r_doc := fst kv; r_status := Completed; r_job_id := job_of entries (fst kv);
     r_error := None;
     r_chunk_count := Some (if 0 <? len (snd kv) then len (snd kv) else 0);
     r_note := if 0 <? len (snd kv) then None else Some (lit "no_chunks") |}.

Definition report_calls (entries : list entry)
  (items : list (str * list DocumentChunk)) : list sink_call :=
  flat_map (fun kv => [SetStatus (completion_report entries kv);
                       RecordEvent (completion_report entries kv)]) items.

(** The documents of the chunk map that are left without chunks. *)
Definition empty_documents (m : list (str * list DocumentChunk)) : list str :=
  map fst (filter (fun kv => match snd kv with [] => true | _ => false end = true) m).

End Main.

(* ===================================================================== *)
(** * Worked inputs                                                        *)
(* ===================================================================== *)

Module Samples.
Import Py Models Loader Embedding Agents Main.

(** A library instance for the worked examples below.  Its functions agree
    with CPython on what the examples pass them: ASCII text, file names with
    no directory part.  The decoders of binary formats are not called by any
    example, and no example depends on what the digest of a key is:
    [plain_digest] returns the key itself. *)
Definition ascii_lower (s : str) : str :=
  map (fun c => if ((65 <=? c) && (c <=? 90))%N then (c + 32)%N else c) s.

Definition ascii_isdigit (s : str) : bool :=
  match s with
  | [] => false
  | _ => forallb (fun c => (48 <=? c) && (c <=? 57))%N s
  end.

Definition ascii_int (s : str) : result Z :=
  if ascii_isdigit s
  then Ok (fold_left (fun acc c => 10 * acc + (Z.of_N c - 48)) s 0)
  else raise ValueError.

Fixpoint from_last_dot (s : str) : option str :=
  match s with
  | [] => None
  | c :: s' =>
      match from_last_dot s' with
      | Some t => Some t
      | None => if (c =? 46)%N then Some s else None
      end
  end.

Definition suffix (name : str) : str :=
  match name with
  | [] => []
  | _ :: rest => default [] (from_last_dot rest)
  end.

Definition stem (name : str) : str :=
  take (length name - length (suffix name)) name.

Definition ascii_decode (data : bytes) : str :=
  filter (fun c => (c < 128)%N) (map Byte.to_N data).

Definition plain_digest (raw : str) : result str := Ok raw.

(** [time.sleep] of CPython 3.11: a negative delay and a NaN are refused
    with [ValueError], and so is, with [OverflowError], a delay whose
    nanoseconds do not fit 63 bits, about 9.2e9 seconds. *)
Definition python_sleep (delay : float) : result unit :=
  if (delay <? 0)%float || PrimFloat.is_nan delay then
    Raise (Exn ValueError (lit "sleep length must be non-negative"))
  else if (9223372036854775808 <=? delay * 1e9)%float then
    Raise (Exn OverflowError (lit "timestamp too large to convert to C _PyTime_t"))
  else Ok tt.

(** [np.linalg.norm] of a row: the square root of the sum of the squares,
    in float32.  numpy adds up a row of fewer than 8 numbers from left to
    right; the examples have 2. *)
Definition short_row_norm (v : list spec_float) : spec_float :=
  SFsqrt 24 128
    (fold_left (fun acc x => SFadd 24 128 acc (SFmul 24 128 x x)) v (S754_zero false)).

Definition sample_lib : lib := {|
  lower := ascii_lower;
  isdigit := ascii_isdigit;
  int_of_str := ascii_int;
  float_of_str := fun _ => None;
  path_suffix := suffix;
  path_stem := stem;
  path_name := fun name => name;
  utf8_decode_ignore := ascii_decode;
  pdf_pages := fun _ => raise OtherError;
  docx_paragraphs := fun _ => raise OtherError;
  xlsx_rows := fun _ => raise OtherError;
  sha256_hex_utf8 := plain_digest;
  greeting_pattern_match := fun _ => false;
  time_sleep := python_sleep;
  linalg_norm := short_row_norm;
|}.

(** The bytes of an ASCII literal. *)
Definition ascii_bytes (s : String.string) : bytes :=
  map Ascii.byte_of_ascii (String.list_ascii_of_string s).
Arguments ascii_bytes s%_string.

Definition mk_chunk (id source text : str) : DocumentChunk := {|
  dc_id := id; dc_text := text; dc_source := source;
  dc_source_type := lit "file"; dc_url := None; dc_metadata := [];
|}.

Definition hit (id source text : str) (s : float) : RetrievedChunk :=
  {| chunk := mk_chunk id source text; score := s |}.

(** ** Retrieval and context *)

Definition recall3 : list RetrievedChunk :=
  [hit (lit "d-0") (lit "d.txt") (lit "alpha") 0.9;
   hit (lit "d-1") (lit "d.txt") (lit "beta") 0.8;
   hit (lit "d-2") (lit "d.txt") (lit "gamma") 0.7].

Definition two_lines : list RetrievedChunk :=
  [hit (lit "i") (lit "a") (lit "x") 0.5; hit (lit "j") (lit "a") (lit "y") 0.5].

(** ** Loading *)

(** A text file that holds ["a   "]. *)
Definition blank_tail : payload :=
  {| p_name := lit "d.txt"; p_ext := []; p_content := Some (ascii_bytes "a   ") |}.

(** ** Reranking *)

Definition alpha : RetrievedChunk := hit (lit "d-0") (lit "d.txt") (lit "alpha") 0.9.
Definition beta : RetrievedChunk := hit (lit "d-1") (lit "d.txt") (lit "beta") 0.8.

(** The body [{"results": [{"index": -1}, {"index": 1}]}]. *)
Definition negative_index_body : json :=
  JDict [(lit "results",
          JList [JDict [(lit "index", JInt (-1))];
                 JDict [(lit "index", JInt 1)]])].

(** ** The orchestrator *)

Definition weak_hit : RetrievedChunk :=
  hit (lit "d-0") (lit "d.txt") (lit "alpha") 0.2.

Definition weak_world : Agents.world := {|
  rag_retrieve := fun _ _ => Ok [weak_hit];
  lc_rag_answer := None;
  rag_generate_answer := fun _ _ _ => Ok (lit "answer");
  elapsed_ms := 12;
|}.

Definition sample_prompts : prompts := {|
  FALLBACK_GREETING := lit "hello";
  FALLBACK_NO_CONTEXT_format := fun q => lit "nothing found for " ++ q;
|}.

Definition ask (session : option str) (stream : bool) : QueryRequest := {|
  query := lit "fees"; top_k := Some 4; max_tokens := None;
  streaming := stream; session_id := session;
|}.

Definition strong_world : Agents.world := {|
  rag_retrieve := fun _ _ => Ok [hit (lit "d-0") (lit "d.txt") (lit "alpha") 0.9];
  lc_rag_answer := None;
  rag_generate_answer := fun _ _ _ => Ok (lit "answer for the first session");
  elapsed_ms := 12;
|}.

Definition first_answer : QueryResponse := {|
  answer := lit "answer for the first session";
  sources := [attribution (hit (lit "d-0") (lit "d.txt") (lit "alpha") 0.9)];
  latency_ms := Some 12%float;
|}.

(** ** Embedding *)

(** A backend that answers every call with a rate-limit error. *)
Definition rate_limited : exn := Exn RateLimitError (lit "slow down").
Definition always_limited : nat -> list str -> result matrix :=
  fun _ _ => Raise rate_limited.

Definition start_trace : trace := {| calls := 0; slept := [] |}.

(** The defaults, but a base delay of 0.05 s. *)
Definition short_base : Settings := {|
  embedding_batch_size := 32;
  embedding_max_retries := 4;
  embedding_retry_base_delay := 0.05;
  embedding_retry_max_delay := 6.0;
  chunk_size := 700;
  chunk_overlap := 0;
  chunk_overlap_ratio := 0.12;
  settings_top_k := 4;
  min_relevance := 0.35;
  max_context_chars := 3200;
  rerank_top_n := 8;
  cache_enabled := true;
|}.

(** A backend that answers the vector (3, 4). *)
Definition backend_3_4 : nat -> list str -> result (list (list float)) :=
  fun _ _ => Ok [[3; 4]%float].


(** A backend that answers the vector (1e20, 0): the square of its first
    entry is no float32. *)
Definition large_backend : nat -> list str -> result (list (list float)) :=
  fun _ _ => Ok [[1e20; 0]%float].

(** The defaults, but a base delay and a maximum delay of 1e10 s. *)
Definition long_wait : Settings := {|
  embedding_batch_size := 32;
  embedding_max_retries := 4;
  embedding_retry_base_delay := 1e10;
  embedding_retry_max_delay := 1e10;
  chunk_size := 700;
  chunk_overlap := 0;
  chunk_overlap_ratio := 0.12;
  settings_top_k := 4;
  min_relevance := 0.35;
  max_context_chars := 3200;
  rerank_top_n := 8;
  cache_enabled := true;
|}.

(** ** Ingestion: a batch of two documents *)

Definition doc_a : payload :=
  {| p_name := lit "a.txt"; p_ext := lit ".txt"; p_content := Some (ascii_bytes "x") |}.

(** [b.txt] holds two spaces: it has no chunk. *)
Definition doc_b : payload :=
  {| p_name := lit "b.txt"; p_ext := lit ".txt"; p_content := Some (ascii_bytes "  ") |}.

Definition stored (name : str) : result payload :=
  if str_eqb name (lit "a.txt") then Ok doc_a
  else if str_eqb name (lit "b.txt") then Ok doc_b
  else raise FileNotFoundError.

(** Every call works. *)
Definition calm : Main.world :=
  {| get_document := stored; embed_rows := fun texts => Ok (length texts);
     upsert_fault := None; delete_fault := None; refs_fault := fun _ => None |}.

(** The embedding call of the upsert is rate limited to the end. *)
Definition throttled : Main.world :=
  {| get_document := stored;
     embed_rows := fun _ => Raise (Exn RateLimitError (lit "429"));
     upsert_fault := None; delete_fault := None; refs_fault := fun _ => None |}.

(** The index holds one chunk of an earlier version of [b.txt]. *)
Definition stale : row := row_of (mk_chunk (lit "b-0") (lit "b.txt") (lit "old text")).
Definition before : state :=
  {| index := [stale]; sink := []; vector_refs := []; total_doc_uploads := 0 |}.

Definition batch : list entry :=
  [{| filename := lit "a.txt"; job_id := Some (lit "j1") |};
   {| filename := lit "b.txt"; job_id := Some (lit "j2") |}].

Definition batch_chunks : list (str * list DocumentChunk) :=
  [(lit "a.txt", [make_chunk (lit "a") (lit "a.txt") (lit ".txt") 0 (lit "x")]);
   (lit "b.txt", [])].

End Samples.


(* ===================================================================== *)
(** * app/agents.py: [AgentOrchestrator.handle_stream]                     *)
(* ===================================================================== *)

Module Stream.
Import Py Models Agents.

(** What iterating a generator gives: the items it yields, in order, and
    the exception that ends the iteration, if one does. *)
Definition yielded := (list str * option exn)%type.

(** ["__META__"], the prefix of the header chunk. *)
Definition META : str := lit "__META__".

(** One entry of ["sources"] in the header. *)
Definition meta_source (h : RetrievedChunk) : json :=
  JDict [(lit "source", JStr (dc_source (chunk h)));
         (lit "snippet", JStr (slice_to (dc_text (chunk h)) 160));
         (lit "score", JFloat (score h))].

(** The header of the low-relevance path. *)
Definition low_relevance_meta (best_score : float) : list (str * json) :=
  [(lit "sources", JList []); (lit "low_relevance", JBool true);
   (lit "best_score", JFloat best_score)].

(** The header of the answering path. *)
Definition answer_meta (filtered_hits : list RetrievedChunk) (best_score : float)
  : list (str * json) :=
  [(lit "sources", JList (map meta_source filtered_hits));
   (lit "best_score", JFloat best_score)].

(** [handle_stream], iterated to its end.  [dumps] is
    [json.dumps(_, ensure_ascii=False)] and [generate_answer_stream] is
    [self.rag.generate_answer_stream], iterated to its end. *)
Definition handle_stream (L : lib) (P : prompts) (S : Settings) (W : world)
  (dumps : json -> str)
  (generate_answer_stream : str -> list RetrievedChunk -> option Z -> yielded)
  (req : QueryRequest) : yielded :=
  match rag_retrieve W (query req) (top_k req) with
  | Raise e => ([], Some e)
  | Ok hits =>
      let '(filtered_hits, best_score) := _apply_relevance_threshold S hits in
      match filtered_hits with
      | [] =>
          ([META ++ dumps (JDict (low_relevance_meta best_score));
            _fallback_text L P (query req)], None)
      | _ =>
          let '(chunks, ending) :=
            generate_answer_stream (query req) filtered_hits (max_tokens req) in
          ((META ++ dumps (JDict (answer_meta filtered_hits best_score))) :: chunks,
           ending)
      end
  end.

End Stream.

(* ===================================================================== *)
(** * app/metrics.py: [Metrics]                                            *)
(* ===================================================================== *)

Module Metrics.
Import Py.

(** The attributes of a [Metrics] object; [latency_window] is the [maxlen]
    of the deque [latencies_ms]. *)
Record metrics := {
  latency_window : Z;
  latencies_ms : list float;
  total_queries : Z;
  total_stream_queries : Z;
  total_doc_uploads : Z;
  cache_hits : Z;
  total_errors : Z;
  last_reset_ts : float;
}.

(** [deque.append] under [maxlen]: the item is added on the right, and an
    item is dropped on the left when the deque is over its length. *)
Definition deque_append (maxlen : Z) (d : list float) (x : float) : list float :=
  let d := d ++ [x] in
  if maxlen <? len d then drop 1 d else d.

(** [Metrics(latency_window)]; [now] is [time.time()].  A negative [maxlen]
    is refused by [deque]. *)
Definition __init__ (latency_window : Z) (now : float) : result metrics :=
  if latency_window <? 0 then raise ValueError
  else Ok {| latency_window := latency_window; latencies_ms := [];
             total_queries := 0; total_stream_queries := 0;
             total_doc_uploads := 0; cache_hits := 0; total_errors := 0;
             last_reset_ts := now |}.

Definition record_query (m : metrics) (latency_ms : float) (cached : bool) : metrics :=
  {| latency_window := latency_window m;
     latencies_ms := deque_append (latency_window m) (latencies_ms m) latency_ms;
     total_queries := total_queries m + 1;
     total_stream_queries := total_stream_queries m;
     total_doc_uploads := total_doc_uploads m;
     cache_hits := if cached then cache_hits m + 1 else cache_hits m;
     total_errors := total_errors m;
     last_reset_ts := last_reset_ts m |}.

Definition record_stream (m : metrics) (latency_ms : option float) (count : bool)
  : metrics :=
  {| latency_window := latency_window m;
     latencies_ms := match latency_ms with
                     | Some x => deque_append (latency_window m) (latencies_ms m) x
                     | None => latencies_ms m
                     end;
     total_queries := total_queries m;
     total_stream_queries :=
       if count then total_stream_queries m + 1 else total_stream_queries m;
     total_doc_uploads := total_doc_uploads m;
     cache_hits := cache_hits m;
     total_errors := total_errors m;
     last_reset_ts := last_reset_ts m |}.

Definition record_doc_upload (m : metrics) : metrics :=
  {| latency_window := latency_window m; latencies_ms := latencies_ms m;
     total_queries := total_queries m;
     total_stream_queries := total_stream_queries m;
     total_doc_uploads := total_doc_uploads m + 1;
     cache_hits := cache_hits m; total_errors := total_errors m;
     last_reset_ts := last_reset_ts m |}.

Definition record_error (m : metrics) : metrics :=
  {| latency_window := latency_window m; latencies_ms := latencies_ms m;
     total_queries := total_queries m;
     total_stream_queries := total_stream_queries m;
     total_doc_uploads := total_doc_uploads m;
     cache_hits := cache_hits m; total_errors := total_errors m + 1;
     last_reset_ts := last_reset_ts m |}.

(** A call on the object, and a run of calls in order. *)
Inductive call :=
| RecordQuery (latency_ms : float) (cached : bool)
| RecordStream (latency_ms : option float) (count : bool)
| RecordDocUpload
| RecordError.

Definition step (m : metrics) (c : call) : metrics :=
  match c with
  | RecordQuery latency_ms cached => record_query m latency_ms cached
  | RecordStream latency_ms count => record_stream m latency_ms count
  | RecordDocUpload => record_doc_upload m
  | RecordError => record_error m
  end.

Definition run (calls : list call) (m : metrics) : metrics := fold_left step calls m.

(** The latencies that a run of calls hands over, in order. *)
Definition recorded (calls : list call) : list float :=
  flat_map (fun c => match c with
                     | RecordQuery latency_ms _ => [latency_ms]
                     | RecordStream (Some latency_ms) _ => [latency_ms]
                     | _ => []
                     end) calls.

Definition is_query (c : call) : bool :=
  match c with RecordQuery _ _ => true | _ => false end.

End Metrics.

(* ===================================================================== *)
(** * app/document_storage.py: [DocumentStorage], the in-memory fallback   *)
(* ===================================================================== *)

Module Storage.
Import Py.

(** The metadata dict of a document.  [d_content] is the ["content"] key,
    which the stored copy has and the dict that [save] returns has not. *)
Record doc := {
  d_name : str;
  d_size : Z;
  d_ext : str;
  d_oss_key : str;
  d_hash : str;
  d_uploaded_by : option str;
  d_vector_refs : list str;
  d_created_at : float;
  d_updated_at : float;
  d_content : option bytes;
}.

(** The object when MySQL is not reachable ([_backend == "memory"]) and no
    OSS bucket is configured ([_object_backend == "memory"]). *)
Record store := {
  prefix : str;
  _memory_meta : gmap str doc;
  _memory_objects : gmap str bytes;
}.

Definition _sanitize (name : str) : result str :=
  if contains name (lit "/") || contains name (lit "..")
  then Raise (Exn ValueError (lit "Illegal document name"))
  else
    let base := strip name in
    match base with
    | [] => Raise (Exn ValueError (lit "Empty document name"))
    | _ => Ok base
    end.

(** [_object_key]; [uid] is [uuid.uuid4().hex[:8]]. *)
Definition _object_key (st : store) (safe_name uid : str) : str :=
  let key := safe_name ++ lit "-" ++ uid in
  match prefix st with
  | [] => key
  | p => p ++ lit "/" ++ key
  end.

(** [s.rfind(c)] for a pattern of one character: the last index that holds
    it, or -1. *)
Definition rfind (s : str) (c : char) : Z :=
  fold_left (fun found ix => if (snd ix =? c)%N then fst ix else found)
            (enumerate s) (-1).

(** [s[i:]]. *)
Definition slice_from {A} (l : list A) (i : Z) : list A := slice l i (len l).

Definition not_found (safe_name : str) : exn :=
  Exn FileNotFoundError (lit "Document " ++ safe_name ++ lit " not found").

(** [save]; [sha256_hex] is [hashlib.sha256(data).hexdigest()] and [now] is
    [time.time()].  The dict returned and the store left. *)
Definition save (L : lib) (sha256_hex : bytes -> str) (st : store)
  (name : str) (data : bytes) (uploaded_by : option str) (uid : str) (now : float)
  : result (doc * store) :=
  let* safe_name := _sanitize name in
  let ext := if contains safe_name (lit ".")
             then lower L (slice_from safe_name (rfind safe_name 46%N))
             else [] in
  let key := _object_key st safe_name uid in
  let payload := {| d_name := safe_name; d_size := len data; d_ext := ext;
                    d_oss_key := key; d_hash := sha256_hex data;
                    d_uploaded_by := uploaded_by; d_vector_refs := [];
                    d_created_at := now; d_updated_at := now;
                    d_content := None |} in
  let payload_copy := {| d_name := safe_name; d_size := len data; d_ext := ext;
                         d_oss_key := key; d_hash := sha256_hex data;
                         d_uploaded_by := uploaded_by; d_vector_refs := [];
                         d_created_at := now; d_updated_at := now;
                         d_content := Some data |} in
  Ok (payload,
      {| prefix := prefix st;
         _memory_meta := <[safe_name := payload_copy]> (_memory_meta st);
         _memory_objects := <[key := data]> (_memory_objects st) |}).

(** [get_document]; this backend returns the stored dict whatever
    [include_content] says. *)
Definition get_document (st : store) (name : str) (include_content : bool)
  : result doc :=
  let* safe_name := _sanitize name in
  match _memory_meta st !! safe_name with
  | None => Raise (not_found safe_name)
  | Some meta => Ok meta
  end.

Definition read_bytes (st : store) (name : str) : result bytes :=
  let* meta := get_document st name false in
  Ok (default [] (d_content meta)).

Definition exists_ (st : store) (name : str) : result bool :=
  let* safe_name := _sanitize name in
  Ok (bool_decide (is_Some (_memory_meta st !! safe_name))).

Definition delete (st : store) (name : str) : result store :=
  let* safe_name := _sanitize name in
  match _memory_meta st !! safe_name with
  | None => Raise (not_found safe_name)
  | Some meta =>
      Ok {| prefix := prefix st;
            _memory_meta := base.delete safe_name (_memory_meta st);
            _memory_objects :=
              match d_oss_key meta with
              | [] => _memory_objects st
              | key => base.delete key (_memory_objects st)
              end |}
  end.

Definition update_vector_refs (st : store) (name : str) (chunk_ids : list str)
  (now : float) : result store :=
  let* safe_name := _sanitize name in
  match _memory_meta st !! safe_name with
  | None => Ok st
  | Some meta =>
      let meta := {| d_name := d_name meta; d_size := d_size meta;
                     d_ext := d_ext meta; d_oss_key := d_oss_key meta;
                     d_hash := d_hash meta; d_uploaded_by := d_uploaded_by meta;
                     d_vector_refs := chunk_ids;
                     d_created_at := d_created_at meta; d_updated_at := now;
                     d_content := d_content meta |} in
      Ok {| prefix := prefix st;
            _memory_meta := <[safe_name := meta]> (_memory_meta st);
            _memory_objects := _memory_objects st |}
  end.

End Storage.

(* ===================================================================== *)
(** * app/session_store.py: the in-memory session store                    *)
(* ===================================================================== *)

Module Sessions.
Import Py.

(** [models.SessionMessage]. *)
Record SessionMessage := {
  msg_role : str;
  msg_content : str;
  msg_created_at : float;
}.

(** A [MetaDict], with the keys every writer of the store gives it. *)
Record meta := {
  session_id : str;
  user : str;
  title : str;
  created_at : float;
  updated_at : float;
  message_count : Z;
  last_message : str;
}.

(** [models.SessionSummary]. *)
Record SessionSummary := {
  sum_session_id : str;
  sum_title : str;
  sum_last_message : str;
  sum_created_at : float;
  sum_updated_at : float;
  sum_message_count : Z;
}.

(** [InMemorySessionStore]: [_messages] and [_sessions]. *)
Record store := {
  _messages : gmap str (list SessionMessage);
  _sessions : gmap str meta;
}.

Definition DEFAULT_TITLE : str := [26032; 30340; 23545; 35805]%N.
Definition HISTORY_TITLE : str := [21382; 21490; 20250; 35805]%N.

(** [x or d] on an [Optional[str]]. *)
Definition str_or (x : option str) (d : str) : str :=
  match x with
  | Some (c :: s) => c :: s
  | _ => d
  end.

Definition _sanitize_title (title : option str) : str :=
  let base := strip (str_or title DEFAULT_TITLE) in
  let base := str_or (Some base) DEFAULT_TITLE in
  slice_to base 60.

(** [self._messages.setdefault(sid, [])], for the dict it leaves. *)
Definition setdefault_messages (ms : gmap str (list SessionMessage)) (sid : str)
  : gmap str (list SessionMessage) :=
  match ms !! sid with
  | Some _ => ms
  | None => <[sid := []]> ms
  end.

(** [self._messages.get(session_id, [])]. *)
Definition messages_of (st : store) (session_id : str) : list SessionMessage :=
  default [] (_messages st !! session_id).

(** [create_session]; [fresh] is [uuid.uuid4().hex] and [ts] is
    [time.time()]. *)
Definition create_session (st : store) (user : str) (title session_id : option str)
  (fresh : str) (ts : float) : meta * store :=
  let sid := str_or session_id fresh in
  let m := {| session_id := sid; user := user; title := _sanitize_title title;
              created_at := ts; updated_at := ts;
              message_count := 0; last_message := [] |} in
  (m, {| _messages := setdefault_messages (_messages st) sid;
         _sessions := <[sid := m]> (_sessions st) |}).

Definition rename_session (st : store) (session_id user title : str) (ts : float)
  : option meta * store :=
  let title := _sanitize_title (Some title) in
  match _sessions st !! session_id with
  | None => (None, st)
  | Some m =>
      if negb (str_eqb (Sessions.user m) user) then (None, st)
      else
        let m := {| session_id := Sessions.session_id m; user := Sessions.user m;
                    title := title;
                    created_at := created_at m; updated_at := ts;
                    message_count := message_count m;
                    last_message := last_message m |} in
        (Some m, {| _messages := _messages st;
                    _sessions := <[session_id := m]> (_sessions st) |})
  end.

Definition delete_session (st : store) (session_id user : str) : bool * store :=
  match _sessions st !! session_id with
  | None => (false, st)
  | Some m =>
      if negb (str_eqb (Sessions.user m) user) then (false, st)
      else (true, {| _messages := base.delete session_id (_messages st);
                     _sessions := base.delete session_id (_sessions st) |})
  end.

Definition get_session (st : store) (session_id : str) : option meta :=
  _sessions st !! session_id.

(** [bootstrap_session]; [ts] is its own [time.time()]. *)
Definition bootstrap_session (st : store) (session_id user : str) (ts : float)
  : meta * store :=
  let history := messages_of st session_id in
  let title_source := match history with
                      | first :: _ => msg_content first
                      | [] => HISTORY_TITLE
                      end in
  let m := {| session_id := session_id; user := user;
              title := _sanitize_title (Some (slice_to title_source 20));
              created_at := match history with
                            | first :: _ => msg_created_at first
                            | [] => ts
                            end;
              updated_at := match last history with
                            | Some final => msg_created_at final
                            | None => ts
                            end;
              message_count := len history;
              last_message := match last history with
                              | Some final => msg_content final
                              | None => []
                              end |} in
  (m, {| _messages := _messages st;
         _sessions := <[session_id := m]> (_sessions st) |}).

(** [add_message]; [ts] is its [time.time()] and [ts'] the one
    [bootstrap_session] would read. *)
Definition add_message (st : store) (session_id role content : str)
  (user : option str) (ts ts' : float) : store :=
  let msg := {| msg_role := role; msg_content := content; msg_created_at := ts |} in
  let st := {| _messages := <[session_id := messages_of st session_id ++ [msg]]>
                              (_messages st);
               _sessions := _sessions st |} in
  let st := match _sessions st !! session_id, user with
            | None, Some (c :: u) => snd (bootstrap_session st session_id (c :: u) ts')
            | _, _ => st
            end in
  match _sessions st !! session_id with
  | Some m =>
      let m := {| session_id := Sessions.session_id m; user := Sessions.user m;
                  title := title m;
                  created_at := created_at m; updated_at := ts;
                  message_count := message_count m + 1;
                  last_message := content |} in
      {| _messages := _messages st;
         _sessions := <[session_id := m]> (_sessions st) |}
  | None => st
  end.

(** [get_history]: [msgs[-limit:]]. *)
Definition get_history (st : store) (session_id : str) (limit : Z)
  : list SessionMessage :=
  let msgs := messages_of st session_id in
  slice msgs (- limit) (len msgs).

Definition save_meta (st : store) (m : meta) : store :=
  {| _messages := setdefault_messages (_messages st) (session_id m);
     _sessions := <[session_id m := m]> (_sessions st) |}.

(** ** [SessionStore] over the in-memory store *)

Definition _meta_to_summary (m : meta) : SessionSummary :=
  {| sum_session_id := session_id m; sum_title := title m;
     sum_last_message := last_message m;
     sum_created_at := created_at m; sum_updated_at := updated_at m;
     sum_message_count := message_count m |}.

(** What [ensure_session_for_user] gives: the summary it returns, if any,
    or the [PermissionError] it raises. *)
Inductive ensured :=
| PermissionError
| Ensured (summary : option SessionSummary).

(** [ensure_session_for_user] without Mongo; [ts] is the [time.time()] of
    [bootstrap_session]. *)
Definition ensure_session_for_user (st : store) (session_id user : str)
  (create_if_missing : bool) (ts : float) : ensured * store :=
  match get_session st session_id with
  | Some m =>
      match Sessions.user m with
      | [] =>
          let m := {| session_id := Sessions.session_id m; user := user;
                      title := title m;
                      created_at := created_at m; updated_at := updated_at m;
                      message_count := message_count m;
                      last_message := last_message m |} in
          (Ensured (Some (_meta_to_summary m)), save_meta st m)
      | owner =>
          if negb (str_eqb owner user) then (PermissionError, st)
          else (Ensured (Some (_meta_to_summary m)), st)
      end
  | None =>
      if create_if_missing
      then let '(boot, st) := bootstrap_session st session_id user ts in
           (Ensured (Some (_meta_to_summary boot)), st)
      else (Ensured None, st)
  end.

(** ** app/main.py: what the query endpoints store *)

(** The part of [query] that stores one exchange: the session is looked up
    or set up for [user], then the question and the answer are added.
    [None] is the [PermissionError]; the [ts] are the clock readings. *)
Definition query_history (st : store) (session_id : option str)
  (user question answer : str) (ts0 ts1 ts1' ts2 ts2' : float) : option store :=
  match session_id with
  | None | Some [] => Some st
  | Some sid =>
      match ensure_session_for_user st sid user true ts0 with
      | (PermissionError, _) => None
      | (Ensured _, st) =>
          let st := add_message st sid (lit "user") question (Some user) ts1 ts1' in
          Some (add_message st sid (lit "assistant") answer (Some user) ts2 ts2')
      end
  end.

(** [_persist_stream_history]: an exception is logged and the store is
    left as it was. *)
Definition _persist_stream_history (st : store) (session_id : option str)
  (query user : str) (answer_parts : list str) (ts0 ts1 ts1' ts2 ts2' : float)
  : store :=
  match session_id with
  | None | Some [] => st
  | Some sid =>
      let final_answer := strip (concat answer_parts) in
      let user_text := query in
      match user_text, final_answer with
      | [], [] => st
      | _, _ =>
          match ensure_session_for_user st sid user true ts0 with
          | (PermissionError, _) => st
          | (Ensured _, st) =>
              let st := match user_text with
                        | [] => st
                        | _ => add_message st sid (lit "user") user_text
                                           (Some user) ts1 ts1'
                        end in
              match final_answer with
              | [] => st
              | _ => add_message st sid (lit "assistant") final_answer
                                 (Some user) ts2 ts2'
              end
          end
      end
  end.

End Sessions.

(* ===================================================================== *)
(** * app/user_store.py: the in-memory user store                          *)
(* ===================================================================== *)

Module Users.
Import Py.

(** The dict kept per user name. *)
Record account := {
  password_hash : str;
  must_change_password : str;
  role : str;
  created_at : str;
}.

(** [InMemoryUserStore]: [users] and [tokens]; a token maps to
    [(username, role, must_change)]. *)
Record store := {
  users : gmap str account;
  tokens : gmap str (str * str * bool);
}.

(** [hashlib.sha256(password.encode("utf-8")).hexdigest()]. *)
Definition _hash_password (L : lib) (password : str) : result str :=
  sha256_hex_utf8 L password.

(** [seed_admin]; [stamp] is [str(time.time())]. *)
Definition seed_admin (L : lib) (st : store) (username password stamp : str)
  : result store :=
  match users st !! username with
  | Some _ => Ok st
  | None =>
      let* h := _hash_password L password in
      Ok {| users := <[username := {| password_hash := h;
                                      must_change_password := lit "1";
                                      role := lit "admin";
                                      created_at := stamp |}]> (users st);
            tokens := tokens st |}
  end.

Definition create_user (L : lib) (st : store) (username password : str)
  (must_change : bool) (role : str) (stamp : str) : result (bool * store) :=
  match users st !! username with
  | Some _ => Ok (false, st)
  | None =>
      let* h := _hash_password L password in
      Ok (true,
          {| users := <[username := {| password_hash := h;
                                       must_change_password :=
                                         if must_change then lit "1" else lit "0";
                                       role := role;
                                       created_at := stamp |}]> (users st);
             tokens := tokens st |})
  end.

(** [issue_token]; [token] is [secrets.token_hex(16)]. *)
Definition issue_token (st : store) (username role : str) (must_change : bool)
  (token : str) : str * store :=
  (token,
   {| users := users st;
      tokens := <[token := (username, role, must_change)]> (tokens st) |}).

Definition authenticate (L : lib) (st : store) (username password : str) (token : str)
  : result ((bool * option str * bool * option str) * store) :=
  match users st !! username with
  | None => Ok ((false, None, false, None), st)
  | Some user =>
      let* h := _hash_password L password in
      if negb (str_eqb (password_hash user) h)
      then Ok ((false, None, false, None), st)
      else
        let must_change := str_eqb (must_change_password user) (lit "1") in
        let '(token, st) := issue_token st username (role user) must_change token in
        Ok ((true, Some token, must_change, Some (role user)), st)
  end.

Definition set_password (L : lib) (st : store) (username new_password : str)
  : result store :=
  match users st !! username with
  | None => Ok st
  | Some user =>
      let* h := _hash_password L new_password in
      Ok {| users := <[username := {| password_hash := h;
                                      must_change_password := lit "0";
                                      role := role user;
                                      created_at := created_at user |}]> (users st);
            tokens := tokens st |}
  end.

Definition validate_token (st : store) (token : str) : option (str * str * bool) :=
  tokens st !! token.

(** [UserStore.batch_create] over this backend: every name is created with
    the password [f"{password_prefix}{uid}"] and [must_change=True];
    [stamps i] is the clock at the [i]-th creation. *)
Fixpoint batch_loop (L : lib) (st : store) (usernames : list str)
  (password_prefix role : str) (stamps : nat -> str) (i : nat)
  (created skipped : list str) : result ((list str * list str) * store) :=
  match usernames with
  | [] => Ok ((created, skipped), st)
  | uid :: rest =>
      let pwd := password_prefix ++ uid in
      let* r := create_user L st uid pwd true role (stamps i) in
      let '(ok, st) := r in
      if ok
      then batch_loop L st rest password_prefix role stamps (S i)
                      (created ++ [uid]) skipped
      else batch_loop L st rest password_prefix role stamps (S i)
                      created (skipped ++ [uid])
  end.

Definition batch_create (L : lib) (st : store) (usernames : list str)
  (password_prefix role : str) (stamps : nat -> str)
  : result ((list str * list str) * store) :=
  batch_loop L st usernames password_prefix role stamps 0 [] [].

End Users.

(* ===================================================================== *)
(** * app/main.py: credentials                                             *)
(* ===================================================================== *)

Module Auth.
Import Py Users.

(** What a dependency or an endpoint gives: a value, or the
    [HTTPException] it raises. *)
Inductive http (A : Type) :=
| Respond (a : A)
| HTTPException (status_code : Z) (detail : str).
Arguments Respond {A} a.
Arguments HTTPException {A} status_code detail.

Definition MISSING_CREDENTIALS : str := [32570; 23569; 20973; 35777]%N.
Definition BAD_CREDENTIALS_FORMAT : str :=
  [20973; 35777; 26684; 24335; 38169; 35823]%N.
Definition INVALID_CREDENTIALS : str :=
  [20973; 35777; 26080; 25928; 25110; 24050; 36807; 26399]%N.
Definition ADMIN_REQUIRED : str := [38656; 35201; 31649; 29702; 21592; 26435; 38480]%N.
Definition CHANGE_PASSWORD_FIRST : str :=
  [35831; 20808; 20462; 25913; 21021; 22987; 23494; 30721]%N.
Definition WRONG_LOGIN : str :=
  [29992; 25143; 21517; 25110; 23494; 30721; 38169; 35823]%N.
Definition PASSWORD_TOO_SHORT : str :=
  [26032; 23494; 30721; 33267; 23569; 54; 20301]%N.

(** [s.split()]: the maximal runs of characters that are not white space;
    [cur] is the run being read. *)
Fixpoint split_runs (s cur : str) : list str :=
  match s with
  | [] => match cur with [] => [] | _ => [cur] end
  | c :: s' =>
      if isspace c
      then match cur with
           | [] => split_runs s' []
           | _ => cur :: split_runs s' []
           end
      else split_runs s' (cur ++ [c])
  end.
Definition split (s : str) : list str := split_runs s [].

Definition _parse_bearer_token (L : lib) (authorization : option str) : http str :=
  match authorization with
  | None | Some [] => HTTPException 401 MISSING_CREDENTIALS
  | Some a =>
      match split a with
      | [scheme; token] =>
          if negb (str_eqb (lower L scheme) (lit "bearer"))
          then HTTPException 401 BAD_CREDENTIALS_FORMAT
          else Respond token
      | _ => HTTPException 401 BAD_CREDENTIALS_FORMAT
      end
  end.

Definition _validate_admin_credentials (st : store) (token : option str)
  : http (str * str) :=
  match token with
  | None | Some [] => HTTPException 401 MISSING_CREDENTIALS
  | Some token =>
      match validate_token st token with
      | None => HTTPException 401 INVALID_CREDENTIALS
      | Some (username, role, _) =>
          if negb (str_eqb role (lit "admin"))
          then HTTPException 403 ADMIN_REQUIRED
          else Respond (username, role)
      end
  end.

Definition _require_admin (L : lib) (st : store) (authorization : option str)
  : http (str * str) :=
  match _parse_bearer_token L authorization with
  | HTTPException c d => HTTPException c d
  | Respond token => _validate_admin_credentials st (Some token)
  end.

Definition _require_user_active (L : lib) (st : store) (authorization : option str)
  : http str :=
  match _parse_bearer_token L authorization with
  | HTTPException c d => HTTPException c d
  | Respond token =>
      match validate_token st token with
      | None => HTTPException 401 INVALID_CREDENTIALS
      | Some (username, _, must_change) =>
          if must_change then HTTPException 403 CHANGE_PASSWORD_FIRST
          else Respond username
      end
  end.

Definition _require_user_allow_change (L : lib) (st : store)
  (authorization : option str) : http str :=
  match _parse_bearer_token L authorization with
  | HTTPException c d => HTTPException c d
  | Respond token =>
      match validate_token st token with
      | None => HTTPException 401 INVALID_CREDENTIALS
      | Some (username, _, _) => Respond username
      end
  end.

(** The body of a login answer. *)
Record login := {
  login_token : str;
  login_must_change_password : bool;
  login_role : str;
}.

(** [user_login]; [token] is the fresh token the store would issue. *)
Definition user_login (L : lib) (st : store) (username password token : str)
  : result (http login * store) :=
  let* r := authenticate L st username password token in
  let '((ok, token, must_change, role), st) := r in
  match ok, token with
  | true, Some (c :: t) =>
      Ok (Respond {| login_token := c :: t;
                     login_must_change_password := must_change;
                     login_role := match role with
                                   | Some (r :: ole) => r :: ole
                                   | _ => lit "student"
                                   end |}, st)
  | _, _ => Ok (HTTPException 401 WRONG_LOGIN, st)
  end.

(** [change_password], for the [user] that [_require_user_allow_change]
    let in. *)
Definition change_password (L : lib) (st : store) (new_password user : str)
  : result (http unit * store) :=
  if match new_password with [] => true | _ => false end || (len new_password <? 6)
  then Ok (HTTPException 400 PASSWORD_TOO_SHORT, st)
  else
    let* st := set_password L st user new_password in
    Ok (Respond tt, st).

End Auth.

(* ===================================================================== *)
(** * More worked inputs                                                   *)
(* ===================================================================== *)

Module Cases.
Import Py Models Loader Agents Embedding Main Samples.

(** A text file that holds ["ab"]. *)
Definition two_chars : payload :=
  {| p_name := lit "n.txt"; p_ext := []; p_content := Some (ascii_bytes "ab") |}.

(** The defaults, with the response cache switched off. *)
Definition no_cache : Settings := {|
  embedding_batch_size := 32;
  embedding_max_retries := 4;
  embedding_retry_base_delay := 0.8;
  embedding_retry_max_delay := 6.0;
  chunk_size := 700;
  chunk_overlap := 0;
  chunk_overlap_ratio := 0.12;
  settings_top_k := 4;
  min_relevance := 0.35;
  max_context_chars := 3200;
  rerank_top_n := 8;
  cache_enabled := false;
|}.

(** A Qianfan backend that answers the vector (3, 4) for every text. *)
Definition qianfan_3_4 : nat -> list str -> result qianfan_response :=
  fun _ texts =>
    Ok {| error_code := None; error_msg := []; data := map (fun _ => [3; 4]%float) texts |}.

(** The document store is down: every read raises. *)
Definition store_down : Main.world :=
  {| get_document := fun _ => raise OtherError;
     embed_rows := fun texts => Ok (length texts);
     upsert_fault := None; delete_fault := None; refs_fault := fun _ => None |}.

(** A batch that names a file the store does not hold. *)
Definition batch_missing : list entry :=
  [{| filename := lit "a.txt"; job_id := Some (lit "j1") |};
   {| filename := lit "gone.txt"; job_id := Some (lit "j3") |}].

(** A serialiser that prints nothing, and a model stream of two chunks. *)
Definition no_dumps : json -> str := fun _ => [].
Definition two_chunks : str -> list RetrievedChunk -> option Z -> list str * option exn :=
  fun _ _ _ => ([lit "an"; lit "swer"], None).

(** An empty document store with the default prefix, and a digest that
    does not look at the data. *)
Definition empty_store : Storage.store :=
  {| Storage.prefix := lit "docs"; Storage._memory_meta := ∅;
     Storage._memory_objects := ∅ |}.
Definition flat_digest : bytes -> str := fun _ => lit "h".

(** A user store with no account and no token. *)
Definition no_users : Users.store := {| Users.users := ∅; Users.tokens := ∅ |}.

(** A session store with nothing in it, and one where [u1] opened the
    session [s1]. *)
Definition no_sessions : Sessions.store :=
  {| Sessions._messages := ∅; Sessions._sessions := ∅ |}.
Definition one_session : Sessions.store :=
  snd (Sessions.create_session no_sessions (lit "u1") None (Some (lit "s1"))
                               (lit "f0") 1%float).

(** ** An upload under a name with a space in front *)

(** A digest that tells any two contents apart: the content, read as
    text. *)
Definition plain_digest : bytes -> str := map Byte.to_N.

(** What [_run_vectorize_job] reads of a stored document. *)
Definition payload_of (d : Storage.doc) : payload :=
  {| p_name := Storage.d_name d; p_ext := Storage.d_ext d;
     p_content := Storage.d_content d |}.

(** The world in which the documents are those of a store and every other
    call works, with one row of the embedding matrix for each text. *)
Definition world_of (st : Storage.store) : Main.world :=
  {| get_document := fun name =>
       let* d := Storage.get_document st name true in Ok (payload_of d);
     embed_rows := fun texts => Ok (length texts);
     upsert_fault := None; delete_fault := None; refs_fault := fun _ => None |}.

Definition saved (outcome : result (Storage.doc * Storage.store)) : Storage.store :=
  match outcome with
  | Ok (_, st) => st
  | Raise _ => empty_store
  end.

Definition nothing_indexed : state :=
  {| index := []; sink := []; vector_refs := []; total_doc_uploads := 0 |}.

Definition left_by (outcome : option (result unit * state)) : state :=
  match outcome with
  | Some (_, st) => st
  | None => nothing_indexed
  end.

(** First [b.txt] is uploaded with a text and indexed. *)
Definition first_upload : Storage.store :=
  saved (Storage.save sample_lib plain_digest empty_store (lit "b.txt")
                      (ascii_bytes "old text") None (lit "u1") 1%float).
Definition first_indexed : state :=
  left_by (_run_vectorize_job sample_lib default_settings (world_of first_upload) 10
             [{| filename := lit "b.txt"; job_id := Some (lit "j1") |}]
             nothing_indexed).

(** Then a file that holds two spaces is uploaded as [x/ b.txt]:
    [upload_docs] strips the name, which changes nothing, keeps
    [Path(filename).name], which is [" b.txt"], and passes that name to
    [save] and to the job. *)
Definition spaced_name : str := lit " b.txt".
Definition second_upload : Storage.store :=
  saved (Storage.save sample_lib plain_digest first_upload spaced_name
                      (ascii_bytes "  ") None (lit "u2") 2%float).
Definition spaced_batch : list entry :=
  [{| filename := spaced_name; job_id := Some (lit "j2") |}].

(** A hundred and one chunks of [a.txt], the last one under the
    [chunk_id] of the first. *)
Definition numbered (text : str) (i : nat) : DocumentChunk :=
  mk_chunk (lit "a-" ++ str_of_int (Z.of_nat i)) (lit "a.txt") text.
Definition two_pages : list DocumentChunk :=
  map (numbered (lit "x")) (seq 0 100) ++ [numbered (lit "y") 0].

End Cases.

(* ===================================================================== *)
(** * What the ingestion job reports                                       *)
(* ===================================================================== *)

Module Reports.
Import Py Models Loader Main.

(** What [_fail] tells the sink about a document. *)
Definition failure_report (entries : list entry) (doc_name reason : str) : report :=
  {| r_doc := doc_name; r_status := Failed; r_job_id := job_of entries doc_name;
     r_error := Some reason; r_chunk_count := None; r_note := None |}.

(** Why the first loop of the job turns a document down, if it does: the
    store has no such file, or its extension is not supported. *)
Definition rejection (L : lib) (W : world) (name : str) : option str :=
  match get_document W name with
  | Raise e =>
      match exn_cls e with
      | FileNotFoundError => Some NO_SUCH_FILE
      | _ => None
      end
  | Ok doc =>
      if negb (str_in (lower L (p_ext doc)) ALLOWED_DOC_EXTS)
      then Some (UNSUPPORTED_TYPE ++ str_or (lower L (p_ext doc)) (lit "unknown"))
      else None
  end.

(** The calls of the [except] branch, one pair per requested document. *)
Definition failure_calls (entries : list entry) (requested : list (str * payload))
  : list sink_call :=
  flat_map (fun kv => [SetStatus (failure_report entries (fst kv) INDEX_BUILD_FAILED);
                       RecordEvent (failure_report entries (fst kv) INDEX_BUILD_FAILED)])
           requested.

(** The chunks of a list whose [source] is a given document. *)
Definition chunks_of (doc_name : str) (chunks : list DocumentChunk)
  : list DocumentChunk :=
  filter (fun c => dc_source c = doc_name) chunks.

(** A source of a response, as the header of a stream lists it. *)
Definition source_json (a : SourceAttribution) : json :=
  JDict [(lit "source", JStr (sa_source a));
         (lit "snippet", JStr (sa_snippet a));
         (lit "score", JFloat (sa_score a))].

End Reports.

(* ===================================================================== *)
(** * Shapes of strings                                                    *)
(* ===================================================================== *)

Module Text.
Import Py.

(** A string that does not start with white space. *)
Definition starts_clean (s : str) : Prop :=
  match s with
  | [] => True
  | c :: _ => isspace c = false
  end.

End Text.
(* ===================================================================== *)
(** * Facts: the chunker                                                   *)
(* ===================================================================== *)

Module ChunkerFacts.
Import Py Chunker.

Lemma len_nonneg {A} (l : list A) : 0 <= len l.
Proof. unfold len. lia. Qed.

Lemma slice_bound_id n i : 0 <= i <= n -> slice_bound n i = i.
Proof.
  intros H. unfold slice_bound.
  destruct (Z.ltb_spec i 0); lia.
Qed.

Lemma len_slice {A} (l : list A) a b :
  0 <= a -> a <= b -> b <= len l -> len (slice l a b) = b - a.
Proof.
  intros Ha Hab Hb. unfold slice.
  rewrite !slice_bound_id by lia.
  unfold len in *. rewrite length_take, length_drop. lia.
Qed.

Section Chain.
Context {A : Type}.
Variables (text : list A) (s o : Z).
Hypothesis Hs : 0 < s.
Hypothesis Ho : 0 <= o < s.

Let n := len text.

Lemma chain_exists_upto (k : nat) :
  forall a, 0 <= a < n -> (Z.to_nat (n - a) <= k)%nat ->
            exists ws, window_chain n s o a ws.
Proof using Hs Ho.
  induction k as [|k IH]; intros a Ha Hk; [lia|].
  destruct (Z_lt_le_dec (a + s) n) as [Hlt|Hge].
  - destruct (IH (a + s - o)) as [ws Hws]; [lia|lia|].
    exists ((a, a + s) :: ws). now constructor.
  - exists [(a, n)]. constructor; lia.
Qed.

Lemma chain_exists a : 0 <= a < n -> exists ws, window_chain n s o a ws.
Proof using Hs Ho. intros Ha. now apply (chain_exists_upto (Z.to_nat (n - a))). Qed.

Lemma chain_length a ws :
  window_chain n s o a ws -> 0 <= a -> (length ws <= Z.to_nat (n - a))%nat.
Proof using Hs Ho.
  induction 1 as [a H1 H2|a ws Hlt Hc IH]; intros Ha; simpl.
  - lia.
  - specialize (IH ltac:(lia)). lia.
Qed.

Lemma chain_loop a ws :
  window_chain n s o a ws ->
  forall fuel chunks, (length ws <= fuel)%nat ->
    chunk_loop text s o fuel chunks a = Some (chunks ++ map (window_text text) ws).
Proof using Hs Ho.
  induction 1 as [a H1 H2|a ws Hlt Hc IH]; intros fuel chunks Hf;
    (destruct fuel as [|fuel]; [simpl in Hf; lia|]); simpl; fold n.
  - destruct (Z.ltb_spec a n); [|lia].
    rewrite Z.min_r by lia. rewrite Z.eqb_refl. reflexivity.
  - destruct (Z.ltb_spec a n); [|lia].
    rewrite Z.min_l by lia.
    destruct (Z.eqb_spec (a + s) n); [lia|].
    rewrite IH by (simpl in Hf; lia).
    rewrite <- app_assoc. reflexivity.
Qed.

Lemma chain_head a ws : window_chain n s o a ws -> exists e ws', ws = (a, e) :: ws'.
Proof using Hs Ho. destruct 1; eauto. Qed.

Lemma chain_consecutive a ws :
  window_chain n s o a ws ->
  forall (i : nat) b c d e,
    ws !! i = Some (b, c) -> ws !! S i = Some (d, e) -> d = c - o.
Proof using Hs Ho.
  induction 1 as [a H1 H2|a ws Hlt Hc IH]; intros i b c d e Hi HSi.
  - destruct i; discriminate.
  - destruct i as [|i].
    + simpl in Hi, HSi. injection Hi as <- <-.
      destruct (chain_head _ _ Hc) as (e' & ws' & ->).
      simpl in HSi. now injection HSi as <- _.
    + simpl in Hi, HSi. eauto.
Qed.

Lemma chain_windows a ws :
  window_chain n s o a ws -> 0 <= a ->
  forall b c, In (b, c) ws -> a <= b /\ b < c /\ c - b <= s /\ c <= n.
Proof using Hs Ho.
  induction 1 as [a H1 H2|a ws Hlt Hc IH]; intros Ha b c Hin.
  - destruct Hin as [[= <- <-]|[]]. lia.
  - destruct Hin as [[= <- <-]|Hin]; [lia|].
    specialize (IH ltac:(lia) _ _ Hin). lia.
Qed.

Lemma chain_last_window a ws :
  window_chain n s o a ws -> exists b, last ws = Some (b, n).
Proof using Hs Ho.
  induction 1 as [a H1 H2|a ws Hlt Hc [b IH]].
  - now exists a.
  - exists b. destruct (chain_head _ _ Hc) as (e' & ws' & ->).
    exact IH.
Qed.

Lemma chain_covers a ws :
  window_chain n s o a ws ->
  forall p, a <= p < n -> exists b c, In (b, c) ws /\ b <= p < c.
Proof using Hs Ho.
  induction 1 as [a H1 H2|a ws Hlt Hc IH]; intros p Hp.
  - exists a, n. split; [now left|lia].
  - destruct (Z_lt_le_dec p (a + s)) as [Hin|Hout].
    + exists a, (a + s). split; [now left|lia].
    + destruct (IH p ltac:(lia)) as (b & c & Hbc & Hr).
      exists b, c. split; [now right|exact Hr].
Qed.

End Chain.

(** C1.  With [0 < s] and [0 <= o < s], [chunk_text] on a non-empty text
    returns (any fuel from [len text] on is enough, so the loop terminates) the
    texts of a sequence of windows [(a, b)] = [text[a:b]] such that: the first
    window starts at 0; each next window starts exactly [o] before the end of
    the previous one; every window is non-empty, at most [s] long and inside
    the text; the last window ends at [len text]; and every position of the
    text lies in some window. *)
Theorem chunk_text_covers {A} (text : list A) (s o : Z) :
  0 < s -> 0 <= o < s -> text <> [] ->
  exists ws : list (Z * Z),
    (forall fuel, (length text <= fuel)%nat ->
       chunk_text text s o fuel = Some (map (window_text text) ws)) /\
    (exists e ws', ws = (0, e) :: ws') /\
    (forall (i : nat) a b c d,
       ws !! i = Some (a, b) -> ws !! S i = Some (c, d) -> c = b - o) /\
    (forall a b, In (a, b) ws ->
       0 <= a /\ a < b /\ b - a <= s /\ b <= len text /\
       len (window_text text (a, b)) = b - a) /\
    (exists a, last ws = Some (a, len text)) /\
    (forall p, 0 <= p < len text -> exists a b, In (a, b) ws /\ a <= p < b).
Proof.
  intros Hs Ho Hne.
  assert (Hn : 0 < len text).
  { unfold len. destruct text; [congruence|simpl; lia]. }
  destruct (chain_exists text s o Hs Ho 0) as [ws Hws]; [lia|].
  exists ws. repeat split.
  - intros fuel Hf. unfold chunk_text.
    rewrite (chain_loop text s o Hs Ho 0 ws Hws) by
      (pose proof (chain_length text s o Hs Ho 0 ws Hws); unfold len in *; lia).
    reflexivity.
  - exact (chain_head text s o Hs Ho 0 ws Hws).
  - exact (chain_consecutive text s o Hs Ho 0 ws Hws).
  - apply (chain_windows text s o Hs Ho 0 ws Hws) in H; lia.
  - apply (chain_windows text s o Hs Ho 0 ws Hws) in H; lia.
  - apply (chain_windows text s o Hs Ho 0 ws Hws) in H; lia.
  - apply (chain_windows text s o Hs Ho 0 ws Hws) in H; lia.
  - apply (chain_windows text s o Hs Ho 0 ws Hws) in H; try lia.
    unfold window_text. simpl. apply len_slice; lia.
  - exact (chain_last_window text s o Hs Ho 0 ws Hws).
  - intros p Hp. exact (chain_covers text s o Hs Ho 0 ws Hws p Hp).
Qed.

(** The theorem at [text = "abcde"], [s = 3], [o = 1]:
    the windows are [0,3) and [2,5). *)
Lemma chunk_text_covers_witness :
  exists ws : list (Z * Z),
    (forall fuel, (length (lit "abcde") <= fuel)%nat ->
       chunk_text (lit "abcde") 3 1 fuel = Some (map (window_text (lit "abcde")) ws)) /\
    (exists e ws', ws = (0, e) :: ws') /\
    (forall (i : nat) a b c d,
       ws !! i = Some (a, b) -> ws !! S i = Some (c, d) -> c = b - 1) /\
    (forall a b, In (a, b) ws ->
       0 <= a /\ a < b /\ b - a <= 3 /\ b <= len (lit "abcde") /\
       len (window_text (lit "abcde") (a, b)) = b - a) /\
    (exists a, last ws = Some (a, len (lit "abcde"))) /\
    (forall p, 0 <= p < len (lit "abcde") -> exists a b, In (a, b) ws /\ a <= p < b).
Proof.
  apply (chunk_text_covers (lit "abcde") 3 1); [lia|lia|discriminate].
Defined.

Example chunk_text_abcde :
  chunk_text (lit "abcde") 3 1 5 = Some [lit "abc"; lit "cde"].
Proof. reflexivity. Qed.

End ChunkerFacts.
(* ===================================================================== *)
(** * Facts: [RAGPipeline.retrieve] and [_build_context]                   *)
(* ===================================================================== *)

Module PipelineFacts.
Import Py Models Pipeline Samples.

Lemma slice_to_take_bound {A} (l : list A) k :
  slice_to l k = take (Z.to_nat (slice_bound (len l) k)) l.
Proof.
  unfold slice_to, slice.
  assert (H0 : slice_bound (len l) 0 = 0).
  { unfold slice_bound, len. simpl. lia. }
  rewrite H0. simpl. f_equal. lia.
Qed.

Lemma slice_to_take {A} (l : list A) k :
  0 <= k -> slice_to l k = take (Z.to_nat k) l.
Proof.
  intros Hk. rewrite slice_to_take_bound.
  unfold slice_bound. destruct (Z.ltb_spec k 0); [lia|].
  destruct (Z_le_gt_dec k (len l)).
  - now rewrite Z.min_l by lia.
  - rewrite Z.min_r by lia. unfold len in *.
    rewrite !take_ge by lia. reflexivity.
Qed.

Lemma slice_to_prefix {A} (l : list A) k : slice_to l k `prefix_of` l.
Proof. rewrite slice_to_take_bound. apply prefix_take. Qed.

(** C3.  When a reranker is configured and its [rerank] raises, [retrieve]
    returns normally, and what it returns is [hits[:k]] for the hits the
    index recalled and the effective [k = top_k or settings.top_k]: a prefix
    of the recall list, in recall order, and for [k >= 0] its first [k]
    elements. *)
Theorem retrieve_reranker_fallback (S : Settings)
  (search : str -> Z -> result (list RetrievedChunk)) (r : reranker)
  (query : str) (top_k : option Z) (hits : list RetrievedChunk) (e : exn) :
  let k := opt_int_or top_k (settings_top_k S) in
  search query (Z.max k (rerank_top_n S)) = Ok hits ->
  r query hits k = Raise e ->
  retrieve S search (Some r) query top_k = Ok (slice_to hits k) /\
  slice_to hits k `prefix_of` hits /\
  (0 <= k -> slice_to hits k = take (Z.to_nat k) hits).
Proof.
  intros k Hsearch Hraise. split; [|split].
  - unfold retrieve. fold k. rewrite Hsearch. simpl. now rewrite Hraise.
  - apply slice_to_prefix.
  - apply slice_to_take.
Qed.

(** The theorem at three recalled hits, [top_k = 2] and a reranker that
    always raises: the first two hits come back. *)
Lemma retrieve_reranker_fallback_witness :
  retrieve default_settings (fun _ _ => Ok recall3)
           (Some (fun _ _ _ => raise HTTPError)) (lit "q") (Some 2)
  = Ok (slice_to recall3 2) /\
  slice_to recall3 2 `prefix_of` recall3 /\
  (0 <= 2 -> slice_to recall3 2 = take (Z.to_nat 2) recall3).
Proof.
  apply (retrieve_reranker_fallback default_settings (fun _ _ => Ok recall3)
           (fun _ _ _ => raise HTTPError) (lit "q") (Some 2) recall3
           (Exn HTTPError [])); reflexivity.
Defined.

(** ** [_build_context] *)

Lemma len_app {A} (a b : list A) : len (a ++ b) = len a + len b.
Proof. unfold len. rewrite length_app. lia. Qed.

Lemma concat_lines_snoc chunks c :
  concat_lines (chunks ++ [c]) = concat_lines chunks ++ snippet c.
Proof.
  unfold concat_lines. rewrite map_app, concat_app. simpl.
  now rewrite app_nil_r.
Qed.

(** The loop keeps a prefix: from [done] chunks already taken, it takes the
    next ones while the summed length of the lines stays within budget. *)
Lemma context_parts_prefix max_chars (rest done : list RetrievedChunk) :
  exists n : nat,
    (length done <= n <= length (done ++ rest))%nat /\
    context_parts max_chars rest (map snippet done) (len (concat_lines done))
    = map snippet (take n (done ++ rest)) /\
    (n <> length done -> len (concat_lines (take n (done ++ rest))) <= max_chars) /\
    (forall c, (done ++ rest) !! n = Some c ->
               max_chars < len (concat_lines (take n (done ++ rest))) + len (snippet c)).
Proof.
  revert done. induction rest as [|item rest IH]; intros done.
  - exists (length done). rewrite app_nil_r. simpl.
    rewrite take_ge by lia. repeat split; try lia.
    intros c Hc. apply lookup_lt_Some in Hc. lia.
  - simpl.
    destruct (Z.ltb_spec max_chars (len (concat_lines done) + len (snippet item))) as [Hover|Hfit].
    + exists (length done). rewrite take_app_length.
      repeat split; try lia.
      * rewrite length_app. simpl. lia.
      * intros c Hc. rewrite lookup_app_r in Hc by lia.
        replace (length done - length done)%nat with 0%nat in Hc by lia.
        simpl in Hc. injection Hc as <-. exact Hover.
    + destruct (IH (done ++ [item])) as (n & Hn & Heq & Hle & Hnext).
      rewrite <- app_assoc in *. simpl in *.
      exists n. rewrite length_app in Hn. simpl in Hn.
      repeat split; try lia.
      * rewrite <- Heq. rewrite map_app, concat_lines_snoc, len_app. reflexivity.
      * intros _. destruct (decide (n = length (done ++ [item]))) as [->|Hne].
        -- replace (done ++ item :: rest) with ((done ++ [item]) ++ rest)
             by now rewrite <- app_assoc.
           rewrite take_app_length, concat_lines_snoc, len_app. lia.
        -- apply Hle. exact Hne.
      * exact Hnext.
Qed.

(** What [_build_context] returns: the lines
    ["[来源:{source}] {text}\n"] of a prefix of the chunks, in ranking order,
    joined with ["\n"]; a line is kept whole or not at all; the prefix stops
    at the first chunk whose line would take the summed length of the lines
    past [max_chars], and the summed length of the lines kept, when there
    is one, is within [max_chars]. *)
Theorem build_context_joined_prefix (chunks : list RetrievedChunk) (max_chars : Z) :
  exists n : nat,
    (n <= length chunks)%nat /\
    _build_context chunks max_chars = join [10%N] (map snippet (take n chunks)) /\
    (n <> 0%nat -> len (concat_lines (take n chunks)) <= max_chars) /\
    (forall c, chunks !! n = Some c ->
               max_chars < len (concat_lines (take n chunks)) + len (snippet c)).
Proof.
  destruct (context_parts_prefix max_chars chunks []) as (n & Hn & Heq & Hle & Hnext).
  simpl in *. exists n. unfold _build_context.
  change (len (concat_lines [])) with 0 in Heq.
  rewrite Heq. repeat split; try lia; assumption.
Qed.

(** C8.  The budget test of [_build_context] adds up the lengths of the
    lines only, and ["\n".join] then puts one more character between every
    two lines kept.  On two chunks whose lines are 9 characters each and
    [max_chars = 18] both lines pass the test, and the text returned has 19
    characters: it is longer than [max_chars], and it is the concatenation
    of the lines of no prefix of the chunks. *)
Lemma build_context_exceeds_budget :
  len (_build_context two_lines 18) = 19 /\
  ~ (exists n : nat,
       _build_context two_lines 18 = concat_lines (take n two_lines) /\
       len (_build_context two_lines 18) <= 18).
Proof.
  split; [reflexivity|].
  intros (n & _ & Hlen). vm_compute in Hlen. apply Hlen. reflexivity.
Qed.

Example build_context_two_lines :
  _build_context two_lines 18
  = snippet (hit (lit "i") (lit "a") (lit "x") 0.5) ++ [10%N]
    ++ snippet (hit (lit "j") (lit "a") (lit "y") 0.5).
Proof. reflexivity. Qed.

End PipelineFacts.

(* ===================================================================== *)
(** * Facts: [load_documents]                                              *)
(* ===================================================================== *)

Module LoaderFacts.
Import Py Models Chunker Loader Samples.

Lemma in_enumerate_from {A} (l : list A) k i x :
  In (i, x) (enumerate_from k l) -> In x l.
Proof.
  revert k. induction l as [|y l IH]; intros k; simpl; [tauto|].
  intros [Heq|H]; [left; congruence|right; eauto].
Qed.

Lemma load_one_emitted L fuel s eff doc new :
  load_one L fuel s eff doc = Some (Ok new) ->
  forall c, In c new -> emitted_from L fuel s eff doc c.
Proof.
  unfold load_one. intros H c Hc.
  destruct (p_name doc) as [|n0 name] eqn:Hname.
  { injection H as <-. destruct Hc. }
  destruct (p_content doc) as [content|] eqn:Hcontent.
  2:{ injection H as <-. destruct Hc. }
  set (ext := lower L (str_or (p_ext doc) (path_suffix L (n0 :: name)))) in *.
  destruct (str_in ext ALLOWED_DOC_EXTS); simpl in H.
  2:{ injection H as <-. destruct Hc. }
  destruct (extract_text_from_bytes L content ext) as [text|e] eqn:Htext; [|discriminate].
  destruct (strip text) as [|t0 stripped] eqn:Hstrip.
  { injection H as <-. destruct Hc. }
  destruct (chunk_text text s eff fuel) as [windows|] eqn:Hwin; [|discriminate].
  injection H as <-.
  apply in_map_iff in Hc as ([idx window] & <- & Hin).
  apply in_enumerate_from in Hin.
  exists content, text, windows, window.
  rewrite Hstrip, Hname. split; [exact Hcontent|]. split; [exact Htext|].
  split; [discriminate|]. split; [exact Hwin|]. split; [exact Hin|].
  split; reflexivity.
Qed.

Lemma load_loop_emitted L fuel s eff (P : DocumentChunk -> Prop) documents :
  forall docs result,
    (forall doc c, In doc documents -> emitted_from L fuel s eff doc c -> P c) ->
    Forall P docs ->
    load_loop L fuel s eff documents docs = Some (Ok result) ->
    Forall P result.
Proof.
  induction documents as [|doc rest IH]; intros docs result HP Hdocs H; simpl in H.
  - now injection H as <-.
  - destruct (load_one L fuel s eff doc) as [[new|e]|] eqn:Hone; try discriminate.
    apply (IH (docs ++ new) result); auto.
    + intros d c Hd. apply HP. now right.
    + apply Forall_app. split; [exact Hdocs|].
      apply List.Forall_forall. intros c Hc.
      apply (HP doc); [now left|].
      eapply load_one_emitted; eauto.
Qed.

(** What one document that is chunked appends: one chunk per window of
    its text, in order, blank windows included. *)
Lemma load_one_kept L fuel s eff doc content text new :
  p_name doc <> [] ->
  p_content doc = Some content ->
  str_in (lower L (str_or (p_ext doc) (path_suffix L (p_name doc))))
         ALLOWED_DOC_EXTS = true ->
  extract_text_from_bytes L content
    (lower L (str_or (p_ext doc) (path_suffix L (p_name doc)))) = Ok text ->
  strip text <> [] ->
  load_one L fuel s eff doc = Some (Ok new) ->
  exists windows,
    chunk_text text s eff fuel = Some windows /\
    new = map (fun iw =>
                 make_chunk (str_or (path_stem L (p_name doc))
                                    (str_or (path_name L (p_name doc)) (lit "doc")))
                            (p_name doc)
                            (lower L (str_or (p_ext doc) (path_suffix L (p_name doc))))
                            (fst iw) (snd iw))
              (enumerate windows).
Proof.
  intros Hname Hcontent Hext Htext Hstrip. unfold load_one.
  rewrite Hcontent. destruct (p_name doc) as [|n0 name]; [congruence|].
  rewrite Hext. cbn [negb]. rewrite Htext.
  destruct (strip text) as [|t0 stripped]; [congruence|].
  destruct (chunk_text text s eff fuel) as [windows|]; [|discriminate].
  intros [= <-]. now exists windows.
Qed.

(** The loop appends what each document gives, in the order of the
    documents. *)
Lemma load_loop_blocks L fuel s eff documents :
  forall docs result,
    load_loop L fuel s eff documents docs = Some (Ok result) ->
    forall doc, In doc documents ->
      exists new before after,
        load_one L fuel s eff doc = Some (Ok new) /\
        result = before ++ new ++ after.
Proof.
  induction documents as [|d rest IH]; intros docs result H doc Hdoc; [destruct Hdoc|].
  simpl in H.
  destruct (load_one L fuel s eff d) as [[new|e]|] eqn:Hone; try discriminate.
  destruct Hdoc as [->|Hdoc].
  - assert (Hgrow : forall documents docs result,
               load_loop L fuel s eff documents docs = Some (Ok result) ->
               exists after, result = docs ++ after).
    { clear. induction documents as [|d rest IH]; intros docs result H; simpl in H.
      - injection H as <-. exists []. now rewrite app_nil_r.
      - destruct (load_one L fuel s eff d) as [[new|e]|]; try discriminate.
        destruct (IH _ _ H) as [after ->]. exists (new ++ after).
        now rewrite app_assoc. }
    destruct (Hgrow _ _ _ H) as [after ->].
    exists new, docs, after. split; [exact Hone|]. now rewrite app_assoc.
  - exact (IH _ _ H doc Hdoc).
Qed.

(** C9, as the code has it.  The only test on white space in
    [load_documents] is on the whole text of a document.  Every chunk
    returned comes from a document whose whole extracted text is non-empty
    after trimming, and carries one window of that text, trimmed.  And
    every window counts: a document that has a name, bytes, a supported
    extension and a text that is not blank gives one chunk per window of
    its text, in the order of the windows and next to one another in the
    result, with the trimmed window as text; so a window of white space
    only is in the result as a chunk with empty text. *)
Theorem load_documents_chunk_origin (L : lib) (fuel : nat)
  (documents : list payload) (chunk_size overlap : Z) (overlap_ratio : float)
  (docs : list DocumentChunk) :
  load_documents L fuel documents chunk_size overlap overlap_ratio = Some (Ok docs) ->
  exists eff_overlap,
    effective_overlap chunk_size overlap overlap_ratio = Ok eff_overlap /\
    (forall c, In c docs ->
       exists doc, In doc documents /\
                   emitted_from L fuel chunk_size eff_overlap doc c) /\
    (forall doc content text,
       In doc documents ->
       p_name doc <> [] ->
       p_content doc = Some content ->
       str_in (lower L (str_or (p_ext doc) (path_suffix L (p_name doc))))
              ALLOWED_DOC_EXTS = true ->
       extract_text_from_bytes L content
         (lower L (str_or (p_ext doc) (path_suffix L (p_name doc)))) = Ok text ->
       strip text <> [] ->
       exists windows before after,
         chunk_text text chunk_size eff_overlap fuel = Some windows /\
         docs = before
                ++ map (fun iw =>
                          make_chunk
                            (str_or (path_stem L (p_name doc))
                                    (str_or (path_name L (p_name doc)) (lit "doc")))
                            (p_name doc)
                            (lower L (str_or (p_ext doc) (path_suffix L (p_name doc))))
                            (fst iw) (snd iw))
                       (enumerate windows)
                ++ after /\
         forall window, In window windows ->
           exists c, In c docs /\ dc_text c = strip window /\
                     dc_source c = p_name doc).
Proof.
  unfold load_documents. intros H.
  destruct (effective_overlap chunk_size overlap overlap_ratio) as [eff|e];
    [|discriminate].
  exists eff. split; [reflexivity|]. split.
  - apply List.Forall_forall.
    eapply load_loop_emitted; [|constructor|exact H].
    intros doc c Hdoc Hc. now exists doc.
  - intros doc content text Hdoc Hname Hcontent Hext Htext Hstrip.
    destruct (load_loop_blocks _ _ _ _ _ _ _ H doc Hdoc)
      as (new & before & after & Hone & ->).
    destruct (load_one_kept _ _ _ _ _ _ _ _ Hname Hcontent Hext Htext Hstrip Hone)
      as (windows & Hwin & ->).
    exists windows, before, after. split; [exact Hwin|]. split; [reflexivity|].
    intros window Hw.
    assert (Hiw : exists i, In (i, window) (enumerate windows)).
    { unfold enumerate. generalize 0. clear -Hw.
      induction windows as [|w ws IH]; intros k; [destruct Hw|].
      destruct Hw as [->|Hw]; [exists k; now left|].
      destruct (IH Hw (k + 1)) as [i Hi]. exists i. now right. }
    destruct Hiw as [i Hi]. eexists. split.
    + apply in_or_app. right. apply in_or_app. left.
      apply in_map_iff. exists (i, window). split; [reflexivity|exact Hi].
    + split; reflexivity.
Qed.

(** The theorem at [blank_tail], chunk size 2 and overlap 1: the three
    windows of ["a   "] give three chunks. *)
Lemma load_documents_chunk_origin_witness :
  exists eff_overlap,
    effective_overlap 2 1 0.15 = Ok eff_overlap /\
    (forall c,
       In c [make_chunk (lit "d") (lit "d.txt") (lit ".txt") 0 (lit "a ");
             make_chunk (lit "d") (lit "d.txt") (lit ".txt") 1 (lit "  ");
             make_chunk (lit "d") (lit "d.txt") (lit ".txt") 2 (lit "  ")] ->
       exists doc, In doc [blank_tail] /\
                   emitted_from sample_lib 10 2 eff_overlap doc c) /\
    (forall doc content text,
       In doc [blank_tail] ->
       p_name doc <> [] ->
       p_content doc = Some content ->
       str_in (lower sample_lib (str_or (p_ext doc) (path_suffix sample_lib (p_name doc))))
              ALLOWED_DOC_EXTS = true ->
       extract_text_from_bytes sample_lib content
         (lower sample_lib (str_or (p_ext doc) (path_suffix sample_lib (p_name doc))))
       = Ok text ->
       strip text <> [] ->
       exists windows before after,
         chunk_text text 2 eff_overlap 10 = Some windows /\
         [make_chunk (lit "d") (lit "d.txt") (lit ".txt") 0 (lit "a ");
          make_chunk (lit "d") (lit "d.txt") (lit ".txt") 1 (lit "  ");
          make_chunk (lit "d") (lit "d.txt") (lit ".txt") 2 (lit "  ")]
         = before
           ++ map (fun iw =>
                     make_chunk
                       (str_or (path_stem sample_lib (p_name doc))
                               (str_or (path_name sample_lib (p_name doc)) (lit "doc")))
                       (p_name doc)
                       (lower sample_lib
                              (str_or (p_ext doc) (path_suffix sample_lib (p_name doc))))
                       (fst iw) (snd iw))
                  (enumerate windows)
           ++ after /\
         forall window, In window windows ->
           exists c,
             In c [make_chunk (lit "d") (lit "d.txt") (lit ".txt") 0 (lit "a ");
                   make_chunk (lit "d") (lit "d.txt") (lit ".txt") 1 (lit "  ");
                   make_chunk (lit "d") (lit "d.txt") (lit ".txt") 2 (lit "  ")] /\
             dc_text c = strip window /\ dc_source c = p_name doc).
Proof.
  apply (load_documents_chunk_origin sample_lib 10 [blank_tail] 2 1 0.15).
  reflexivity.
Defined.

(** C9 as stated fails on [blank_tail]: the windows of ["a   "] at size 2
    and overlap 1 are ["a "], ["  "] and ["  "], and the last two are
    emitted as chunks with empty text. *)
Lemma load_documents_keeps_blank_chunks :
  exists docs,
    load_documents sample_lib 10 [blank_tail] 2 1 0.15 = Some (Ok docs) /\
    map dc_text docs = [lit "a"; []; []] /\
    ~ Forall (fun c => strip (dc_text c) <> []) docs.
Proof.
  eexists. split; [reflexivity|]. split; [reflexivity|].
  intros H. apply Forall_cons_1 in H as [_ H]. apply Forall_cons_1 in H as [H _].
  now apply H.
Qed.

(** What is dropped is the whole document, when its text is blank. *)
Lemma load_one_blank_document L fuel s eff doc content text :
  p_content doc = Some content ->
  extract_text_from_bytes L content
    (lower L (str_or (p_ext doc) (path_suffix L (p_name doc)))) = Ok text ->
  strip text = [] ->
  load_one L fuel s eff doc = Some (Ok []).
Proof.
  intros Hc Ht Hs. unfold load_one. rewrite Hc.
  destruct (p_name doc) eqn:Hn; [reflexivity|].
  destruct (str_in _ ALLOWED_DOC_EXTS); simpl; [|reflexivity].
  rewrite Ht, Hs. reflexivity.
Qed.

(** X5.  [load_documents] returns, with the chunks or with the exception
    of a decoder, when the chunker is given a positive size and an overlap
    below it; [len(text)] rounds of the chunker's loop are enough for each
    text. *)
Lemma load_documents_returns (L : lib) (fuel : nat) (documents : list payload)
  (chunk_size overlap : Z) (overlap_ratio : float) (eff : Z) :
  effective_overlap chunk_size overlap overlap_ratio = Ok eff ->
  0 < chunk_size -> 0 <= eff < chunk_size ->
  (forall doc content text,
     In doc documents -> p_content doc = Some content ->
     extract_text_from_bytes L content
       (lower L (str_or (p_ext doc) (path_suffix L (p_name doc)))) = Ok text ->
     (length text <= fuel)%nat) ->
  exists outcome,
    load_documents L fuel documents chunk_size overlap overlap_ratio = Some outcome.
Proof.
  intros Heff Hs Ho Hfuel. unfold load_documents. rewrite Heff.
  generalize (@nil DocumentChunk).
  induction documents as [|doc rest IH]; intros docs; simpl; [eauto|].
  assert (Hone : exists outcome, load_one L fuel chunk_size eff doc = Some outcome).
  { unfold load_one.
    destruct (p_name doc) as [|n0 name] eqn:Hname; [eauto|].
    destruct (p_content doc) as [content|] eqn:Hcontent; [|eauto].
    destruct (negb (str_in _ ALLOWED_DOC_EXTS)); [eauto|].
    destruct (extract_text_from_bytes L content _) as [text|e] eqn:Htext; [|eauto].
    destruct (strip text) as [|c0 stripped] eqn:Hstrip; [eauto|].
    assert (Hlen : 0 < len text).
    { unfold len. destruct text; [discriminate Hstrip|simpl; lia]. }
    destruct (ChunkerFacts.chain_exists text chunk_size eff Hs Ho 0) as [ws Hws]; [lia|].
    unfold chunk_text.
    rewrite (ChunkerFacts.chain_loop text chunk_size eff Hs Ho 0 ws Hws).
    - eauto.
    - pose proof (ChunkerFacts.chain_length text chunk_size eff Hs Ho 0 ws Hws).
      assert (length text <= fuel)%nat.
      { apply (Hfuel doc content text); [now left|exact Hcontent|].
        now rewrite Hname. }
      unfold len in *. lia. }
  destruct Hone as [[new|e] ->]; [|eauto].
  apply IH. intros d content text Hd. apply Hfuel. now right.
Qed.

(** The theorem at [blank_tail], chunk size 2 and overlap 1. *)
Lemma load_documents_returns_witness :
  exists outcome, load_documents sample_lib 10 [blank_tail] 2 1 0.15 = Some outcome.
Proof.
  apply (load_documents_returns sample_lib 10 [blank_tail] 2 1 0.15 1);
    [reflexivity|lia|lia|].
  intros doc content text [<-|[]] Hc Ht.
  injection Hc as <-. vm_compute in Ht. injection Ht as <-. simpl. lia.
Defined.

End LoaderFacts.

(* ===================================================================== *)
(** * Facts: the remote rerankers                                          *)
(* ===================================================================== *)

Module RerankFacts.
Import Py Models Rerank Samples.

#[local] Arguments resolve_score : simpl never.
#[local] Arguments index : simpl never.

(** C5 at a failing input.  The endpoint answers two entries, the first
    with index [-1] and the second with index [1].
    [OpenAICompatibleReranker.rerank] rejects an index only when it is
    [>= len(candidates)], so [candidates[-1]] is read (the last candidate)
    and [-1] is what enters [used]; the entry with index 1 then names the
    same candidate and passes the [used] test.  Of the two candidates, the
    second is returned twice and the first not at all. *)
Theorem openai_rerank_repeats_candidate :
  OpenAICompatible.rerank sample_lib default_settings
    (fun _ _ _ => Ok negative_index_body) (lit "q") [alpha; beta] 2
  = Ok [beta; beta] /\
  NoDup (map chunk [alpha; beta]) /\
  ~ NoDup (map chunk [beta; beta]).
Proof.
  split; [reflexivity|]. split.
  - apply NoDup_cons. split.
    + intros H. apply list_elem_of_singleton in H. discriminate H.
    + apply NoDup_singleton.
  - intros H. apply NoDup_cons in H as [H _]. apply H. left.
Qed.

(** The same answer through [QianfanReranker.rerank], whose guard is
    [0 <= idx < len(candidates)]: the entry with index [-1] is skipped and
    the result is padded with the unused first candidate. *)
Example qianfan_rerank_skips_negative_index :
  Qianfan.rerank sample_lib default_settings
    (fun _ _ _ => Ok (Qianfan.RespValue negative_index_body)) (lit "q")
    [alpha; beta] 2
  = Ok [beta; alpha].
Proof. reflexivity. Qed.

(** With more requested than recalled, the padding loop of the OpenAI
    strategy repeats the candidate as well: it tests [i in used] with
    [i = 1] while [used] holds [-1]. *)
Example openai_rerank_padding_repeats_candidate :
  OpenAICompatible.rerank sample_lib default_settings
    (fun _ _ _ => Ok (JDict [(lit "results", JList [JDict [(lit "index", JInt (-1))]])]))
    (lit "q") [alpha; beta] 5
  = Ok [beta; alpha; beta].
Proof. reflexivity. Qed.

(** ** The padding loop, for both strategies *)

Lemma len_snoc {A} (l : list A) x : len (l ++ [x]) = len l + 1.
Proof. unfold len. rewrite length_app. simpl. lia. Qed.

(** Padding appends the unused candidates in recall order, as many as are
    missing to [top_k], or all of them when fewer are left. *)
Lemma pad_spec top_k used items : forall scored,
  pad top_k used items scored
  = scored ++ map (fun p => {| chunk := chunk (snd p); score := score (snd p) |})
                  (take (Z.to_nat (top_k - len scored)) (unused used items)).
Proof.
  unfold unused.
  induction items as [|[i item] items IH]; intros scored; simpl.
  - rewrite filter_nil, take_nil. simpl. now rewrite app_nil_r.
  - destruct (Z.leb_spec top_k (len scored)) as [Hfull|Hroom].
    + replace (Z.to_nat (top_k - len scored)) with 0%nat by lia.
      simpl. now rewrite app_nil_r.
    + rewrite filter_cons. simpl.
      destruct (decide (i ∈ used)) as [Hin|Hout].
      * rewrite bool_decide_eq_true_2 by exact Hin.
        rewrite decide_False by tauto. apply IH.
      * rewrite bool_decide_eq_false_2 by exact Hout.
        rewrite decide_True by exact Hout.
        rewrite IH, len_snoc.
        replace (Z.to_nat (top_k - len scored))
          with (S (Z.to_nat (top_k - (len scored + 1)))) by lia.
        simpl. now rewrite <- app_assoc.
Qed.

(** ** [QianfanReranker] returns no candidate twice *)

Lemma index_in_range {A} (l : list A) i :
  0 <= i < len l -> exists x, index l i = Ok x /\ l !! Z.to_nat i = Some x.
Proof.
  intros [H0 Hlt]. unfold index.
  destruct (Z.ltb_spec i 0); [lia|].
  destruct (Z.ltb_spec i 0); [lia|].
  destruct (l !! Z.to_nat i) as [x|] eqn:Hx.
  - exists x. split; [|reflexivity].
    assert (Hn : nth_error l (Z.to_nat i) = Some x).
    { revert Hx. generalize (Z.to_nat i). clear.
      induction l as [|y l IH]; intros [|n]; simpl; try discriminate; auto. }
    now rewrite Hn.
  - apply lookup_ge_None in Hx. unfold len in Hlt. lia.
Qed.

Lemma enumerate_from_lookup {A} (l : list A) : forall k i x,
  In (i, x) (enumerate_from k l) ->
  k <= i /\ l !! Z.to_nat (i - k) = Some x.
Proof.
  induction l as [|y l IH]; intros k i x; simpl; [tauto|].
  intros [Heq|H].
  - injection Heq as <- <-. split; [lia|]. now rewrite Z.sub_diag.
  - apply IH in H as [Hk Hx]. split; [lia|].
    replace (Z.to_nat (i - k)) with (S (Z.to_nat (i - (k + 1)))) by lia.
    exact Hx.
Qed.

Lemma enumerate_from_NoDup {A} (l : list A) : forall k,
  NoDup (map fst (enumerate_from k l)).
Proof.
  induction l as [|y l IH]; intros k; simpl; constructor; [|apply IH].
  rewrite list_elem_of_In. intros Hin. apply in_map_iff in Hin as ([i x] & Hi & Hin).
  simpl in Hi. subst i. apply enumerate_from_lookup in Hin. lia.
Qed.

Section Qianfan.
Variables (L : lib) (top_k : Z) (candidates : list RetrievedChunk).
Variable documents : list str.

(** What the scoring loop keeps true: the result so far was picked at
    pairwise distinct positions, and [used] holds exactly these. *)
Definition distinct_picks (st : scoring) (picks : list Z) : Prop :=
  Forall2 (picked candidates) (fst st) picks /\ NoDup picks /\
  forall i, i ∈ snd st <-> i ∈ picks.

Lemma qianfan_score_entries_distinct entries : forall st picks st',
  Qianfan.score_entries L top_k candidates documents entries st = Ok st' ->
  distinct_picks st picks ->
  exists picks', distinct_picks st' picks'.
Proof.
  induction entries as [|entry rest IH]; intros [scored used] picks st' H Hinv;
    simpl in H.
  - injection H as <-. eauto.
  - destruct (Qianfan._resolve_index L entry documents) as [[idx|]|e];
      simpl in H; try discriminate; [|eauto].
    destruct ((0 <=? idx) && (idx <? len candidates)) eqn:Hrange; simpl in H;
      [|eauto].
    apply andb_true_iff in Hrange as [H0 H1].
    apply Z.leb_le in H0. apply Z.ltb_lt in H1.
    destruct (decide (idx ∈ used)) as [Hin|Hout].
    { rewrite bool_decide_eq_true_2 in H by exact Hin. eauto. }
    rewrite bool_decide_eq_false_2 in H by exact Hout.
    destruct (index_in_range candidates idx ltac:(lia)) as (cand & Hidx & Hlook).
    rewrite Hidx in H. simpl in H.
    destruct (resolve_score L Qianfan.SCORE_KEYS entry (score cand)) as [sc|e];
      simpl in H; [|discriminate].
    destruct Hinv as (Hpick & Hnd & Hused). simpl in Hpick, Hused.
    assert (Hinv' : distinct_picks
                      (scored ++ [{| chunk := chunk cand; score := sc |}],
                       {[idx]} ∪ used) (picks ++ [idx])).
    { split; [|split]; simpl.
      - apply Forall2_app; [exact Hpick|]. constructor; [|constructor].
        split; [lia|]. now exists cand.
      - apply NoDup_app. split; [exact Hnd|]. split; [|apply NoDup_singleton].
        intros x Hx Hx'. apply list_elem_of_singleton in Hx' as ->.
        apply Hout, Hused, Hx.
      - intros i. rewrite elem_of_union, elem_of_singleton, elem_of_app,
          list_elem_of_singleton, Hused. tauto. }
    destruct (top_k <=? len (scored ++ [{| chunk := chunk cand; score := sc |}])).
    + injection H as <-. eauto.
    + eauto.
Qed.

Lemma pad_distinct st picks :
  distinct_picks st picks ->
  exists picks', NoDup picks' /\
                 Forall2 (picked candidates) (pad_if_short top_k candidates st) picks'.
Proof.
  destruct st as [scored used]. intros (Hpick & Hnd & Hused). simpl in *.
  destruct (len scored <? Z.min top_k (len candidates)); [|eauto].
  rewrite pad_spec.
  set (added := take (Z.to_nat (top_k - len scored))
                     (unused used (enumerate candidates))).
  assert (Hsub : sublist added (enumerate candidates)).
  { unfold added, unused. etransitivity; [apply sublist_take|apply sublist_filter]. }
  assert (Hfresh : forall p, p ∈ added -> fst p ∉ used).
  { intros p Hp. unfold added in Hp. apply elem_of_take in Hp as (n & Hp & _).
    apply list_elem_of_lookup_2 in Hp.
    unfold unused in Hp. now apply list_elem_of_filter in Hp as [Hp _]. }
  exists (picks ++ map fst added). split.
  - apply NoDup_app. split; [exact Hnd|]. split.
    + intros i Hi Hi'. apply list_elem_of_fmap in Hi' as (p & -> & Hp).
      apply (Hfresh p Hp), Hused, Hi.
    + apply (sublist_NoDup _ (map fst (enumerate candidates)));
        [apply enumerate_from_NoDup|].
      apply fmap_sublist, Hsub.
  - apply Forall2_app; [exact Hpick|].
    assert (Hall : forall p, p ∈ added -> 0 <= fst p /\
                                candidates !! Z.to_nat (fst p) = Some (snd p)).
    { intros [i c] Hp. eapply elem_of_sublist in Hp; [|exact Hsub].
      apply list_elem_of_In, enumerate_from_lookup in Hp as [Hi Hc].
      rewrite Z.sub_0_r in Hc. simpl. split; [lia|exact Hc]. }
    clearbody added. clear Hsub Hfresh.
    induction added as [|p added IHa]; simpl; constructor.
    + destruct (Hall p ltac:(left)) as [Hi Hc].
      split; [exact Hi|]. now exists (snd p).
    + apply IHa. intros q Hq. apply Hall. now right.
Qed.

End Qianfan.

Lemma prefix_picked (hits p : list RetrievedChunk) :
  p `prefix_of` hits ->
  exists picks, NoDup picks /\ Forall2 (picked hits) p picks.
Proof.
  intros [rest ->].
  exists (map fst (enumerate p)). split; [apply enumerate_from_NoDup|].
  assert (H : forall k (done : list RetrievedChunk), 0 <= k -> len done = k ->
            Forall2 (picked (done ++ p ++ rest)) p (map fst (enumerate_from k p))).
  { induction p as [|x p IH]; intros k done Hk Hlen; simpl; constructor.
    - split; [exact Hk|]. exists x. split; [|reflexivity].
      unfold len in Hlen. rewrite lookup_app_r by lia.
      replace (Z.to_nat k - length done)%nat with 0%nat by lia. reflexivity.
    - replace (done ++ x :: p ++ rest) with ((done ++ [x]) ++ p ++ rest)
        by now rewrite <- app_assoc.
      apply IH; [lia|]. rewrite len_snoc. lia. }
  apply (H 0 []); [lia|reflexivity].
Qed.

Lemma picked_prefix (hits candidates : list RetrievedChunk) r i :
  candidates `prefix_of` hits -> picked candidates r i -> picked hits r i.
Proof.
  intros [rest ->] (Hi & c & Hc & Hr). split; [exact Hi|].
  exists c. split; [|exact Hr]. now apply lookup_app_l_Some.
Qed.

(** Every item that [QianfanReranker.rerank] returns is picked from the
    recall list, and no position is picked twice. *)
Lemma qianfan_rerank_picks (L : lib) (S : Settings)
  (client_do : str -> list str -> Z -> result Qianfan.response)
  (query : str) (hits reranked : list RetrievedChunk) (top_k : Z) :
  Qianfan.rerank L S client_do query hits top_k = Ok reranked ->
  exists picks, NoDup picks /\ Forall2 (picked hits) reranked picks.
Proof.
  intros H.
  unfold Qianfan.rerank in H. destruct hits as [|h hits'].
  { injection H as <-. exists []. split; constructor. }
  set (hits := h :: hits') in *.
  set (candidates := slice_to hits _) in *.
  assert (Hpre : candidates `prefix_of` hits)
    by apply PipelineFacts.slice_to_prefix.
  destruct (client_do query _ _) as [resp|e]; cbn [bind] in H; [|discriminate].
  destruct (Qianfan._extract_entries resp) as [|entry entries].
  - injection H as <-. apply prefix_picked.
    etransitivity; [apply PipelineFacts.slice_to_prefix|exact Hpre].
  - destruct (Qianfan.score_entries L top_k candidates _ (entry :: entries) ([], ∅))
      as [st|e] eqn:Hscore; cbn [bind] in H; [|discriminate].
    injection H as <-.
    destruct (qianfan_score_entries_distinct L top_k candidates _ _ _ [] _ Hscore)
      as (picks & Hinv).
    { split; [constructor|]. split; [constructor|].
      intros i. simpl. rewrite elem_of_empty, elem_of_nil. tauto. }
    destruct (pad_distinct top_k candidates st picks Hinv) as (picks' & Hnd & Hall).
    exists picks'. split; [exact Hnd|].
    eapply Forall2_impl; [exact Hall|].
    intros r i. now apply picked_prefix.
Qed.

(** Every item that [QianfanReranker.rerank] returns is picked from
    the recall list, at pairwise distinct positions; so the chunks returned
    are pairwise distinct when the chunks recalled are. *)
Theorem qianfan_rerank_distinct (L : lib) (S : Settings)
  (client_do : str -> list str -> Z -> result Qianfan.response)
  (query : str) (hits reranked : list RetrievedChunk) (top_k : Z) :
  Qianfan.rerank L S client_do query hits top_k = Ok reranked ->
  (exists picks, NoDup picks /\ Forall2 (picked hits) reranked picks) /\
  (NoDup (map chunk hits) -> NoDup (map chunk reranked)).
Proof.
  intros H.
  pose proof (qianfan_rerank_picks L S client_do query hits reranked top_k H)
    as Hpicks.
  split; [exact Hpicks|].
  intros Hnd. destruct Hpicks as (picks & Hpnd & Hall).
  apply NoDup_alt. intros a b x Ha Hb.
  rewrite list_lookup_fmap in Ha, Hb.
  destruct (reranked !! a) as [ra|] eqn:Hra; [|discriminate].
  destruct (reranked !! b) as [rb|] eqn:Hrb; [|discriminate].
  simpl in Ha, Hb. injection Ha as Ha. injection Hb as Hb.
  destruct (Forall2_lookup_l _ _ _ _ _ Hall Hra) as (ia & Hia & (Ha0 & ca & Hca & Hcha)).
  destruct (Forall2_lookup_l _ _ _ _ _ Hall Hrb) as (ib & Hib & (Hb0 & cb & Hcb & Hchb)).
  assert (Heq : Z.to_nat ia = Z.to_nat ib).
  { apply (proj1 (NoDup_alt _) Hnd _ _ x);
      rewrite list_lookup_fmap; [rewrite Hca|rewrite Hcb]; simpl; congruence. }
  assert (ia = ib) by lia. subst ib.
  eapply (proj1 (NoDup_alt _) Hpnd); eauto.
Qed.

(** The theorem at two candidates and the answer
    [{"results": [{"index": -1}, {"index": 1}]}]. *)
Lemma qianfan_rerank_distinct_witness :
  (exists picks, NoDup picks /\ Forall2 (picked [alpha; beta]) [beta; alpha] picks) /\
  (NoDup (map chunk [alpha; beta]) -> NoDup (map chunk [beta; alpha])).
Proof.
  apply (qianfan_rerank_distinct sample_lib default_settings
           (fun _ _ _ => Ok (Qianfan.RespValue negative_index_body)) (lit "q")
           [alpha; beta] [beta; alpha] 2).
  reflexivity.
Defined.

End RerankFacts.

(* ===================================================================== *)
(** * Facts: comparisons of floats                                         *)
(* ===================================================================== *)

Module FloatFacts.
Import Py.

Lemma SFcompare_antisym x y :
  SFcompare y x = option_map CompOpp (SFcompare x y).
Proof.
  destruct x as [sx|sx| |sx mx ex], y as [sy|sy| |sy my ey]; simpl;
    try reflexivity;
    try (destruct sx; reflexivity);
    try (destruct sy; reflexivity);
    try (destruct sx, sy; reflexivity).
  destruct sx, sy; simpl; try reflexivity.
  - rewrite (Z.compare_antisym ex ey).
    destruct (ex ?= ey)%Z; simpl; try reflexivity.
    now rewrite (Pos.compare_cont_antisym mx my Eq).
  - rewrite (Z.compare_antisym ex ey).
    destruct (ex ?= ey)%Z; simpl; try reflexivity.
    now rewrite (Pos.compare_cont_antisym mx my Eq).
Qed.

Lemma ltb_asym (a b : float) : (a <? b)%float = true -> (b <? a)%float = false.
Proof.
  rewrite !ltb_spec. unfold SFltb.
  rewrite (SFcompare_antisym (Prim2SF a) (Prim2SF b)).
  destruct (SFcompare (Prim2SF a) (Prim2SF b)) as [[]|]; simpl; congruence.
Qed.



Lemma ltb_irrefl (a : float) : (a <? a)%float = false.
Proof.
  destruct (a <? a)%float eqn:H; [|reflexivity].
  pose proof (ltb_asym a a H). congruence.
Qed.


End FloatFacts.

(* ===================================================================== *)
(** * Facts: the relevance gate and the response cache                     *)
(* ===================================================================== *)

Module AgentsFacts.
Import Py Models Agents Samples FloatFacts.




Lemma cache_key_raw_fields (r1 r2 : QueryRequest) :
  query r1 = query r2 -> top_k r1 = top_k r2 -> max_tokens r1 = max_tokens r2 ->
  cache_key_raw r1 = cache_key_raw r2.
Proof. unfold cache_key_raw. now intros -> -> ->. Qed.

(** Every path of [handle] that returns leaves the response it returns in
    the cache, under the key of the request, when caching is enabled. *)
Lemma handle_caches (L : lib) (P : prompts) (S : Settings) (W : world)
  (cache cache1 : gmap str QueryResponse) (req : QueryRequest)
  (resp : QueryResponse) (hit : bool) :
  cache_enabled S = true ->
  handle L P S W cache req = Ok (resp, hit, cache1) ->
  exists key, _cache_key L req = Ok key /\ cache1 !! key = Some resp.
Proof.
  intros Hen H. unfold handle in H.
  destruct (_cache_key L req) as [key|e] eqn:Hkey; [|discriminate].
  exists key. split; [reflexivity|]. simpl in H. rewrite Hen in H.
  destruct (cache !! key) as [cached|] eqn:Hlook.
  - now injection H as <- <- <-.
  - destruct (rag_retrieve W (query req) (top_k req)) as [hits|e]; [|discriminate].
    simpl in H.
    destruct (_apply_relevance_threshold S hits) as [filtered best].
    unfold cache_store in H. rewrite Hen in H.
    destruct filtered as [|h filtered].
    + injection H as <- <- <-. apply lookup_insert_eq.
    + destruct (match lc_rag_answer W with
                | Some lc => lc (query req)
                | None => rag_generate_answer W (query req) (h :: filtered)
                                              (max_tokens req)
                end) as [text|e]; [|discriminate].
      simpl in H. injection H as <- <- <-. apply lookup_insert_eq.
Qed.

(** C10.  The cache key is a function of the query text, [top_k] and
    [max_tokens] alone, and [handle] is what fills the cache.  With caching
    enabled, a call of [handle] that returns leaves its response in the
    cache under the key of the request: a call that found the key answers
    what the cache held and leaves the cache as it was, a call that did not
    find it computes the response and stores it under the key.  A second
    call, on any request with the same three fields, whatever its
    [session_id] and [streaming] flag and whatever the index and the model
    would now answer, returns the response the first call left, with the
    cache-hit flag true, and leaves the cache as it is. *)
Theorem cached_response_ignores_session (L : lib) (P : prompts) (S : Settings)
  (W W' : world) (cache cache1 : gmap str QueryResponse) (r1 r2 : QueryRequest)
  (resp : QueryResponse) (hit : bool) :
  cache_enabled S = true ->
  query r1 = query r2 -> top_k r1 = top_k r2 -> max_tokens r1 = max_tokens r2 ->
  handle L P S W cache r1 = Ok (resp, hit, cache1) ->
  exists key,
    _cache_key L r1 = Ok key /\ _cache_key L r2 = Ok key /\
    cache1 !! key = Some resp /\
    (hit = true -> cache !! key = Some resp /\ cache1 = cache) /\
    (hit = false -> cache !! key = None /\ cache1 = <[key := resp]> cache) /\
    handle L P S W' cache1 r2 = Ok (resp, true, cache1).
Proof.
  intros Hen Hq Hk Hm H.
  assert (Hkeys : _cache_key L r1 = _cache_key L r2).
  { unfold _cache_key. now rewrite (cache_key_raw_fields r1 r2 Hq Hk Hm). }
  destruct (handle_caches L P S W cache cache1 r1 resp hit Hen H)
    as (key & Hkey & Hlook).
  exists key. split; [exact Hkey|]. split; [now rewrite <- Hkeys|].
  split; [exact Hlook|].
  assert (Hsecond : handle L P S W' cache1 r2 = Ok (resp, true, cache1)).
  { unfold handle. rewrite <- Hkeys, Hkey. simpl. now rewrite Hen, Hlook. }
  unfold handle in H. rewrite Hkey in H. simpl in H. rewrite Hen in H.
  destruct (cache !! key) as [cached|] eqn:Hold.
  - injection H as <- <- <-.
    split; [now intros _|]. split; [discriminate|exact Hsecond].
  - split; [|split; [|exact Hsecond]].
    + intros ->. exfalso.
      destruct (rag_retrieve W (query r1) (top_k r1)) as [hits|e]; [|discriminate].
      simpl in H. destruct (_apply_relevance_threshold S hits) as [[|h filtered] best];
        [discriminate|].
      destruct (match lc_rag_answer W with
                | Some lc => lc (query r1)
                | None => rag_generate_answer W (query r1) (h :: filtered)
                                              (max_tokens r1)
                end); discriminate.
    + intros _. split; [reflexivity|].
      destruct (rag_retrieve W (query r1) (top_k r1)) as [hits|e]; [|discriminate].
      simpl in H. unfold cache_store in H. rewrite Hen in H.
      destruct (_apply_relevance_threshold S hits) as [[|h filtered] best].
      * now injection H as <- _ <-.
      * destruct (match lc_rag_answer W with
                  | Some lc => lc (query r1)
                  | None => rag_generate_answer W (query r1) (h :: filtered)
                                                (max_tokens r1)
                  end) as [text|e]; [|discriminate].
        simpl in H. now injection H as <- _ <-.
Qed.

(** The theorem at two requests that differ in session and streaming flag.
    The first is asked with an empty cache and a collection that has the
    answer: it is computed and stored.  The second is asked when retrieval
    would find nothing relevant, and gets the answer computed for the
    first. *)
Lemma cached_response_ignores_session_witness :
  exists cache1,
    handle sample_lib sample_prompts default_settings strong_world ∅
           (ask (Some (lit "s1")) false)
    = Ok (first_answer, false, cache1) /\
    exists key,
      _cache_key sample_lib (ask (Some (lit "s1")) false) = Ok key /\
      _cache_key sample_lib (ask (Some (lit "s2")) true) = Ok key /\
      cache1 !! key = Some first_answer /\
      (false = true -> (∅ : gmap str QueryResponse) !! key = Some first_answer /\
                       cache1 = ∅) /\
      (false = false -> (∅ : gmap str QueryResponse) !! key = None /\
                        cache1 = <[key := first_answer]> ∅) /\
      handle sample_lib sample_prompts default_settings weak_world cache1
             (ask (Some (lit "s2")) true)
      = Ok (first_answer, true, cache1).
Proof.
  eexists. split; [reflexivity|].
  apply (cached_response_ignores_session sample_lib sample_prompts
           default_settings strong_world weak_world ∅ _
           (ask (Some (lit "s1")) false) (ask (Some (lit "s2")) true)
           first_answer false); reflexivity.
Defined.

End AgentsFacts.

(* ===================================================================== *)
(** * Facts: [EmbeddingProvider.embed], the retry discipline               *)
(* ===================================================================== *)

Module RetryFacts.
Import Py Models Embedding Samples FloatFacts.

Lemma max_retries_pos S : 1 <= max_retries S.
Proof. unfold max_retries. lia. Qed.

Lemma max_delay_caps_base S : (max_delay S <? base_delay S)%float = false.
Proof.
  unfold max_delay, fmax at 1.
  destruct (base_delay S <? float_or (embedding_retry_max_delay S) (base_delay S))%float eqn:H.
  - now apply ltb_asym.
  - apply ltb_irrefl.
Qed.

Lemma backoff_schedule_capped n : forall base cap,
  (cap <? base)%float = false ->
  Forall (fun d => (cap <? d)%float = false) (backoff_schedule n base cap).
Proof.
  induction n as [|n IH]; intros base cap Hb; simpl; constructor; [exact Hb|].
  apply IH. unfold fmin.
  destruct (cap <? base * 2)%float eqn:H; [apply ltb_irrefl|exact H].
Qed.

(** The doubling itself: each delay after the first is twice the one
    before it, unless that is past the cap, in which case it is the cap. *)
Lemma backoff_schedule_step n : forall base cap (i : nat) d d',
  backoff_schedule n base cap !! i = Some d ->
  backoff_schedule n base cap !! S i = Some d' ->
  d' = fmin (d * 2) cap.
Proof.
  induction n as [|n IH]; intros base cap i d d' Hd Hd'; [discriminate|].
  destruct i as [|i]; simpl in *.
  - injection Hd as <-. destruct n; [discriminate|]. simpl in Hd'. congruence.
  - eauto.
Qed.

Lemma backoff_schedule_length n base cap : length (backoff_schedule n base cap) = n.
Proof. revert base. induction n; intros; simpl; auto. Qed.

Lemma backoff_schedule_snoc n : forall base cap,
  backoff_schedule (S n) base cap
  = backoff_schedule n base cap ++ [backoff_delay n base cap].
Proof.
  induction n as [|n IH]; intros base cap; [reflexivity|].
  change (backoff_schedule (S (S n)) base cap)
    with (base :: backoff_schedule (S n) (fmin (base * 2) cap) cap).
  now rewrite IH.
Qed.

Section Batch.
Variables (L : lib) (provider : nat -> list str -> result matrix).
Variables (chunk : list str) (cap : float).

Lemma transient_failures_shift c0 j e :
  provider c0 chunk = Raise e -> _is_retryable_error L e = true ->
  transient_failures L provider chunk (S c0) j ->
  transient_failures L provider chunk c0 (S j).
Proof.
  intros He Hr H [|i] Hi.
  - exists e. now rewrite Nat.add_0_r.
  - destruct (H i ltac:(lia)) as (e' & He' & Hr').
    exists e'. split; [|exact Hr'].
    now replace (c0 + S i)%nat with (S c0 + i)%nat by lia.
Qed.

Lemma batch_outcome_retry base c0 limit e u r n ds :
  provider c0 chunk = Raise e -> _is_retryable_error L e = true ->
  time_sleep L base = Ok u ->
  batch_outcome L provider chunk (fmin (base * 2) cap) cap (S c0) (limit - 1) r n ds ->
  batch_outcome L provider chunk base cap c0 limit r (S n) (base :: ds).
Proof.
  intros He Hr Hu H.
  assert (Hs : forall j, sleeps L (backoff_schedule j (fmin (base * 2) cap) cap) ->
                         sleeps L (backoff_schedule (S j) base cap)).
  { intros j Hj. constructor; [now exists u|exact Hj]. }
  destruct H as [j vecs Hj Hf Hsl Hok|j e' Hj Hf Hsl Hraise Hfatal
                 |j e' Hj Hf Hsl Hraise|j e' refused Hj Hf Hsl Hraise Hre Hrefused];
    change (base :: backoff_schedule j (fmin (base * 2) cap) cap)
      with (backoff_schedule (S j) base cap);
    replace (S c0 + j)%nat with (c0 + S j)%nat in * by lia.
  - apply batch_success; [lia|now apply (transient_failures_shift _ _ e)|auto|exact Hok].
  - apply batch_fatal;
      [lia|now apply (transient_failures_shift _ _ e)|auto|exact Hraise|exact Hfatal].
  - apply batch_exhausted;
      [lia|now apply (transient_failures_shift _ _ e)|auto|exact Hraise].
  - apply (batch_sleep_refused _ _ _ _ _ _ _ (S j) e');
      [lia|now apply (transient_failures_shift _ _ e)|auto|exact Hraise|exact Hre
      |exact Hrefused].
Qed.

(** The loop around one batch returns, and ends the way [batch_outcome]
    says, counted from the attempts and the delay it is entered with. *)
Lemma retry_loop_outcome max_retries fuel :
  forall attempt delay tr,
    0 <= attempt < max_retries ->
    (Z.to_nat (max_retries - attempt) <= fuel)%nat ->
    exists r n ds,
      retry_loop L provider chunk max_retries cap fuel attempt delay tr
      = Some (r, {| calls := calls tr + n; slept := slept tr ++ ds |}) /\
      batch_outcome L provider chunk delay cap (calls tr) (max_retries - attempt) r n ds.
Proof.
  induction fuel as [|fuel IH]; intros attempt delay tr Ha Hf; [lia|].
  simpl. destruct (provider (calls tr) chunk) as [vecs|e] eqn:Hcall.
  - exists (Ok vecs), 1%nat, []. split.
    + unfold called. now rewrite app_nil_r, Nat.add_1_r.
    + apply (batch_success _ _ _ _ _ _ _ 0%nat); [lia|intros i Hi; lia|constructor|].
      now rewrite Nat.add_0_r.
  - destruct (Z.leb_spec max_retries (attempt + 1)) as [Hlast|Hmore]; simpl.
    + exists (Raise e), 1%nat, []. split.
      * unfold called. now rewrite app_nil_r, Nat.add_1_r.
      * apply (batch_exhausted _ _ _ _ _ _ _ 0%nat);
          [lia|intros i Hi; lia|constructor|].
        now rewrite Nat.add_0_r.
    + destruct (_is_retryable_error L e) eqn:Hr; simpl.
      * destruct (time_sleep L delay) as [u|refused] eqn:Hsleep.
        -- destruct (IH (attempt + 1) (fmin (delay * 2) cap) (waited delay (called tr)))
             as (r & n & ds & Heq & Hout); [lia|lia|].
           exists r, (S n), (delay :: ds). split.
           ++ rewrite Heq. simpl. do 3 f_equal; [lia|].
              now rewrite <- app_assoc.
           ++ apply (batch_outcome_retry delay (calls tr) _ e u); auto.
              simpl in Hout.
              now replace (max_retries - attempt - 1)
                with (max_retries - (attempt + 1)) by lia.
        -- exists (Raise refused), 1%nat, []. split.
           ++ unfold called. now rewrite app_nil_r, Nat.add_1_r.
           ++ apply (batch_sleep_refused _ _ _ _ _ _ _ 0%nat e);
                [lia|intros i Hi; lia|constructor| |exact Hr|exact Hsleep].
              now rewrite Nat.add_0_r.
      * exists (Raise e), 1%nat, []. split.
        -- unfold called. now rewrite app_nil_r, Nat.add_1_r.
        -- apply (batch_fatal _ _ _ _ _ _ _ 0%nat);
             [lia|intros i Hi; lia|constructor| |exact Hr].
           now rewrite Nat.add_0_r.
Qed.

Lemma batch_outcome_calls base c0 limit r n ds :
  batch_outcome L provider chunk base cap c0 limit r n ds ->
  Z.of_nat n <= limit /\ ds = backoff_schedule (n - 1) base cap.
Proof.
  intros [j vecs Hj _ _ _|j e Hj _ _ _ _|j e Hj _ _ _|j e refused Hj _ _ _ _ _]; simpl;
    rewrite Nat.sub_0_r; split; (lia || reflexivity).
Qed.

End Batch.

Lemma embed_batches_app L S provider texts fuel (a b : list Z) :
  forall batches tr,
    embed_batches L S provider texts fuel (a ++ b) batches tr
    = match embed_batches L S provider texts fuel a batches tr with
      | Some (Ok batches', tr') => embed_batches L S provider texts fuel b batches' tr'
      | other => other
      end.
Proof.
  induction a as [|start a IH]; intros batches tr; simpl; [reflexivity|].
  destruct (retry_loop L provider _ (max_retries S) (max_delay S) fuel 0 (base_delay S) tr)
    as [[[vecs|e] tr']|]; auto.
Qed.

Lemma embed_batches_returns L S provider texts fuel :
  (Z.to_nat (max_retries S) <= fuel)%nat ->
  forall starts batches tr,
    exists r tr', embed_batches L S provider texts fuel starts batches tr = Some (r, tr').
Proof.
  intros Hf starts. induction starts as [|start rest IH]; intros batches tr; simpl.
  - eauto.
  - pose proof (max_retries_pos S).
    destruct (retry_loop_outcome L provider
                (slice texts start (start + batch_size S)) (max_delay S)
                (max_retries S) fuel 0 (base_delay S) tr)
      as (r & n & ds & -> & _); [lia|lia|].
    destruct r as [vecs|e]; eauto.
Qed.

(** C6, as the code has it.  Write [max_retries], [base_delay] and
    [max_delay] for the values [embed] derives from the settings: the
    configured retry count but at least 1, the configured base delay but at
    least 0.1 s, the configured maximum delay but at least [base_delay].
    With fuel for [max_retries] rounds:

    - the loop around any batch returns, and ends as [batch_outcome]
      describes: an error that is not retryable (no [RateLimitError], and
      none of the five keywords in the lower-cased message) comes back from
      the very call that raised it; retryable errors are retried after the
      delays [base_delay], then twice the previous delay capped at
      [max_delay], as long as [time.sleep] takes the delay; a delay that
      [time.sleep] raises on ends the loop with what it raised, and no
      further call is made; at most [max_retries] calls are made, and the
      error of the last one comes back whatever its class; no delay is
      above [max_delay];
    - [embed] returns; and when the batches before some batch were embedded
      and that batch ends in an error, [embed] ends in that error: the
      matrices already obtained are not returned. *)
Theorem embed_retry_discipline (L : lib) (S : Settings)
  (provider : nat -> list str -> result matrix) (texts : list str) (fuel : nat) :
  (Z.to_nat (max_retries S) <= fuel)%nat ->
  (forall chunk tr,
     exists r n ds,
       retry_loop L provider chunk (max_retries S) (max_delay S) fuel 0
                  (base_delay S) tr
       = Some (r, {| calls := calls tr + n; slept := slept tr ++ ds |}) /\
       batch_outcome L provider chunk (base_delay S) (max_delay S) (calls tr)
                     (max_retries S) r n ds /\
       Z.of_nat n <= max_retries S /\
       ds = backoff_schedule (n - 1) (base_delay S) (max_delay S) /\
       Forall (fun d => (max_delay S <? d)%float = false) ds) /\
  (forall tr, exists r tr', embed L S provider fuel texts tr = Some (r, tr')) /\
  (forall tr done start rest ms tr1 e tr2,
     range_step (len texts) (batch_size S) = done ++ start :: rest ->
     embed_batches L S provider texts fuel done [] tr = Some (Ok ms, tr1) ->
     retry_loop L provider (slice texts start (start + batch_size S))
                (max_retries S) (max_delay S) fuel 0 (base_delay S) tr1
     = Some (Raise e, tr2) ->
     embed L S provider fuel texts tr = Some (Raise e, tr2)).
Proof.
  intros Hf. pose proof (max_retries_pos S) as Hpos. split; [|split].
  - intros chunk tr.
    destruct (retry_loop_outcome L provider chunk (max_delay S) (max_retries S)
                fuel 0 (base_delay S) tr) as (r & n & ds & Heq & Hout); [lia|lia|].
    rewrite Z.sub_0_r in Hout.
    destruct (batch_outcome_calls _ _ _ _ _ _ _ _ _ _ Hout) as [Hn Hds].
    exists r, n, ds. repeat split; auto.
    rewrite Hds. apply backoff_schedule_capped, max_delay_caps_base.
  - intros tr. unfold embed. destruct texts as [|t texts']; [eauto|].
    destruct (embed_batches_returns L S provider (t :: texts') fuel Hf
                (range_step (len (t :: texts')) (batch_size S)) [] tr)
      as (r & tr' & ->).
    destruct r as [[|b bs]|e]; eauto.
  - intros tr done start rest ms tr1 e tr2 Hstarts Hdone Hfail.
    unfold embed. destruct texts as [|t texts'].
    { exfalso. change (range_step (len []) (batch_size S)) with
        (range_from (Z.to_nat ((0 + batch_size S - 1) / batch_size S)) 0 (batch_size S))
        in Hstarts.
      unfold batch_size in Hstarts.
      rewrite Z.div_small in Hstarts by lia. simpl in Hstarts.
      now destruct done. }
    rewrite Hstarts, embed_batches_app, Hdone. simpl. now rewrite Hfail.
Qed.

(** The theorem at the default settings and a backend that is always rate
    limited: [embed] returns. *)
Lemma embed_retry_discipline_witness :
  (Z.to_nat (max_retries default_settings) <= 4)%nat /\
  exists r tr',
    embed sample_lib default_settings always_limited 4 [lit "t"] start_trace
    = Some (r, tr').
Proof.
  split; [vm_compute; lia|].
  destruct (embed_retry_discipline sample_lib default_settings always_limited
              [lit "t"] 4) as (_ & H & _); [vm_compute; lia|].
  apply H.
Defined.

(** With the defaults (4 attempts, base 0.8 s, maximum 6 s) the run makes
    four calls, sleeps 0.8, 1.6 and 3.2 seconds between them and raises the
    last error. *)
Example embed_default_backoff :
  embed sample_lib default_settings always_limited 4 [lit "t"] start_trace
  = Some (Raise rate_limited, {| calls := 4; slept := [0.8; 1.6; 3.2]%float |}).
Proof. reflexivity. Qed.

(** C6 as stated fails at a configured base delay of 0.05 s: the first
    retry waits 0.1 s, [max(0.1, ...)] of the configured value, and the
    delays double from there. *)
Lemma embed_delay_floor :
  exists tr',
    embed sample_lib short_base always_limited 4 [lit "t"] start_trace
    = Some (Raise rate_limited, tr') /\
    slept tr' = [0.1; 0.2; 0.4]%float /\
    head (slept tr') <> Some (embedding_retry_base_delay short_base).
Proof.
  eexists. split; [reflexivity|]. split; [reflexivity|].
  simpl. intros H.
  apply (f_equal (fun o => match o with
                           | Some x => (x =? 0.1)%float
                           | None => false
                           end)) in H.
  vm_compute in H. discriminate H.
Qed.

(** The classification lower-cases the message first: an error whose
    message holds ["TPM"] is retried. *)
Example retryable_ignores_case :
  _is_retryable_error sample_lib (Exn RuntimeError (lit "TPM quota exceeded")) = true /\
  existsb (fun token => contains (lit "TPM quota exceeded") token) keywords = false.
Proof. split; reflexivity. Qed.

(** An error that is not retryable ends the run at the call that raised
    it: one call, no sleep. *)
Example embed_fatal_error_immediate :
  embed sample_lib default_settings
        (fun _ _ => Raise (Exn RuntimeError (lit "invalid api key")))
        4 [lit "t"] start_trace
  = Some (Raise (Exn RuntimeError (lit "invalid api key")),
          {| calls := 1; slept := [] |}).
Proof. reflexivity. Qed.

(** [time.sleep] refuses a delay of 1e10 s: with such a base delay the
    first retryable error is followed by no retry, and [embed] ends in the
    [OverflowError] of [time.sleep] after one call. *)
Example embed_sleep_refused :
  embed sample_lib long_wait always_limited 4 [lit "t"] start_trace
  = Some (Raise (Exn OverflowError
                     (lit "timestamp too large to convert to C _PyTime_t")),
          {| calls := 1; slept := [] |}).
Proof. reflexivity. Qed.

End RetryFacts.

(* ===================================================================== *)
(** * Facts: [EmbeddingProvider.embed], the rows of the result             *)
(* ===================================================================== *)

Module NormFacts.
Import Py Models Embedding Samples.
Local Open Scope R_scope.

(** ** Rows of zeros *)






(** ** Where the rows of the result come from *)

Lemma retry_loop_ok L provider chunk maxr cap fuel :
  forall attempt delay tr vecs tr',
    retry_loop L provider chunk maxr cap fuel attempt delay tr = Some (Ok vecs, tr') ->
    exists call, provider call chunk = Ok vecs.
Proof.
  induction fuel as [|fuel IH]; intros attempt delay tr vecs tr' H; [discriminate|].
  simpl in H. destruct (provider (calls tr) chunk) as [m|e] eqn:Hcall.
  - injection H as <- _. eauto.
  - destruct ((maxr <=? attempt + 1)%Z || negb (_is_retryable_error L e));
      [discriminate|].
    destruct (time_sleep L delay); [eauto|discriminate].
Qed.



Lemma asarray_rows vecs arr :
  asarray vecs = Ok arr -> arr = map (map f32_of_float) vecs.
Proof.
  unfold asarray. destruct vecs as [|v rest]; [discriminate|].
  match goal with |- context [forallb ?f rest] => destruct (forallb f rest) end;
    [|discriminate].
  now intros [= <-].
Qed.





(** So it does when the backend answers (1e20, 0): the square of 1e20 is
    no float32, the norm is infinite, and the row returned is a row of
    zeros. *)
Example embed_large_vector_norm :
  embed sample_lib default_settings (_embed_openai sample_lib large_backend) 4
        [lit "t"] start_trace
  = Some (Ok [[S754_zero false; S754_zero false]], {| calls := 1; slept := [] |}).
Proof. vm_compute. reflexivity. Qed.

End NormFacts.
(* ===================================================================== *)
(** * Facts: [_run_vectorize_job]                                          *)
(* ===================================================================== *)

Module MainFacts.
Import Py Models Loader Main Samples.

#[local] Arguments str_in : simpl never.
#[local] Arguments app : simpl never.

Lemma str_eqb_eq a b : str_eqb a b = true <-> a = b.
Proof. unfold str_eqb. apply bool_decide_eq_true. Qed.

Lemma str_eqb_neq a b : str_eqb a b = false <-> a <> b.
Proof. unfold str_eqb. apply bool_decide_eq_false. Qed.

(** ** Dicts *)

Lemma dict_set_keys_present {V} (d : list (str * V)) k v :
  In k (map fst d) -> map fst (dict_set d k v) = map fst d.
Proof.
  induction d as [|[k' w] d IH]; simpl; [tauto|].
  destruct (str_eqb k' k) eqn:Hk; simpl; [reflexivity|].
  apply str_eqb_neq in Hk. intros [?|Hin]; [congruence|].
  now rewrite IH.
Qed.

Lemma dict_set_keys_absent {V} (d : list (str * V)) k v :
  ~ In k (map fst d) -> map fst (dict_set d k v) = map fst d ++ [k].
Proof.
  induction d as [|[k' w] d IH]; simpl; [reflexivity|].
  destruct (str_eqb k' k) eqn:Hk; simpl.
  - apply str_eqb_eq in Hk. tauto.
  - intros Hin. rewrite IH; tauto.
Qed.

Lemma dict_set_NoDup {V} (d : list (str * V)) k v :
  NoDup (map fst d) -> NoDup (map fst (dict_set d k v)).
Proof.
  intros H. destruct (decide (k ∈ map fst d)) as [Hin|Hin];
    rewrite list_elem_of_In in Hin.
  - now rewrite dict_set_keys_present.
  - rewrite dict_set_keys_absent by exact Hin.
    apply NoDup_app. split; [exact H|]. split; [|apply NoDup_singleton].
    intros x Hx Hx'. apply list_elem_of_singleton in Hx' as ->.
    apply Hin. now apply list_elem_of_In.
Qed.

Lemma dict_set_keys_incl {V} (d : list (str * V)) k v x :
  In x (map fst (dict_set d k v)) -> In x (map fst d) \/ x = k.
Proof.
  destruct (decide (k ∈ map fst d)) as [Hin|Hin]; rewrite list_elem_of_In in Hin.
  - rewrite dict_set_keys_present by exact Hin. tauto.
  - rewrite dict_set_keys_absent by exact Hin.
    rewrite in_app_iff. simpl. intuition.
Qed.

Lemma dict_get_In {V} (d : list (str * V)) k v :
  dict_get d k = Some v -> In (k, v) d.
Proof.
  induction d as [|[k' w] d IH]; simpl; [discriminate|].
  destruct (str_eqb k' k) eqn:Hk.
  - apply str_eqb_eq in Hk as ->. intros [= ->]. now left.
  - intros H. right. auto.
Qed.

Lemma dict_get_key {V} (d : list (str * V)) k v :
  dict_get d k = Some v -> In k (map fst d).
Proof. intros H. apply dict_get_In in H. apply in_map_iff. now exists (k, v). Qed.

(** ** The first loop *)

Lemma collect_requested_keys L W entries filenames :
  forall requested st result st',
    collect_requested L W entries filenames requested st = (Ok result, st') ->
    NoDup (map fst requested) ->
    NoDup (map fst result) /\
    (forall x, In x (map fst result) -> In x (map fst requested) \/ In x filenames) /\
    index st' = index st.
Proof.
  induction filenames as [|name rest IH]; intros requested st result st' H Hnd;
    simpl in H.
  - injection H as <- <-. auto.
  - destruct (get_document W name) as [doc|e].
    + destruct (negb (str_in (lower L (p_ext doc)) ALLOWED_DOC_EXTS)).
      * apply IH in H as (H1 & H2 & H3); auto.
        split; [exact H1|]. split; [|exact H3].
        intros x Hx. destruct (H2 x Hx); [now left|right; now right].
      * apply IH in H as (H1 & H2 & H3); [|now apply dict_set_NoDup].
        split; [exact H1|]. split; [|exact H3].
        intros x Hx. destruct (H2 x Hx) as [Hin|Hin]; [|right; now right].
        apply dict_set_keys_incl in Hin as [?| ->]; [now left|right; now left].
    + destruct (exn_cls e); try discriminate.
      apply IH in H as (H1 & H2 & H3); auto.
      split; [exact H1|]. split; [|exact H3].
      intros x Hx. destruct (H2 x Hx); [now left|right; now right].
Qed.

(** ** The chunk map *)

Lemma attribute_chunk_keys m c : map fst (attribute_chunk m c) = map fst m.
Proof.
  unfold attribute_chunk. destruct (dict_get m (dc_source c)) eqn:H; [|reflexivity].
  apply dict_set_keys_present. eapply dict_get_key; eauto.
Qed.

Lemma fold_attribute_keys chunks : forall m,
  map fst (fold_left attribute_chunk chunks m) = map fst m.
Proof.
  induction chunks as [|c chunks IH]; intros m; simpl; [reflexivity|].
  now rewrite IH, attribute_chunk_keys.
Qed.

(** ** The index *)

Lemma delete_rows_gone targets rows r name :
  In name targets -> In r (delete_rows targets rows) -> document_id r <> name.
Proof.
  intros Hname Hr. unfold delete_rows in Hr.
  apply list_elem_of_In, list_elem_of_filter in Hr as [Hr _].
  intros <-. unfold str_in in Hr.
  assert (existsb (str_eqb (document_id r)) targets = true); [|congruence].
  apply existsb_exists. exists (document_id r). split; [exact Hname|].
  now apply str_eqb_eq.
Qed.

(** ** The reports *)

Lemma report_all_effect entries items : forall st,
  index (report_all entries items st) = index st /\
  sink (report_all entries items st) = sink st ++ report_calls entries items.
Proof.
  unfold report_all, report_calls.
  induction items as [|kv items IH]; intros st; cbn [fold_left flat_map].
  - now rewrite app_nil_r.
  - match goal with |- context [fold_left ?f items ?s] =>
      destruct (IH s) as [Hi Hs] end.
    rewrite Hi, Hs. unfold completion_report.
    destruct (0 <? len (snd kv)); cbn [index sink _complete record_doc_upload];
      rewrite <- app_assoc; auto.
Qed.

Lemma statuses_of_report_calls entries kv items name :
  statuses_of name (report_calls entries (kv :: items))
  = (if str_eqb (fst kv) name then [completion_report entries kv] else [])
    ++ statuses_of name (report_calls entries items).
Proof.
  unfold statuses_of, report_calls. cbn [flat_map].
  rewrite flat_map_app. cbn [flat_map r_doc completion_report].
  now rewrite !app_nil_r.
Qed.

Lemma statuses_of_absent entries items name :
  ~ In name (map fst items) -> statuses_of name (report_calls entries items) = [].
Proof.
  induction items as [|kv items IH]; intros Hn; [reflexivity|].
  rewrite statuses_of_report_calls. cbn [map In] in Hn.
  destruct (str_eqb (fst kv) name) eqn:He.
  - apply str_eqb_eq in He. tauto.
  - rewrite IH by tauto. reflexivity.
Qed.

Lemma statuses_of_reports entries items name v :
  NoDup (map fst items) -> In (name, v) items ->
  statuses_of name (report_calls entries items) = [completion_report entries (name, v)].
Proof.
  induction items as [|kv items IH]; [intros _ []|].
  intros Hnd Hin. cbn [map] in Hnd. apply NoDup_cons in Hnd as [Hk Hnd].
  rewrite list_elem_of_In in Hk. rewrite statuses_of_report_calls.
  destruct Hin as [->|Hin].
  - cbn [fst]. unfold str_eqb at 1. rewrite bool_decide_eq_true_2 by reflexivity.
    now rewrite statuses_of_absent.
  - destruct (str_eqb (fst kv) name) eqn:He.
    + apply str_eqb_eq in He. exfalso. apply Hk. rewrite He.
      apply in_map_iff. now exists (name, v).
    + rewrite IH by assumption. reflexivity.
Qed.

Lemma last_status_app calls more name r :
  statuses_of name more = [r] -> last_status (calls ++ more) name = Some r.
Proof.
  intros H. unfold last_status. fold (statuses_of name (calls ++ more)).
  unfold statuses_of in *. rewrite flat_map_app, H. apply last_snoc.
Qed.

(** ** The indexing section and the job *)

Lemma delete_documents_gone W doc_names rows rows' name r :
  delete_documents W doc_names rows = Ok rows' ->
  In name doc_names -> name <> [] ->
  In r rows' -> document_id r <> name.
Proof.
  unfold delete_documents. intros H Hin Hne Hr.
  assert (Ht : In name (filter (fun n => n <> []) doc_names)).
  { apply list_elem_of_In, list_elem_of_filter. split; [exact Hne|].
    now apply list_elem_of_In. }
  destruct (filter (fun n => n <> []) doc_names) as [|t ts] eqn:Hf; [destruct Ht|].
  destruct (delete_fault W); [discriminate|].
  injection H as <-. eapply delete_rows_gone; eauto.
Qed.

(** A section that ends without an exception has loaded the chunks, built
    the chunk map from them, and, when some document is left without
    chunks, deleted the rows of those documents from the index. *)
Lemma indexing_section_ok L S W fuel requested st0 m st1 :
  indexing_section L S W fuel requested st0 = Some (Ok m, st1) ->
  exists chunks rows1,
    m = fold_left attribute_chunk chunks
                  (map (fun kv => (fst kv, @nil DocumentChunk)) requested) /\
    match empty_documents m with
    | [] => index st1 = rows1
    | names => delete_documents W names rows1 = Ok (index st1)
    end.
Proof.
  unfold indexing_section. intros H.
  destruct (load_documents L fuel (map snd requested) (chunk_size S)
              (chunk_overlap S) (chunk_overlap_ratio S)) as [[chunks|e]|];
    try discriminate.
  set (m0 := fold_left attribute_chunk chunks
                       (map (fun kv => (fst kv, @nil DocumentChunk)) requested)) in *.
  fold (empty_documents m0) in H.
  destruct (match filter _ m0 with
            | [] => Ok (index st0)
            | _ => upsert_documents W _ (index st0)
            end) as [rows1|e]; [|discriminate].
  destruct (empty_documents m0) as [|d0 ds] eqn:Hed.
  - destruct (update_all_refs W m0 _) as [refs|e]; [|discriminate].
    injection H as <- <-. exists chunks, rows1. split; [reflexivity|].
    fold m0. now rewrite Hed.
  - destruct (delete_documents W (d0 :: ds) rows1) as [rows2|e] eqn:Hdel;
      [|discriminate].
    destruct (update_all_refs W m0 _) as [refs|e]; [|discriminate].
    injection H as <- <-. exists chunks, rows1. split; [reflexivity|].
    fold m0. rewrite Hed. exact Hdel.
Qed.

Lemma run_job_reports L S W fuel entries st requested st0 m st1 :
  collect_requested L W entries
    (map filename (filter (fun e => filename e <> []) entries)) [] st
  = (Ok requested, st0) ->
  requested <> [] ->
  indexing_section L S W fuel requested st0 = Some (Ok m, st1) ->
  _run_vectorize_job L S W fuel entries st = Some (Ok tt, report_all entries m st1).
Proof.
  intros Hreq Hne Hsec. unfold _run_vectorize_job.
  destruct (map filename (filter (fun e => filename e <> []) entries)) as [|f fs].
  { simpl in Hreq. injection Hreq as <- _. congruence. }
  rewrite Hreq. destruct requested as [|kv requested']; [congruence|].
  now rewrite Hsec.
Qed.

(** Take a batch whose first loop returns the requested documents, and
    suppose the shared indexing section ends without an exception and
    leaves the requested name [name] with an empty chunk list.  Then the
    job returns; no row of the index it leaves has [name] as its
    [document_id]; and the last status the sink was told for [name] is
    [completed], with [chunk_count] 0 and the note ["no_chunks"]. *)
Lemma empty_document_completed (L : lib) (S : Settings) (W : world) (fuel : nat)
  (entries : list entry) (st st0 st1 : state)
  (requested : list (str * payload))
  (doc_chunk_map : list (str * list DocumentChunk)) (name : str) :
  let filenames := map filename (filter (fun e => filename e <> []) entries) in
  collect_requested L W entries filenames [] st = (Ok requested, st0) ->
  indexing_section L S W fuel requested st0 = Some (Ok doc_chunk_map, st1) ->
  dict_get doc_chunk_map name = Some [] ->
  exists st',
    _run_vectorize_job L S W fuel entries st = Some (Ok tt, st') /\
    (forall r, In r (index st') -> document_id r <> name) /\
    last_status (sink st') name
    = Some {| r_doc := name; r_status := Completed;
              r_job_id := job_of entries name; r_error := None;
              r_chunk_count := Some 0; r_note := Some (lit "no_chunks") |}.
Proof.
  intros filenames Hreq Hsec Hget.
  destruct (collect_requested_keys _ _ _ _ _ _ _ _ Hreq (NoDup_nil_2))
    as (Hnd & Hkeys & _).
  destruct (indexing_section_ok _ _ _ _ _ _ _ _ Hsec)
    as (chunks & rows1 & -> & Hdel).
  set (m := fold_left attribute_chunk chunks
                      (map (fun kv => (fst kv, @nil DocumentChunk)) requested)) in *.
  assert (Hmkeys : map fst m = map fst requested).
  { unfold m. rewrite fold_attribute_keys, map_map. reflexivity. }
  assert (Hitem : In (name, []) m) by now apply dict_get_In.
  assert (Hname : name <> []).
  { assert (Hx : In name (map fst requested)).
    { rewrite <- Hmkeys. apply in_map_iff. now exists (name, []). }
    destruct (Hkeys name Hx) as [[]|Hf].
    unfold filenames in Hf. apply in_map_iff in Hf as (e & <- & He).
    now apply list_elem_of_In, list_elem_of_filter in He as [He _]. }
  exists (report_all entries m st1).
  destruct (report_all_effect entries m st1) as [Hidx Hsink].
  split; [|split].
  - apply run_job_reports with (requested := requested) (st0 := st0); auto.
    intros Heq. rewrite Heq in Hmkeys. apply map_eq_nil in Hmkeys.
    rewrite Hmkeys in Hitem. destruct Hitem.
  - intros r Hr. rewrite Hidx in Hr.
    assert (Hempty : In name (empty_documents m)).
    { unfold empty_documents. apply in_map_iff. exists (name, []).
      split; [reflexivity|].
      apply list_elem_of_In, list_elem_of_filter. split; [reflexivity|].
      now apply list_elem_of_In. }
    destruct (empty_documents m) as [|d0 ds] eqn:Hed; [destruct Hempty|].
    eapply delete_documents_gone; eauto.
  - rewrite Hsink. apply last_status_app.
    rewrite (statuses_of_reports entries m name []); auto.
    rewrite Hmkeys. exact Hnd.
Qed.

(** At [batch] in the calm world [b.txt] is completed with ["no_chunks"]
    and its stale row is gone. *)
Example empty_document_completed_calm :
  exists st',
    _run_vectorize_job sample_lib default_settings calm 10 batch before
    = Some (Ok tt, st') /\
    (forall r, In r (index st') -> document_id r <> lit "b.txt") /\
    last_status (sink st') (lit "b.txt")
    = Some {| r_doc := lit "b.txt"; r_status := Completed;
              r_job_id := job_of batch (lit "b.txt"); r_error := None;
              r_chunk_count := Some 0; r_note := Some (lit "no_chunks") |}.
Proof.
  apply (empty_document_completed sample_lib default_settings calm 10 batch
           before before
           {| index := [row_of (make_chunk (lit "a") (lit "a.txt") (lit ".txt") 0 (lit "x"))];
              sink := [];
              vector_refs := [(lit "a.txt", [lit "a-0"]); (lit "b.txt", [])];
              total_doc_uploads := 0 |}
           [(lit "a.txt", doc_a); (lit "b.txt", doc_b)]
           batch_chunks (lit "b.txt")); reflexivity.
Qed.

(** On the same batch, when the upsert of [a.txt] raises, the exception of
    the shared section fails every document: [b.txt] yields no chunk, the
    job reports it as failed, and the stale row of [b.txt] stays in the
    index. *)
Example batch_failure_fails_empty_document :
  load_documents sample_lib 10 [doc_b] (chunk_size default_settings)
                 (chunk_overlap default_settings)
                 (chunk_overlap_ratio default_settings) = Some (Ok []) /\
  exists st',
    _run_vectorize_job sample_lib default_settings throttled 10 batch before
    = Some (Ok tt, st') /\
    In stale (index st') /\
    document_id stale = lit "b.txt" /\
    last_status (sink st') (lit "b.txt")
    = Some {| r_doc := lit "b.txt"; r_status := Failed;
              r_job_id := Some (lit "j2"); r_error := Some INDEX_BUILD_FAILED;
              r_chunk_count := None; r_note := None |}.
Proof.
  split; [reflexivity|].
  eexists. split; [reflexivity|]. split; [now left|]. split; reflexivity.
Qed.

(** C2.  A document that yields no chunk, whose index entries stay.
    [b.txt] was uploaded with a text and indexed: the index holds its one
    chunk.  Then a file of two spaces is uploaded as [x/ b.txt]:
    [upload_docs] hands [" b.txt"] to [save], which stores the file as
    [b.txt] in place of the text, and to the job.  The job finds the
    document under [" b.txt"], loads no chunk from it and reports
    [" b.txt"] as completed with the note ["no_chunks"]; but it deletes the
    rows of [" b.txt"], and the row of the text that [b.txt] held before
    is still in the index. *)
Theorem spaced_upload_keeps_stale_rows :
  let old := make_chunk (lit "b") (lit "b.txt") (lit ".txt") 0 (lit "old text") in
  let doc := {| p_name := lit "b.txt"; p_ext := lit ".txt";
                p_content := Some (ascii_bytes "  ") |} in
  index Cases.first_indexed = [row_of old] /\
  get_document (Cases.world_of Cases.second_upload) Cases.spaced_name = Ok doc /\
  get_document (Cases.world_of Cases.second_upload) (lit "b.txt") = Ok doc /\
  load_documents sample_lib 10 [doc] (chunk_size default_settings)
                 (chunk_overlap default_settings)
                 (chunk_overlap_ratio default_settings) = Some (Ok []) /\
  exists st',
    _run_vectorize_job sample_lib default_settings
                       (Cases.world_of Cases.second_upload) 10 Cases.spaced_batch
                       Cases.first_indexed
    = Some (Ok tt, st') /\
    index st' = [row_of old] /\
    document_id (row_of old) = lit "b.txt" /\
    last_status (sink st') Cases.spaced_name
    = Some {| r_doc := Cases.spaced_name; r_status := Completed;
              r_job_id := Some (lit "j2"); r_error := None;
              r_chunk_count := Some 0; r_note := Some (lit "no_chunks") |}.
Proof.
  cbv zeta. split; [vm_compute; reflexivity|].
  split; [vm_compute; reflexivity|]. split; [vm_compute; reflexivity|].
  split; [vm_compute; reflexivity|].
  eexists. split; [vm_compute; reflexivity|].
  split; [reflexivity|]. split; vm_compute; reflexivity.
Qed.

End MainFacts.


(* ===================================================================== *)
(** * Facts: [str.strip] and [in] on strings                               *)
(* ===================================================================== *)

Module StrFacts.
Import Py Text.

Lemma lstrip_suffix (s : str) :
  exists pre, s = pre ++ lstrip s /\ Forall (fun c => isspace c = true) pre.
Proof.
  induction s as [|c s IH]; [exists []; split; [reflexivity|constructor]|].
  simpl. destruct (isspace c) eqn:Hc.
  - destruct IH as (pre & Heq & Hpre). exists (c :: pre). split.
    + simpl. now rewrite <- Heq.
    + now constructor.
  - exists []. split; [reflexivity|constructor].
Qed.

Lemma lstrip_clean (s : str) : starts_clean (lstrip s).
Proof.
  induction s as [|c s IH]; simpl; [exact I|].
  destruct (isspace c) eqn:Hc; [exact IH|exact Hc].
Qed.

Lemma lstrip_fixed (s : str) : starts_clean s -> lstrip s = s.
Proof. destruct s as [|c s]; simpl; [reflexivity|]. now intros ->. Qed.

Lemma rstrip_prefix (s : str) : exists post, s = rstrip s ++ post.
Proof.
  unfold rstrip. destruct (lstrip_suffix (rev s)) as (pre & Heq & _).
  exists (rev pre). rewrite <- rev_app_distr, <- Heq. now rewrite rev_involutive.
Qed.

Lemma rstrip_idem (s : str) : rstrip (rstrip s) = rstrip s.
Proof.
  unfold rstrip. rewrite rev_involutive.
  now rewrite (lstrip_fixed _ (lstrip_clean (rev s))).
Qed.

Lemma rstrip_clean (s : str) : starts_clean s -> starts_clean (rstrip s).
Proof.
  intros Hs. destruct (rstrip_prefix s) as [post Heq].
  destruct (rstrip s) as [|c r]; [exact I|].
  rewrite Heq in Hs. exact Hs.
Qed.

Lemma strip_clean (s : str) : starts_clean (strip s).
Proof. apply rstrip_clean, lstrip_clean. Qed.

Lemma strip_idem (s : str) : strip (strip s) = strip s.
Proof.
  unfold strip at 1. rewrite (lstrip_fixed _ (strip_clean s)).
  unfold strip. apply rstrip_idem.
Qed.

(** [strip s] sits inside [s]. *)
Lemma strip_infix (s : str) : exists pre post, s = pre ++ strip s ++ post.
Proof.
  destruct (lstrip_suffix s) as (pre & Hpre & _).
  destruct (rstrip_prefix (lstrip s)) as [post Hpost].
  exists pre, post. unfold strip. now rewrite <- Hpost.
Qed.

Lemma is_prefix_spec (p s : str) :
  is_prefix p s = true <-> exists post, s = p ++ post.
Proof.
  revert s. induction p as [|a p IH]; intros s; simpl.
  - split; [intros _; now exists s|reflexivity].
  - destruct s as [|b s].
    + split; [discriminate|intros [post H]; discriminate H].
    + rewrite andb_true_iff, IH, N.eqb_eq. split.
      * intros [-> [post ->]]. now exists post.
      * intros [post [= -> ->]]. split; [reflexivity|now exists post].
Qed.

Lemma contains_spec (s tok : str) :
  contains s tok = true <-> exists pre post, s = pre ++ tok ++ post.
Proof.
  induction s as [|c s IH]; simpl.
  - rewrite orb_false_r, is_prefix_spec. split.
    + intros [post H]. now exists [], post.
    + intros (pre & post & H). destruct pre; [now exists post|discriminate H].
  - rewrite orb_true_iff, is_prefix_spec, IH. split.
    + intros [[post H]|(pre & post & ->)].
      * now exists [], post.
      * now exists (c :: pre), post.
    + intros (pre & post & H). destruct pre as [|c' pre].
      * left. now exists post.
      * right. injection H as -> ->. now exists pre, post.
Qed.

Lemma contains_infix (s mid pre post tok : str) :
  s = pre ++ mid ++ post -> contains mid tok = true -> contains s tok = true.
Proof.
  intros -> H. apply contains_spec in H as (a & b & ->).
  apply contains_spec. exists (pre ++ a), (b ++ post).
  now rewrite <- !app_assoc.
Qed.

End StrFacts.

(* ===================================================================== *)
(** * Facts: when the chunker returns, and what it returns                 *)
(* ===================================================================== *)

Module ChunkerBounds.
Import Py Chunker ChunkerFacts.

(** Once [start] is at or below 0 with [overlap >= chunk_size] and a text
    longer than one chunk, every round ends before [len text] and steps
    back to a start at or below 0. *)
Lemma chunk_loop_stuck {A} (text : list A) (s o : Z) :
  s <= o -> s < len text -> 0 < len text ->
  forall fuel chunks start,
    start <= 0 -> chunk_loop text s o fuel chunks start = None.
Proof.
  intros Hso Hs Hn. induction fuel as [|fuel IH]; intros chunks start Hstart;
    [reflexivity|].
  simpl. destruct (Z.ltb_spec start (len text)); [|lia].
  destruct (Z.eqb_spec (Z.min (start + s) (len text)) (len text)); [lia|].
  apply IH. lia.
Qed.

(** With [overlap < chunk_size] every round moves [start] forward, so the
    loop is over after at most [len text] rounds. *)
Lemma chunk_loop_returns {A} (text : list A) (s o : Z) :
  o < s ->
  forall fuel chunks start,
    0 <= start -> (Z.to_nat (len text - start) < fuel)%nat ->
    exists cs, chunk_loop text s o fuel chunks start = Some cs.
Proof.
  intros Hos. induction fuel as [|fuel IH]; intros chunks start H0 Hf; [lia|].
  simpl. destruct (Z.ltb_spec start (len text)); [|eauto].
  destruct (Z.eqb_spec (Z.min (start + s) (len text)) (len text)); [eauto|].
  apply IH; lia.
Qed.

(** X1.  [chunk_text] returns exactly when the text is empty, or the
    overlap is below the chunk size, or the text fits in one chunk; then
    [len(text) + 1] rounds are enough.  In every other case, that is a
    non-empty text longer than [chunk_size] with [overlap >= chunk_size],
    the [while] loop never ends, whatever the number of rounds. *)
Theorem chunk_text_returns_iff {A} (text : list A) (s o : Z) :
  ((exists cs, chunk_text text s o (S (length text)) = Some cs) <->
   (text = [] \/ o < s \/ len text <= s)) /\
  ((exists fuel cs, chunk_text text s o fuel = Some cs) ->
   (text = [] \/ o < s \/ len text <= s)).
Proof.
  assert (Hstuck : forall fuel cs, chunk_text text s o fuel = Some cs ->
                                   text = [] \/ o < s \/ len text <= s).
  { intros fuel cs H.
    destruct text as [|x text']; [now left|right].
    destruct (Z_lt_le_dec o s); [now left|].
    destruct (Z_le_gt_dec (len (x :: text')) s); [now right|].
    unfold chunk_text in H.
    rewrite chunk_loop_stuck in H; [discriminate|lia|lia|unfold len; simpl; lia|lia]. }
  split; [split|].
  - intros [cs H]. eauto.
  - intros [->|[Hos|Hfit]].
    + simpl. eauto.
    + apply chunk_loop_returns; [exact Hos|lia|unfold len; lia].
    + unfold chunk_text. simpl.
      destruct (Z.ltb_spec 0 (len text)); [|eauto].
      rewrite Z.min_r by lia. rewrite Z.eqb_refl. eauto.
  - intros (fuel & cs & H). eauto.
Qed.

(** An instance of the loop that does not end: chunk size 2, overlap 2,
    on ["abc"]. *)
Example chunk_text_equal_overlap_stuck :
  forall fuel, chunk_text (lit "abc") 2 2 fuel = None.
Proof.
  intros fuel. unfold chunk_text. apply chunk_loop_stuck; [lia| | |lia]; vm_compute; reflexivity.
Qed.

(** ** The windows in closed form *)

Section ClosedForm.
Context {A : Type}.
Variables (text : list A) (s o : Z).
Hypothesis Hs : 0 < s.
Hypothesis Ho : 0 <= o < s.

Lemma chain_count a ws :
  window_chain (len text) s o a ws ->
  Z.of_nat (length ws) = (Z.max 0 (len text - a - s) + (s - o) - 1) / (s - o) + 1.
Proof using Hs Ho.
  induction 1 as [a H1 H2|a ws Hlt Hc IH].
  - simpl length. rewrite Z.max_l by lia. rewrite Z.div_small by lia. lia.
  - simpl length. rewrite Nat2Z.inj_succ, IH. clear IH Hc.
    set (m := len text - a - s). set (d := s - o).
    replace (len text - (a + s - o) - s) with (m - d) by (unfold m, d; lia).
    assert (Hm : 0 < m) by (unfold m; lia).
    assert (Hd : 0 < d) by (unfold d; lia).
    rewrite (Z.max_r 0 m) by lia.
    replace (m + d - 1) with (m - 1 + 1 * d) by lia.
    rewrite Z.div_add by lia.
    destruct (Z_lt_le_dec m d).
    + rewrite Z.max_l by lia.
      rewrite (Z.div_small (0 + d - 1)) by lia.
      rewrite (Z.div_small (m - 1)) by lia. lia.
    + rewrite Z.max_r by lia.
      replace (m - d + d - 1) with (m - 1) by lia. lia.
Qed.

Lemma slice_past_end a : len text <= a + s -> slice text a (len text) = slice text a (a + s).
Proof using Hs.
  intros H. unfold slice. f_equal. f_equal. f_equal.
  unfold slice_bound. pose proof (len_nonneg text).
  destruct (Z.ltb_spec (len text) 0), (Z.ltb_spec (a + s) 0); lia.
Qed.

Lemma chain_closed a ws :
  window_chain (len text) s o a ws ->
  map (window_text text) ws
  = map (fun i : nat => slice text (a + Z.of_nat i * (s - o))
                                   (a + Z.of_nat i * (s - o) + s))
        (seq 0 (length ws)).
Proof using Hs Ho.
  induction 1 as [a H1 H2|a ws Hlt Hc IH].
  - simpl. unfold window_text. simpl. rewrite Z.add_0_r.
    now rewrite slice_past_end by lia.
  - simpl length. cbn [seq map]. f_equal.
    + unfold window_text. simpl. now rewrite Z.add_0_r.
    + rewrite IH, <- seq_shift, map_map. apply map_ext. intros i.
      f_equal; lia.
Qed.

End ClosedForm.

(** X2.  For [0 <= overlap < chunk_size] and a non-empty text,
    [chunk_text] returns
    [[text[i*d : i*d + chunk_size] for i in range(count)]] with the stride
    [d = chunk_size - overlap] and
    [count = ceil(max(0, len(text) - chunk_size) / d) + 1]. *)
Theorem chunk_text_closed_form {A} (text : list A) (s o : Z) (fuel : nat) :
  0 <= o < s -> text <> [] -> (length text <= fuel)%nat ->
  chunk_text text s o fuel
  = Some (map (fun i : nat => slice text (Z.of_nat i * (s - o))
                                         (Z.of_nat i * (s - o) + s))
              (seq 0 (Z.to_nat ((Z.max 0 (len text - s) + (s - o) - 1) / (s - o) + 1)))).
Proof.
  intros Ho Hne Hf.
  assert (Hs : 0 < s) by lia.
  assert (Hn : 0 < len text).
  { unfold len. destruct text; [congruence|simpl; lia]. }
  destruct (chain_exists text s o Hs Ho 0) as [ws Hws]; [lia|].
  unfold chunk_text.
  rewrite (chain_loop text s o Hs Ho 0 ws Hws) by
    (pose proof (chain_length text s o Hs Ho 0 ws Hws); unfold len in *; lia).
  rewrite (chain_closed text s o Hs Ho 0 ws Hws).
  pose proof (chain_count text s o Hs Ho 0 ws Hws) as Hc.
  rewrite Z.sub_0_r in Hc. rewrite <- Hc, Nat2Z.id. reflexivity.
Qed.

(** The theorem at ["abcdefgh"], chunk size 4 and overlap 1: three windows
    at stride 3. *)
Lemma chunk_text_closed_form_witness :
  chunk_text (lit "abcdefgh") 4 1 8
  = Some (map (fun i : nat => slice (lit "abcdefgh") (Z.of_nat i * (4 - 1))
                                    (Z.of_nat i * (4 - 1) + 4))
              (seq 0 (Z.to_nat ((Z.max 0 (len (lit "abcdefgh") - 4) + (4 - 1) - 1)
                                / (4 - 1) + 1)))).
Proof.
  apply (chunk_text_closed_form (lit "abcdefgh") 4 1 8); [lia|discriminate|simpl; lia].
Defined.

Example chunk_text_abcdefgh :
  chunk_text (lit "abcdefgh") 4 1 8 = Some [lit "abcd"; lit "defg"; lit "gh"].
Proof. reflexivity. Qed.

End ChunkerBounds.

(* ===================================================================== *)
(** * Facts: [load_documents], chunk sizes and chunk ids                   *)
(* ===================================================================== *)

Module LoaderBounds.
Import Py Models Chunker Loader Samples Cases.

(** The overlap that [load_documents] hands to the chunker is at least 1
    whenever the configured overlap is not positive. *)
Lemma effective_overlap_floor chunk_size overlap ratio eff :
  effective_overlap chunk_size overlap ratio = Ok eff ->
  overlap <= 0 -> 1 <= eff.
Proof.
  unfold effective_overlap. destruct (Z.ltb_spec 0 overlap); [lia|].
  destruct (float_of_int chunk_size) as [size|e]; simpl; [|discriminate].
  destruct (int_of_float (size * ratio)) as [n|e]; simpl; [|discriminate].
  intros [= <-] _. lia.
Qed.

Lemma load_one_stuck L fuel chunk_size eff doc content text :
  chunk_size <= eff ->
  p_name doc <> [] -> p_content doc = Some content ->
  str_in (lower L (str_or (p_ext doc) (path_suffix L (p_name doc))))
         ALLOWED_DOC_EXTS = true ->
  extract_text_from_bytes L content
    (lower L (str_or (p_ext doc) (path_suffix L (p_name doc)))) = Ok text ->
  strip text <> [] -> chunk_size < len text ->
  load_one L fuel chunk_size eff doc = None.
Proof.
  intros Heff Hname Hcontent Hext Htext Hstrip Hlong. unfold load_one.
  assert (Hlen : 0 < len text).
  { unfold len. destruct text; [now contradiction Hstrip|simpl; lia]. }
  destruct (p_name doc) as [|n0 name] eqn:Hn; [congruence|].
  rewrite Hcontent, Hext. simpl. rewrite Htext.
  destruct (strip text) as [|c0 stripped]; [congruence|].
  unfold chunk_text.
  rewrite ChunkerBounds.chunk_loop_stuck; [reflexivity|lia|lia|lia|lia].
Qed.

Lemma load_loop_stuck L fuel chunk_size eff doc documents :
  In doc documents ->
  load_one L fuel chunk_size eff doc = None ->
  forall docs,
    load_loop L fuel chunk_size eff documents docs = None \/
    exists e, load_loop L fuel chunk_size eff documents docs = Some (Raise e).
Proof.
  intros Hin Hone. induction documents as [|d rest IH]; [destruct Hin|].
  intros docs. simpl.
  destruct (load_one L fuel chunk_size eff d) as [[new|e]|] eqn:Hd.
  - destruct Hin as [->|Hin]; [congruence|]. now apply IH.
  - right. eauto.
  - now left.
Qed.

(** X3.  When the overlap that [load_documents] computes is not below the
    chunk size (as for [chunk_size = 1], where it is [max(1, ...)]), a batch
    that holds one supported document with a non-blank text longer than
    [chunk_size] yields no chunk list: either the chunker loops for ever, or
    the decoder of an earlier document raised. *)
Theorem load_documents_stuck (L : lib) (fuel : nat) (documents : list payload)
  (chunk_size overlap : Z) (overlap_ratio : float) (eff : Z)
  (doc : payload) (content : bytes) (text : str) :
  effective_overlap chunk_size overlap overlap_ratio = Ok eff ->
  chunk_size <= eff ->
  In doc documents ->
  p_name doc <> [] -> p_content doc = Some content ->
  str_in (lower L (str_or (p_ext doc) (path_suffix L (p_name doc))))
         ALLOWED_DOC_EXTS = true ->
  extract_text_from_bytes L content
    (lower L (str_or (p_ext doc) (path_suffix L (p_name doc)))) = Ok text ->
  strip text <> [] -> chunk_size < len text ->
  load_documents L fuel documents chunk_size overlap overlap_ratio = None \/
  exists e,
    load_documents L fuel documents chunk_size overlap overlap_ratio = Some (Raise e).
Proof.
  intros Heff Hle Hin Hname Hcontent Hext Htext Hstrip Hlong.
  unfold load_documents. rewrite Heff.
  apply (load_loop_stuck L fuel chunk_size eff doc); [exact Hin|].
  eapply load_one_stuck; eauto.
Qed.

(** The theorem at chunk size 1 and no configured overlap, where the
    overlap used is 1, on a file that holds ["ab"]. *)
Lemma load_documents_stuck_witness :
  load_documents sample_lib 50 [two_chars] 1 0 0.12 = None \/
  exists e, load_documents sample_lib 50 [two_chars] 1 0 0.12 = Some (Raise e).
Proof.
  apply (load_documents_stuck sample_lib 50 [two_chars] 1 0 0.12 1 two_chars
           (ascii_bytes "ab") (lit "ab"));
    try reflexivity; try discriminate; try lia.
  now left.
Defined.

(** ** Chunk ids *)

Lemma lit_inj (a b : String.string) : lit a = lit b -> a = b.
Proof.
  unfold lit. intros H.
  rewrite <- (string_of_list_ascii_of_string a), <- (string_of_list_ascii_of_string b).
  f_equal. revert H.
  generalize (list_ascii_of_string a) (list_ascii_of_string b).
  induction l as [|x l IH]; intros [|y l']; simpl; try discriminate; [reflexivity|].
  intros [= Hxy Hl]. f_equal; [|now apply IH].
  rewrite <- (ascii_N_embedding x), <- (ascii_N_embedding y). now rewrite Hxy.
Qed.

Lemma to_int_not_nil z :
  Z.to_int z <> Decimal.Pos Decimal.Nil /\ Z.to_int z <> Decimal.Neg Decimal.Nil.
Proof.
  split; intros H; pose proof (f_equal Z.of_int H) as Hz;
    rewrite DecimalZ.of_to in Hz; simpl in Hz; subst z; discriminate H.
Qed.

Lemma str_of_int_inj a b : str_of_int a = str_of_int b -> a = b.
Proof.
  unfold str_of_int. intros H. apply lit_inj in H.
  apply DecimalZ.to_int_inj.
  destruct (to_int_not_nil a) as [Ha1 Ha2], (to_int_not_nil b) as [Hb1 Hb2].
  pose proof (NilZero.isi (Z.to_int a) Ha1 Ha2) as Ia.
  pose proof (NilZero.isi (Z.to_int b) Hb1 Hb2) as Ib.
  rewrite H in Ia. congruence.
Qed.

Lemma enumerate_from_lookup_nat {A} (l : list A) : forall k (i : nat),
  enumerate_from k l !! i = option_map (fun x => (k + Z.of_nat i, x)) (l !! i).
Proof.
  induction l as [|y l IH]; intros k [|i]; simpl; try reflexivity.
  - now rewrite Z.add_0_r.
  - rewrite IH. destruct (l !! i); simpl; [|reflexivity].
    do 2 f_equal. lia.
Qed.

(** X4.  The chunks that one document contributes carry the ids
    [f"{base_id}-{idx}"] with [idx] counting the windows from 0, in order,
    the same [idx] under ["chunk_id"] in the metadata, and the document's
    name as source; so the ids of one document are pairwise distinct. *)
Theorem load_one_chunk_ids (L : lib) (fuel : nat) (chunk_size eff : Z)
  (doc : payload) (new : list DocumentChunk) :
  load_one L fuel chunk_size eff doc = Some (Ok new) ->
  (forall (i : nat) c, new !! i = Some c ->
     dc_id c = str_or (path_stem L (p_name doc))
                      (str_or (path_name L (p_name doc)) (lit "doc"))
               ++ lit "-" ++ str_of_int (Z.of_nat i) /\
     dict_get (dc_metadata c) (lit "chunk_id") = Some (JInt (Z.of_nat i)) /\
     dc_source c = p_name doc) /\
  NoDup (map dc_id new).
Proof.
  intros H.
  assert (Hshape : new = [] \/
            exists windows ext,
              new = map (fun iw => make_chunk
                                     (str_or (path_stem L (p_name doc))
                                        (str_or (path_name L (p_name doc)) (lit "doc")))
                                     (p_name doc) ext (fst iw) (snd iw))
                        (enumerate windows)).
  { unfold load_one in H.
    destruct (p_name doc) as [|n0 name] eqn:Hname; [left; congruence|].
    destruct (p_content doc) as [content|]; [|left; congruence].
    destruct (negb (str_in _ ALLOWED_DOC_EXTS)); [left; congruence|].
    destruct (extract_text_from_bytes L content _) as [text|e]; [|discriminate].
    destruct (strip text); [left; congruence|].
    destruct (chunk_text text chunk_size eff fuel) as [windows|]; [|discriminate].
    right. injection H as <-. eauto. }
  destruct Hshape as [->|(windows & ext & ->)].
  { split; [intros i c Hc; destruct i; discriminate|constructor]. }
  assert (Hlook : forall (i : nat) c,
            map (fun iw => make_chunk
                             (str_or (path_stem L (p_name doc))
                                (str_or (path_name L (p_name doc)) (lit "doc")))
                             (p_name doc) ext (fst iw) (snd iw))
                (enumerate windows) !! i = Some c ->
            exists w, c = make_chunk
                            (str_or (path_stem L (p_name doc))
                               (str_or (path_name L (p_name doc)) (lit "doc")))
                            (p_name doc) ext (Z.of_nat i) w).
  { intros i c Hc. rewrite list_lookup_fmap in Hc.
    unfold enumerate in Hc. rewrite enumerate_from_lookup_nat in Hc.
    destruct (windows !! i) as [w|]; [|discriminate].
    simpl in Hc. injection Hc as <-. now exists w. }
  split.
  - intros i c Hc. destruct (Hlook i c Hc) as [w ->]. repeat split.
  - apply NoDup_alt. intros i j x Hi Hj.
    rewrite list_lookup_fmap in Hi, Hj.
    destruct (_ !! i) as [ci|] eqn:Hci; [|discriminate].
    destruct (_ !! j) as [cj|] eqn:Hcj; [|discriminate].
    destruct (Hlook i ci Hci) as [wi ->], (Hlook j cj Hcj) as [wj ->].
    simpl in Hi, Hj. injection Hi as Hi. injection Hj as Hj.
    rewrite <- Hj in Hi. apply app_inv_head in Hi.
    injection Hi as Hi. apply str_of_int_inj in Hi. lia.
Qed.

(** The theorem at [blank_tail], chunk size 2 and overlap 1: three chunks,
    [d-0], [d-1] and [d-2]. *)
Lemma load_one_chunk_ids_witness :
  (forall (i : nat) c,
     [make_chunk (lit "d") (lit "d.txt") (lit ".txt") 0 (lit "a ");
      make_chunk (lit "d") (lit "d.txt") (lit ".txt") 1 (lit "  ");
      make_chunk (lit "d") (lit "d.txt") (lit ".txt") 2 (lit "  ")] !! i = Some c ->
     dc_id c = str_or (path_stem sample_lib (p_name blank_tail))
                      (str_or (path_name sample_lib (p_name blank_tail)) (lit "doc"))
               ++ lit "-" ++ str_of_int (Z.of_nat i) /\
     dict_get (dc_metadata c) (lit "chunk_id") = Some (JInt (Z.of_nat i)) /\
     dc_source c = p_name blank_tail) /\
  NoDup (map dc_id
           [make_chunk (lit "d") (lit "d.txt") (lit ".txt") 0 (lit "a ");
            make_chunk (lit "d") (lit "d.txt") (lit ".txt") 1 (lit "  ");
            make_chunk (lit "d") (lit "d.txt") (lit ".txt") 2 (lit "  ")]).
Proof.
  apply (load_one_chunk_ids sample_lib 10 2 1 blank_tail). reflexivity.
Defined.

End LoaderBounds.

(* ===================================================================== *)
(** * Facts: the size of the context, and what [retrieve] propagates       *)
(* ===================================================================== *)

Module PipelineBounds.
Import Py Models Pipeline Samples PipelineFacts.

Lemma len_join_newline (parts : list str) :
  len (join [10%N] parts) = len (concat parts) + Z.max 0 (len parts - 1).
Proof.
  induction parts as [|p parts IH]; [reflexivity|].
  destruct parts as [|q parts].
  - simpl. rewrite app_nil_r. unfold len. simpl. lia.
  - change (join [10%N] (p :: q :: parts)) with (p ++ [10%N] ++ join [10%N] (q :: parts)).
    change (concat (p :: q :: parts)) with (p ++ concat (q :: parts)).
    rewrite !len_app, IH. unfold len. simpl length. lia.
Qed.

Lemma concat_lines_take_le (chunks : list RetrievedChunk) (n : nat) :
  len (concat_lines (take n chunks)) <= len (concat_lines chunks).
Proof.
  rewrite <- (take_drop n chunks) at 2.
  unfold concat_lines. rewrite map_app, concat_app, len_app.
  unfold len. lia.
Qed.

Lemma concat_lines_take_S (chunks : list RetrievedChunk) (n : nat) c :
  chunks !! n = Some c ->
  concat_lines (take (S n) chunks) = concat_lines (take n chunks) ++ snippet c.
Proof.
  intros H. rewrite (take_S_r _ _ _ H). apply concat_lines_snoc.
Qed.

(** X6.  The text that [_build_context] returns is longer than the budget
    [max_chars] by at most the separators that [join] adds, one fewer than
    there are chunks.  It is empty with a budget below 0, whatever the
    chunks, and it is empty with no chunk.  When the lines of all the
    chunks fit the budget together, none is dropped: the text is every
    line, in ranking order, joined with ["\n"]. *)
Theorem build_context_budget (chunks : list RetrievedChunk) (max_chars : Z) :
  len (_build_context chunks max_chars) <= Z.max 0 (max_chars + len chunks - 1) /\
  (max_chars < 0 -> _build_context chunks max_chars = []) /\
  _build_context [] max_chars = [] /\
  (len (concat_lines chunks) <= max_chars ->
   _build_context chunks max_chars = join [10%N] (map snippet chunks)).
Proof.
  destruct (context_parts_prefix max_chars chunks []) as (n & Hn & Heq & Hle & Hnext).
  simpl in *. change (len (concat_lines [])) with 0 in Heq.
  unfold _build_context. rewrite Heq. split; [|split; [|split]].
  - rewrite len_join_newline. fold (concat_lines (take n chunks)).
    assert (Hlen : len (map snippet (take n chunks)) = Z.of_nat n).
    { unfold len. rewrite length_map, length_take. lia. }
    rewrite Hlen. destruct n as [|n].
    + rewrite take_0. change (len (concat_lines [])) with 0. lia.
    + specialize (Hle ltac:(lia)). unfold len at 2. lia.
  - intros Hneg. destruct n as [|n]; [now rewrite take_0|].
    specialize (Hle ltac:(lia)).
    pose proof (ChunkerFacts.len_nonneg (concat_lines (take (S n) chunks))). lia.
  - reflexivity.
  - intros Hfit. destruct (chunks !! n) as [c|] eqn:Hc.
    + specialize (Hnext c eq_refl).
      pose proof (concat_lines_take_le chunks (S n)) as Hmono.
      rewrite (concat_lines_take_S chunks n c Hc), len_app in Hmono. lia.
    + apply lookup_ge_None in Hc. now rewrite take_ge by lia.
Qed.

(** Two lines of 9 characters and a budget of 18: both are kept. *)
Example build_context_fits :
  _build_context two_lines 18 = join [10%N] (map snippet two_lines).
Proof. reflexivity. Qed.

(** [retrieve] raises exactly when the vector search raises, and
    then with the same exception: nothing a reranker raises leaves
    [retrieve]. *)
Theorem retrieve_raises_iff (S : Settings)
  (search : str -> Z -> result (list RetrievedChunk)) (rr : option reranker)
  (query : str) (top_k : option Z) (e : exn) :
  retrieve S search rr query top_k = Raise e <->
  search query (Z.max (opt_int_or top_k (settings_top_k S))
                      (match rr with
                       | Some _ => rerank_top_n S
                       | None => opt_int_or top_k (settings_top_k S)
                       end)) = Raise e.
Proof.
  unfold retrieve.
  destruct (search query _) as [hits|e']; simpl.
  - split; [|discriminate]. destruct rr as [r|]; [|discriminate].
    destruct (r query hits _); discriminate.
  - reflexivity.
Qed.

End PipelineBounds.

(* ===================================================================== *)
(** * Facts: the relevance gate and the responses [handle] computes        *)
(* ===================================================================== *)

Module GateFacts.
Import Py Models Agents Samples Cases FloatFacts.

Lemma fold_fmax_in (l : list float) : forall x, In (fold_left fmax l x) (x :: l).
Proof.
  induction l as [|y l IH]; intros x; simpl; [now left|].
  destruct (IH (fmax x y)) as [H|H]; [|right; now right].
  rewrite <- H. unfold fmax. destruct (x <? y)%float; [right; now left|now left].
Qed.

Lemma fmax_list_in (l : list float) (d : float) :
  match l with
  | [] => fmax_list l d = d
  | _ => In (fmax_list l d) l
  end.
Proof. destruct l as [|x l]; [reflexivity|]. apply fold_fmax_in. Qed.

Lemma gate_kept (S : Settings) (hits : list RetrievedChunk) :
  fst (_apply_relevance_threshold S hits)
  = if (clamped_threshold S <=? 0)%float then hits
    else filter (fun h => (clamped_threshold S <=? score h)%float = true) hits.
Proof.
  unfold _apply_relevance_threshold.
  now destruct (clamped_threshold S <=? 0)%float.
Qed.

Lemma gate_best (S : Settings) (hits : list RetrievedChunk) :
  snd (_apply_relevance_threshold S hits) = fmax_list (map score hits) 0.
Proof.
  unfold _apply_relevance_threshold.
  now destruct (clamped_threshold S <=? 0)%float.
Qed.

Lemma gate_members (S : Settings) (hits : list RetrievedChunk) :
  fst (_apply_relevance_threshold S hits) `sublist_of` hits /\
  ((clamped_threshold S <=? 0)%float = false ->
   forall h, h ∈ fst (_apply_relevance_threshold S hits) <->
             h ∈ hits /\ (clamped_threshold S <=? score h)%float = true).
Proof.
  rewrite gate_kept. split.
  - destruct (clamped_threshold S <=? 0)%float; [reflexivity|apply sublist_filter].
  - intros Ht h. rewrite Ht, list_elem_of_filter. tauto.
Qed.

(** X7.  The gate keeps the hits in recall order.  With a clamped
    threshold at or below 0 it keeps them all; otherwise it keeps exactly
    the hits whose score is at least the threshold.  The best score it
    reports is the score of one of the hits, or 0 when there is none; and
    when a positive threshold leaves no hit, the best score reported is
    not at or above the threshold. *)
Theorem relevance_gate_keeps (S : Settings) (hits : list RetrievedChunk) :
  let t := clamped_threshold S in
  let kept := fst (_apply_relevance_threshold S hits) in
  let best := snd (_apply_relevance_threshold S hits) in
  kept `sublist_of` hits /\
  ((t <=? 0)%float = true -> kept = hits) /\
  ((t <=? 0)%float = false ->
   forall h, h ∈ kept <-> h ∈ hits /\ (t <=? score h)%float = true) /\
  match hits with
  | [] => best = 0%float
  | _ => In best (map score hits)
  end /\
  ((t <=? 0)%float = false -> kept = [] -> (t <=? best)%float = false).
Proof.
  intros t kept best.
  assert (Hin : match hits with
                | [] => best = 0%float
                | _ => In best (map score hits)
                end).
  { unfold best. rewrite gate_best.
    pose proof (fmax_list_in (map score hits) 0) as H. destruct hits; exact H. }
  destruct (gate_members S hits) as [Hsub Hmem]. fold t kept in Hsub, Hmem.
  split; [exact Hsub|]. split; [|split; [exact Hmem|split; [exact Hin|]]].
  - intros Ht. unfold kept. rewrite gate_kept. fold t. now rewrite Ht.
  - intros Ht Hnil. destruct hits as [|h0 hits']; [now rewrite Hin|].
    apply in_map_iff in Hin as (h & <- & Hh).
    destruct (t <=? score h)%float eqn:Hs; [|reflexivity].
    assert (Hk : h ∈ kept).
    { apply (Hmem Ht). split; [now apply list_elem_of_In|exact Hs]. }
    rewrite Hnil in Hk. now apply elem_of_nil in Hk.
Qed.

Example relevance_gate_default :
  _apply_relevance_threshold default_settings
    [hit (lit "a") (lit "d") (lit "x") 0.2; hit (lit "b") (lit "d") (lit "y") 0.5]
  = ([hit (lit "b") (lit "d") (lit "y") 0.5], 0.5%float).
Proof. reflexivity. Qed.

(** X8.  With the cache switched off, [handle] never reports a cache hit
    and leaves the cache as it found it; and what it answers does not
    depend on what the cache holds. *)
Theorem handle_cache_disabled (L : lib) (P : prompts) (S : Settings) (W : world)
  (cache : gmap str QueryResponse) (req : QueryRequest)
  (resp : QueryResponse) (hit : bool) (cache' : gmap str QueryResponse) :
  cache_enabled S = false ->
  handle L P S W cache req = Ok (resp, hit, cache') ->
  hit = false /\ cache' = cache /\
  forall other, handle L P S W other req = Ok (resp, false, other).
Proof.
  intros Hoff H. unfold handle, cache_store in *. rewrite Hoff in *.
  destruct (_cache_key L req) as [key|e]; [|discriminate]. cbn [bind] in *.
  destruct (rag_retrieve W (query req) (top_k req)) as [hits|e]; [|discriminate].
  cbn [bind] in *.
  destruct (_apply_relevance_threshold S hits) as [filtered best].
  destruct filtered as [|h filtered].
  - injection H as <- <- <-. auto.
  - destruct (match lc_rag_answer W with
              | Some lc => lc (query req)
              | None => rag_generate_answer W (query req) (h :: filtered)
                                            (max_tokens req)
              end) as [text|e]; [|discriminate].
    cbn [bind] in *. injection H as <- <- <-. auto.
Qed.

(** The theorem at the default settings without cache and one strong hit. *)
Lemma handle_cache_disabled_witness :
  false = false /\
  (∅ : gmap str QueryResponse) = ∅ /\
  forall other,
    handle sample_lib sample_prompts no_cache strong_world other (ask None false)
    = Ok (first_answer, false, other).
Proof.
  apply (handle_cache_disabled sample_lib sample_prompts no_cache strong_world ∅
           (ask None false) first_answer false ∅); reflexivity.
Defined.

Lemma len_slice_to_le {A} (l : list A) k : 0 <= k -> len (slice_to l k) <= k.
Proof.
  intros Hk. rewrite PipelineFacts.slice_to_take by exact Hk.
  unfold len. rewrite length_take. lia.
Qed.

(** X9.  A response that [handle] computes (the cache-hit flag is false)
    lists one source per hit that passed the gate, in order: the hit's
    source name, the first 160 characters of its text and its score.  With
    a positive clamped threshold every listed score is at least the
    threshold.  The response lists no source exactly when it is the
    low-relevance fallback response. *)
Theorem handle_sources (L : lib) (P : prompts) (S : Settings) (W : world)
  (cache cache' : gmap str QueryResponse) (req : QueryRequest)
  (resp : QueryResponse) :
  handle L P S W cache req = Ok (resp, false, cache') ->
  exists hits,
    rag_retrieve W (query req) (top_k req) = Ok hits /\
    sources resp = map attribution (fst (_apply_relevance_threshold S hits)) /\
    Forall (fun a => len (sa_snippet a) <= 160 /\
                     exists h, In h hits /\
                               sa_source a = dc_source (chunk h) /\
                               sa_snippet a `prefix_of` dc_text (chunk h) /\
                               sa_score a = score h)
           (sources resp) /\
    ((clamped_threshold S <=? 0)%float = false ->
     Forall (fun a => (clamped_threshold S <=? sa_score a)%float = true)
            (sources resp)) /\
    (sources resp = [] <-> resp = _build_low_relevance_response L P (query req)).
Proof.
  intros H. unfold handle in H.
  destruct (_cache_key L req) as [key|e]; [|discriminate]. cbn [bind] in H.
  destruct (if cache_enabled S then cache !! key else None) as [cached|];
    [discriminate|].
  destruct (rag_retrieve W (query req) (top_k req)) as [hits|e]; [|discriminate].
  cbn [bind] in H. exists hits. split; [reflexivity|].
  pose proof (gate_members S hits) as (Hsub & Hgate).
  simpl in Hsub, Hgate.
  destruct (_apply_relevance_threshold S hits) as [filtered best]. simpl in *.
  assert (Hsrc : sources resp = map attribution filtered
                 /\ (filtered = [] -> resp = _build_low_relevance_response L P (query req))).
  { destruct filtered as [|h filtered].
    - injection H as <- _. auto.
    - destruct (match lc_rag_answer W with
                | Some lc => lc (query req)
                | None => rag_generate_answer W (query req) (h :: filtered)
                                              (max_tokens req)
                end) as [text|e]; [|discriminate].
      cbn [bind] in H. injection H as <- _. split; [reflexivity|discriminate]. }
  destruct Hsrc as [Hsrc Hlow]. rewrite Hsrc.
  split; [reflexivity|]. split; [|split].
  - apply List.Forall_forall. intros a Ha.
    apply in_map_iff in Ha as (h & <- & Hh). simpl. split.
    + apply len_slice_to_le. lia.
    + exists h. split.
      * apply list_elem_of_In. eapply elem_of_sublist; [|exact Hsub].
        now apply list_elem_of_In.
      * split; [reflexivity|]. split; [apply PipelineFacts.slice_to_prefix|reflexivity].
  - intros Ht. apply List.Forall_forall. intros a Ha.
    apply in_map_iff in Ha as (h & <- & Hh). simpl.
    apply list_elem_of_In in Hh. now apply (Hgate Ht) in Hh.
  - split.
    + intros Hnil. apply map_eq_nil in Hnil. auto.
    + intros ->. rewrite <- Hsrc. reflexivity.
Qed.

(** The theorem at the default settings, an empty cache and one strong
    hit. *)
Lemma handle_sources_witness :
  exists hits,
    rag_retrieve strong_world (query (ask None false)) (top_k (ask None false))
    = Ok hits /\
    sources first_answer
    = map attribution (fst (_apply_relevance_threshold default_settings hits)) /\
    Forall (fun a => len (sa_snippet a) <= 160 /\
                     exists h, In h hits /\
                               sa_source a = dc_source (chunk h) /\
                               sa_snippet a `prefix_of` dc_text (chunk h) /\
                               sa_score a = score h)
           (sources first_answer) /\
    ((clamped_threshold default_settings <=? 0)%float = false ->
     Forall (fun a => (clamped_threshold default_settings <=? sa_score a)%float = true)
            (sources first_answer)) /\
    (sources first_answer = [] <->
     first_answer = _build_low_relevance_response sample_lib sample_prompts
                      (query (ask None false))).
Proof.
  apply (handle_sources sample_lib sample_prompts default_settings strong_world ∅
           (<[cache_key_raw (ask None false) := first_answer]> ∅)
           (ask None false) first_answer).
  reflexivity.
Defined.

End GateFacts.

(* ===================================================================== *)
(** * Facts: how many items the Qianfan reranker returns                   *)
(* ===================================================================== *)

Module RerankBounds.
Import Py Models Rerank Samples RerankFacts.

#[local] Arguments resolve_score : simpl never.
#[local] Arguments index : simpl never.

Lemma filter_split_length {A} (P : A -> Prop) `{forall x, Decision (P x)}
  (l : list A) :
  (length (filter P l) + length (filter (fun x => ~ P x) l) = length l)%nat.
Proof.
  induction l as [|x l IH]; [reflexivity|].
  rewrite !filter_cons. destruct (decide (P x)) as [Hp|Hp].
  - rewrite decide_False by tauto. simpl. lia.
  - rewrite decide_True by tauto. simpl. lia.
Qed.

Lemma enumerate_from_length {A} (l : list A) k : length (enumerate_from k l) = length l.
Proof. revert k. induction l; intros k; simpl; auto. Qed.

Lemma enumerate_keys {A} (l : list A) (i : Z) :
  i ∈ map fst (enumerate l) <-> 0 <= i < len l.
Proof.
  split.
  - intros H. apply list_elem_of_fmap in H as ([j x] & -> & Hin).
    apply list_elem_of_In, enumerate_from_lookup in Hin as [H0 Hx].
    apply lookup_lt_Some in Hx. simpl. unfold len. lia.
  - intros [H0 Hlt]. unfold len in Hlt.
    destruct (lookup_lt_is_Some_2 l (Z.to_nat i) ltac:(lia)) as [x Hx].
    apply list_elem_of_fmap. exists (i, x). split; [reflexivity|].
    apply (list_elem_of_lookup_2 _ (Z.to_nat i)).
    unfold enumerate. rewrite LoaderBounds.enumerate_from_lookup_nat, Hx. simpl.
    f_equal. f_equal. lia.
Qed.

(** The candidates that a set of distinct, valid picks leaves unused. *)
Lemma unused_length (candidates : list RetrievedChunk) (used : gset Z)
  (picks : list Z) :
  NoDup picks ->
  (forall i, i ∈ used <-> i ∈ picks) ->
  (forall i, i ∈ picks -> 0 <= i < len candidates) ->
  len (unused used (enumerate candidates)) = len candidates - len picks.
Proof.
  intros Hnd Hused Hrange. unfold unused.
  pose proof (filter_split_length (fun p : Z * RetrievedChunk => fst p ∈ used)
                                  (enumerate candidates)) as Hsplit.
  assert (Hperm : map fst (filter (fun p : Z * RetrievedChunk => fst p ∈ used)
                                  (enumerate candidates)) ≡ₚ picks).
  { apply NoDup_Permutation.
    - apply (sublist_NoDup _ (map fst (enumerate candidates)));
        [apply enumerate_from_NoDup|].
      apply fmap_sublist, sublist_filter.
    - exact Hnd.
    - intros i. split.
      + intros Hi. apply list_elem_of_fmap in Hi as (p & -> & Hp).
        apply list_elem_of_filter in Hp as [Hp _]. now apply Hused.
      + intros Hi. apply list_elem_of_fmap.
        pose proof (proj2 (enumerate_keys candidates i) (Hrange i Hi)) as Hk.
        apply list_elem_of_fmap in Hk as (p & -> & Hp).
        exists p. split; [reflexivity|].
        apply list_elem_of_filter. split; [now apply Hused|exact Hp]. }
  apply Permutation_length in Hperm. rewrite length_map in Hperm.
  unfold enumerate in *. rewrite enumerate_from_length in Hsplit.
  unfold len. lia.
Qed.

Section Scoring.
Variables (L : lib) (top_k : Z) (candidates : list RetrievedChunk).
Variable documents : list str.

(** The scoring loop stops as soon as it holds [top_k] items. *)
Lemma qianfan_score_entries_len entries : forall st st',
  Qianfan.score_entries L top_k candidates documents entries st = Ok st' ->
  len (fst st) < top_k -> len (fst st') <= top_k.
Proof.
  induction entries as [|entry rest IH]; intros [scored used] st' H Hlt;
    simpl in H.
  - injection H as <-. simpl in *. lia.
  - destruct (Qianfan._resolve_index L entry documents) as [[idx|]|e];
      simpl in H; try discriminate; [|eauto].
    destruct ((0 <=? idx) && (idx <? len candidates)); simpl in H; [|eauto].
    destruct (bool_decide (idx ∈ used)); [eauto|].
    destruct (index candidates idx) as [cand|e]; simpl in H; [|discriminate].
    destruct (resolve_score L Qianfan.SCORE_KEYS entry (score cand)) as [sc|e];
      simpl in H; [|discriminate].
    destruct (Z.leb_spec top_k
                (len (scored ++ [{| chunk := chunk cand; score := sc |}]))) as [Hfull|Hroom].
    + injection H as <-. simpl in *. rewrite len_snoc in *. lia.
    + eapply IH; [exact H|]. simpl. exact Hroom.
Qed.

End Scoring.

Lemma picked_in_range (candidates : list RetrievedChunk) r i :
  picked candidates r i -> 0 <= i < len candidates.
Proof.
  intros (H0 & c & Hc & _). apply lookup_lt_Some in Hc. unfold len. lia.
Qed.

Lemma len_slice_to {A} (l : list A) k : 0 <= k -> len (slice_to l k) = Z.min k (len l).
Proof.
  intros Hk. rewrite PipelineFacts.slice_to_take by exact Hk.
  unfold len. rewrite length_take. lia.
Qed.

(** Asked for [top_k >= 1] items, [QianfanReranker.rerank] returns exactly
    [min(top_k, len(hits))] of them, whatever the service answered: the
    scoring loop stops at [top_k], and the padding loop fills what the
    answer left open from the unused candidates. *)
Lemma qianfan_rerank_len (L : lib) (S : Settings)
  (client_do : str -> list str -> Z -> result Qianfan.response)
  (query : str) (hits reranked : list RetrievedChunk) (top_k : Z) :
  1 <= top_k ->
  Qianfan.rerank L S client_do query hits top_k = Ok reranked ->
  len reranked = Z.min top_k (len hits).
Proof.
  intros Hk H. unfold Qianfan.rerank in H. destruct hits as [|h hits'].
  { injection H as <-. unfold len. simpl. lia. }
  set (hits := h :: hits') in *.
  assert (Hor : int_or top_k (settings_top_k S) = top_k).
  { unfold int_or. destruct (Z.eqb_spec top_k 0); [lia|reflexivity]. }
  rewrite Hor in H.
  set (candidates := slice_to hits (Z.max top_k (rerank_top_n S))) in *.
  assert (Hcand : len candidates = Z.min (Z.max top_k (rerank_top_n S)) (len hits)).
  { apply len_slice_to. lia. }
  destruct (client_do query _ _) as [resp|e]; cbn [bind] in H; [|discriminate].
  destruct (Qianfan._extract_entries resp) as [|entry entries].
  { injection H as <-. rewrite len_slice_to by lia. lia. }
  destruct (Qianfan.score_entries L top_k candidates _ (entry :: entries) ([], ∅))
    as [[scored used]|e] eqn:Hscore; cbn [bind] in H; [|discriminate].
  injection H as <-.
  destruct (qianfan_score_entries_distinct L top_k candidates _ _ _ [] _ Hscore)
    as (picks & Hpick & Hnd & Hused).
  { split; [constructor|]. split; [constructor|].
    intros i. simpl. rewrite elem_of_empty, elem_of_nil. tauto. }
  simpl in Hpick, Hused.
  pose proof (qianfan_score_entries_len L top_k candidates _ _ _ _ Hscore) as Hlen.
  simpl in Hlen. specialize (Hlen ltac:(unfold len; simpl; lia)).
  assert (Hsame : len picks = len scored).
  { unfold len. now rewrite (Forall2_length _ _ _ Hpick). }
  assert (Hrange : forall i, i ∈ picks -> 0 <= i < len candidates).
  { intros i Hi. apply list_elem_of_lookup in Hi as [j Hj].
    destruct (Forall2_lookup_r _ _ _ _ _ Hpick Hj) as (r & _ & Hr).
    eapply picked_in_range; eauto. }
  pose proof (unused_length candidates used picks Hnd Hused Hrange) as Hun.
  assert (Hle : len scored <= len candidates).
  { pose proof (ChunkerFacts.len_nonneg (unused used (enumerate candidates))). lia. }
  unfold pad_if_short.
  destruct (Z.ltb_spec (len scored) (Z.min top_k (len candidates))) as [Hshort|Hfull].
  - rewrite pad_spec, PipelineFacts.len_app.
    unfold len at 2. rewrite length_map, length_take.
    unfold len in *. lia.
  - lia.
Qed.

(** X10.  [retrieve] with the Qianfan reranker, asked for [k >= 1] items
    ([k = top_k or settings.top_k]), returns exactly [min(k, len(hits))]
    items of the recalled [hits], picked at pairwise distinct positions:
    whatever the rerank service answers, and also when the call to it
    raises. *)
Theorem retrieve_qianfan_selection (L : lib) (S : Settings)
  (search : str -> Z -> result (list RetrievedChunk))
  (client_do : str -> list str -> Z -> result Qianfan.response)
  (query : str) (top_k : option Z) (hits : list RetrievedChunk) :
  1 <= opt_int_or top_k (settings_top_k S) ->
  search query (Z.max (opt_int_or top_k (settings_top_k S)) (rerank_top_n S)) = Ok hits ->
  exists selected,
    Pipeline.retrieve S search (Some (Qianfan.rerank L S client_do)) query top_k
    = Ok selected /\
    len selected = Z.min (opt_int_or top_k (settings_top_k S)) (len hits) /\
    exists picks, NoDup picks /\ Forall2 (picked hits) selected picks.
Proof.
  intros Hk Hsearch. unfold Pipeline.retrieve. rewrite Hsearch. cbn [bind].
  destruct (Qianfan.rerank L S client_do query hits _) as [reranked|e] eqn:Hr.
  - exists reranked. split; [reflexivity|]. split.
    + eapply qianfan_rerank_len; eauto.
    + eapply qianfan_rerank_picks; eauto.
  - eexists. split; [reflexivity|]. split.
    + apply len_slice_to. lia.
    + apply prefix_picked, PipelineFacts.slice_to_prefix.
Qed.

(** The theorem at two recalled hits, [top_k = 2] and the answer
    [{"results": [{"index": -1}, {"index": 1}]}]. *)
Lemma retrieve_qianfan_selection_witness :
  exists selected,
    Pipeline.retrieve default_settings (fun _ _ => Ok [alpha; beta])
      (Some (Qianfan.rerank sample_lib default_settings
               (fun _ _ _ => Ok (Qianfan.RespValue negative_index_body))))
      (lit "q") (Some 2)
    = Ok selected /\
    len selected = Z.min (opt_int_or (Some 2) (settings_top_k default_settings))
                         (len [alpha; beta]) /\
    exists picks, NoDup picks /\ Forall2 (picked [alpha; beta]) selected picks.
Proof.
  apply (retrieve_qianfan_selection sample_lib default_settings
           (fun _ _ => Ok [alpha; beta])
           (fun _ _ _ => Ok (Qianfan.RespValue negative_index_body))
           (lit "q") (Some 2) [alpha; beta]); [vm_compute; discriminate|reflexivity].
Defined.

End RerankBounds.

(* ===================================================================== *)
(** * Facts: [EmbeddingProvider.embed], the batches                        *)
(* ===================================================================== *)

Module BatchFacts.
Import Py Models Embedding Samples Cases.

Lemma range_from_seq (count : nat) : forall start step,
  range_from count start step
  = map (fun i : nat => start + Z.of_nat i * step) (seq 0 count).
Proof.
  induction count as [|count IH]; intros start step; [reflexivity|].
  cbn [range_from seq map]. f_equal; [lia|].
  rewrite IH, <- seq_shift, map_map. apply map_ext. intros i. lia.
Qed.

Lemma slice_take_drop {A} (l : list A) (a b : Z) :
  0 <= a -> 0 <= b ->
  slice l a (a + b) = take (Z.to_nat b) (drop (Z.to_nat a) l).
Proof.
  intros Ha Hb. unfold slice, slice_bound.
  destruct (Z.ltb_spec a 0); [lia|]. destruct (Z.ltb_spec (a + b) 0); [lia|].
  destruct (Z_le_gt_dec a (len l)) as [Hin|Hout].
  - rewrite (Z.min_l a) by lia.
    destruct (Z_le_gt_dec (a + b) (len l)).
    + rewrite Z.min_l by lia. f_equal. lia.
    + rewrite Z.min_r by lia.
      rewrite !take_ge; [reflexivity| |]; rewrite length_drop; unfold len in *; lia.
  - rewrite !Z.min_r by lia. rewrite Z.sub_diag. simpl.
    rewrite (drop_ge l (Z.to_nat a)) by (unfold len in *; lia).
    now rewrite take_nil.
Qed.

Lemma concat_takes {A} (l : list A) (b : nat) (c : nat) :
  concat (map (fun i : nat => take b (drop (i * b) l)) (seq 0 c)) = take (c * b) l.
Proof.
  induction c as [|c IH]; [reflexivity|].
  rewrite seq_S, map_app, concat_app, IH. simpl.
  rewrite app_nil_r, take_take_drop. f_equal. lia.
Qed.

Lemma ceil_covers n b : 0 <= n -> 1 <= b -> n <= (n + b - 1) / b * b.
Proof.
  intros Hn Hb. pose proof (Z.div_mod (n + b - 1) b ltac:(lia)).
  pose proof (Z.mod_pos_bound (n + b - 1) b ltac:(lia)). nia.
Qed.

(** The chunks [texts[start : start + batch_size]] that the [for] loop of
    [embed] visits. *)
Lemma batches_as_takes {A} (texts : list A) (b : Z) :
  1 <= b ->
  map (fun start => slice texts start (start + b)) (range_step (len texts) b)
  = map (fun i : nat => take (Z.to_nat b) (drop (i * Z.to_nat b) texts))
        (seq 0 (Z.to_nat ((len texts + b - 1) / b))).
Proof.
  intros Hb. unfold range_step. rewrite range_from_seq, map_map.
  apply map_ext. intros i. rewrite slice_take_drop by lia.
  do 2 f_equal. lia.
Qed.

Lemma batches_concat {A} (texts : list A) (b : Z) :
  1 <= b ->
  concat (map (fun start => slice texts start (start + b)) (range_step (len texts) b))
  = texts.
Proof.
  intros Hb. rewrite batches_as_takes by exact Hb. rewrite concat_takes.
  apply take_ge. pose proof (ceil_covers (len texts) b ltac:(unfold len; lia) Hb).
  unfold len in *. nia.
Qed.

Lemma batches_sizes {A} (texts : list A) (b : Z) :
  1 <= b ->
  Forall (fun chunk => 1 <= len chunk <= b)
         (map (fun start => slice texts start (start + b)) (range_step (len texts) b)).
Proof.
  intros Hb. rewrite batches_as_takes by exact Hb.
  apply List.Forall_forall. intros chunk Hin.
  apply in_map_iff in Hin as (i & <- & Hi). apply in_seq in Hi.
  unfold len. rewrite length_take, length_drop.
  assert (Hlt : Z.of_nat i * b < Z.of_nat (length texts)).
  { assert (Z.of_nat i + 1 <= (Z.of_nat (length texts) + b - 1) / b)
      by (unfold len in Hi; lia).
    pose proof (Z.mul_div_le (Z.of_nat (length texts) + b - 1) b ltac:(lia)). nia. }
  assert (i * Z.to_nat b < length texts)%nat by nia.
  lia.
Qed.

Lemma batch_size_pos S : 1 <= batch_size S.
Proof. unfold batch_size. lia. Qed.

(** What the batch loop gathers: one answer of the provider per start, in
    order. *)
Lemma embed_batches_answers L S provider texts fuel :
  forall starts batches tr result tr',
    embed_batches L S provider texts fuel starts batches tr = Some (Ok result, tr') ->
    exists added,
      result = batches ++ added /\
      Forall2 (fun chunk m => exists call, provider call chunk = Ok m)
              (map (fun start => slice texts start (start + batch_size S)) starts)
              added.
Proof.
  intros starts. induction starts as [|start rest IH];
    intros batches tr result tr' H; simpl in H.
  - injection H as <- _. exists []. rewrite app_nil_r. split; [reflexivity|constructor].
  - destruct (retry_loop L provider _ (max_retries S) (max_delay S) fuel 0
                         (base_delay S) tr) as [[[vecs|e] tr1]|] eqn:Hloop;
      try discriminate.
    destruct (IH _ _ _ _ H) as (added & -> & Hall).
    exists (vecs :: added). rewrite <- app_assoc. split; [reflexivity|].
    constructor; [|exact Hall].
    eapply NormFacts.retry_loop_ok; eauto.
Qed.

(** A matrix that [embed] returns stacks the provider's answers to the
    chunks [texts[start : start + batch_size]], in order. *)
Lemma embed_answers (L : lib) (S : Settings)
  (provider : nat -> list str -> result matrix) (fuel : nat)
  (texts : list str) (tr tr' : trace) (m : matrix) :
  texts <> [] ->
  embed L S provider fuel texts tr = Some (Ok m, tr') ->
  exists answers,
    Forall2 (fun chunk answer => exists call, provider call chunk = Ok answer)
            (map (fun start => slice texts start (start + batch_size S))
                 (range_step (len texts) (batch_size S)))
            answers /\
    m = concat answers.
Proof.
  intros Hne H. unfold embed in H. destruct texts as [|t texts']; [congruence|].
  set (texts := t :: texts') in *.
  destruct (embed_batches L S provider texts fuel
              (range_step (len texts) (batch_size S)) [] tr)
    as [[[batches|e] tr1]|] eqn:Hb; try discriminate.
  destruct (embed_batches_answers _ _ _ _ _ _ _ _ _ _ Hb) as (added & Heq & Hall).
  simpl in Heq. subst added.
  exists batches. split; [exact Hall|].
  destruct batches as [|b bs].
  - now injection H as <- _.
  - unfold vstack in H.
    match type of H with context [forallb ?f bs] => destruct (forallb f bs) end;
      [|discriminate].
    now injection H as <- _.
Qed.

(** X11.  When [embed] returns a matrix for a non-empty list of texts, the
    matrix is made of the provider's answers to consecutive batches of the
    texts, stacked in order: the batches, concatenated, are the texts, and
    each holds between 1 and [max(1, embedding_batch_size)] of them. *)
Theorem embed_stacks_batches (L : lib) (S : Settings)
  (provider : nat -> list str -> result matrix) (fuel : nat)
  (texts : list str) (tr tr' : trace) (m : matrix) :
  texts <> [] ->
  embed L S provider fuel texts tr = Some (Ok m, tr') ->
  exists chunks answers,
    concat chunks = texts /\
    Forall (fun chunk => 1 <= len chunk <= batch_size S) chunks /\
    Forall2 (fun chunk answer => exists call, provider call chunk = Ok answer)
            chunks answers /\
    m = concat answers.
Proof.
  intros Hne H.
  destruct (embed_answers L S provider fuel texts tr tr' m Hne H)
    as (answers & Hall & ->).
  exists (map (fun start => slice texts start (start + batch_size S))
              (range_step (len texts) (batch_size S))), answers.
  split; [apply batches_concat, batch_size_pos|].
  split; [apply batches_sizes, batch_size_pos|].
  split; [exact Hall|reflexivity].
Qed.

(** The theorem at one text and a backend that answers (3, 4). *)
Lemma embed_stacks_batches_witness :
  exists chunks answers,
    concat chunks = [lit "t"] /\
    Forall (fun chunk => 1 <= len chunk <= batch_size default_settings) chunks /\
    Forall2 (fun chunk answer =>
               exists call, _embed_openai sample_lib backend_3_4 call chunk = Ok answer)
            chunks answers /\
    [[f32_of_float 0.6; f32_of_float 0.8]] = concat answers.
Proof.
  apply (embed_stacks_batches sample_lib default_settings (_embed_openai sample_lib backend_3_4)
           4 [lit "t"] start_trace {| calls := 1; slept := [] |});
    [discriminate|vm_compute; reflexivity].
Defined.

Lemma embed_qianfan_rows L client_do call chunk m :
  _embed_qianfan L client_do call chunk = Ok m -> len m = len chunk.
Proof.
  unfold _embed_qianfan. destruct (client_do call chunk) as [resp|e]; [|discriminate].
  cbn [bind]. destruct (error_code resp); [discriminate|].
  destruct (Z.eqb_spec (len (data resp)) (len chunk)) as [Hlen|]; [|discriminate].
  cbn [negb]. destruct (asarray (data resp)) as [arr|e] eqn:Harr; [|discriminate].
  cbn [bind]. intros [= <-].
  rewrite (NormFacts.asarray_rows _ _ Harr), <- Hlen.
  unfold len. now rewrite !length_map.
Qed.

Lemma concat_same_lengths {A B} (xs : list (list A)) (ys : list (list B)) :
  Forall2 (fun x y => len y = len x) xs ys -> len (concat ys) = len (concat xs).
Proof.
  induction 1 as [|x y xs ys Hxy _ IH]; [reflexivity|].
  simpl. rewrite !PipelineFacts.len_app. lia.
Qed.

(** X12.  Over the Qianfan backend, a matrix that [embed] returns has
    exactly one row per input text: each batch is checked against the
    length of its answer before it is stacked. *)
Theorem embed_qianfan_row_count (L : lib) (S : Settings)
  (client_do : nat -> list str -> result qianfan_response) (fuel : nat)
  (texts : list str) (tr tr' : trace) (m : matrix) :
  embed L S (_embed_qianfan L client_do) fuel texts tr = Some (Ok m, tr') ->
  len m = len texts.
Proof.
  intros H. destruct texts as [|t texts'].
  { simpl in H. now injection H as <- _. }
  destruct (embed_answers L S _ fuel (t :: texts') tr tr' m ltac:(discriminate) H)
    as (answers & Hall & ->).
  etransitivity;
    [|apply (f_equal len (batches_concat (t :: texts') (batch_size S) (batch_size_pos S)))].
  apply concat_same_lengths.
  eapply Forall2_impl; [exact Hall|].
  intros chunk answer [call Hcall]. eapply embed_qianfan_rows; eauto.
Qed.

(** The theorem at two texts and a backend that answers (3, 4) for each. *)
Lemma embed_qianfan_row_count_witness :
  len [[f32_of_float 0.6; f32_of_float 0.8]; [f32_of_float 0.6; f32_of_float 0.8]]
  = len [lit "a"; lit "b"].
Proof.
  apply (embed_qianfan_row_count sample_lib default_settings qianfan_3_4 4
           [lit "a"; lit "b"] start_trace {| calls := 1; slept := [] |}).
  vm_compute. reflexivity.
Defined.

(** ** Runs without a failure *)

Lemma range_from_length count start step : length (range_from count start step) = count.
Proof. revert start. induction count; intros; simpl; auto. Qed.

Lemma embed_batches_all_ok L S provider texts fuel :
  (forall call chunk, exists m, provider call chunk = Ok m) ->
  (1 <= fuel)%nat ->
  forall starts batches tr,
    exists result,
      embed_batches L S provider texts fuel starts batches tr
      = Some (Ok result, {| calls := calls tr + length starts; slept := slept tr |}).
Proof.
  intros Hok Hf starts. induction starts as [|start rest IH]; intros batches tr.
  - exists batches. simpl. rewrite Nat.add_0_r. now destruct tr.
  - simpl. destruct fuel as [|fuel]; [lia|]. simpl.
    destruct (Hok (calls tr) (slice texts start (start + batch_size S))) as [m ->].
    destruct (IH (batches ++ [m]) (called tr)) as [result ->].
    exists result. simpl. do 3 f_equal. lia.
Qed.

(** When no call to the provider fails, [embed] makes exactly one
    call per batch, [ceil(len(texts) / batch_size)] in all, and never
    sleeps. *)
Theorem embed_one_call_per_batch (L : lib) (S : Settings)
  (provider : nat -> list str -> result matrix) (fuel : nat)
  (texts : list str) (tr : trace) :
  (forall call chunk, exists m, provider call chunk = Ok m) ->
  (1 <= fuel)%nat ->
  exists r,
    embed L S provider fuel texts tr
    = Some (r, {| calls := calls tr
                           + Z.to_nat ((len texts + batch_size S - 1) / batch_size S);
                  slept := slept tr |}).
Proof.
  intros Hok Hf. pose proof (batch_size_pos S) as Hb.
  unfold embed. destruct texts as [|t texts'].
  - exists (Ok []). change (len []) with 0. rewrite Z.div_small by lia.
    simpl. rewrite Nat.add_0_r. now destruct tr.
  - destruct (embed_batches_all_ok L S provider (t :: texts') fuel Hok Hf
                (range_step (len (t :: texts')) (batch_size S)) [] tr)
      as [result ->].
    unfold range_step. rewrite range_from_length.
    destruct result as [|b bs]; eauto.
Qed.

(** The theorem at the default batch size of 32 and one text: one call. *)
Lemma embed_one_call_per_batch_witness :
  exists r,
    embed sample_lib default_settings (_embed_openai sample_lib backend_3_4) 4 [lit "t"]
          start_trace
    = Some (r, {| calls := calls start_trace
                           + Z.to_nat ((len [lit "t"] + batch_size default_settings - 1)
                                       / batch_size default_settings);
                  slept := slept start_trace |}).
Proof.
  apply (embed_one_call_per_batch sample_lib default_settings
           (_embed_openai sample_lib backend_3_4) 4 [lit "t"] start_trace); [|lia].
  intros call chunk. eexists. reflexivity.
Defined.

End BatchFacts.

(* ===================================================================== *)
(** * Facts: what [_run_vectorize_job] reports and leaves behind           *)
(* ===================================================================== *)

Module JobFacts.
Import Py Models Loader Main Reports Samples Cases MainFacts.

#[local] Arguments str_in : simpl never.
#[local] Arguments app : simpl never.

(** ** What the steps of the job leave untouched *)

Lemma collect_requested_frame L W entries filenames :
  forall requested st outcome st',
    collect_requested L W entries filenames requested st = (outcome, st') ->
    index st' = index st /\ vector_refs st' = vector_refs st /\
    total_doc_uploads st' = total_doc_uploads st.
Proof.
  induction filenames as [|name rest IH]; intros requested st outcome st' H;
    simpl in H.
  - injection H as _ <-. auto.
  - destruct (get_document W name) as [doc|e].
    + destruct (negb (str_in (lower L (p_ext doc)) ALLOWED_DOC_EXTS));
        apply IH in H; exact H.
    + destruct (exn_cls e); try (injection H as _ <-; auto); apply IH in H; exact H.
Qed.

Lemma collect_requested_raise L W entries filenames :
  forall requested st e st',
    collect_requested L W entries filenames requested st = (Raise e, st') ->
    exists name, In name filenames /\ get_document W name = Raise e /\
                 exn_cls e <> FileNotFoundError.
Proof.
  induction filenames as [|name rest IH]; intros requested st e st' H;
    simpl in H; [discriminate|].
  destruct (get_document W name) as [doc|e0] eqn:Hget.
  - destruct (negb (str_in (lower L (p_ext doc)) ALLOWED_DOC_EXTS));
      apply IH in H as (n & Hn & Hg & Hc); exists n; (split; [now right|auto]).
  - destruct (exn_cls e0) eqn:Hcls;
      try (injection H as <- _; exists name;
           split; [now left|]; split; [exact Hget|congruence]).
    apply IH in H as (n & Hn & Hg & Hc). exists n. split; [now right|auto].
Qed.

Lemma indexing_section_frame L S W fuel requested st0 outcome st1 :
  indexing_section L S W fuel requested st0 = Some (outcome, st1) ->
  sink st1 = sink st0 /\ total_doc_uploads st1 = total_doc_uploads st0.
Proof.
  unfold indexing_section. intros H.
  destruct (load_documents L fuel (map snd requested) (chunk_size S)
              (chunk_overlap S) (chunk_overlap_ratio S)) as [[chunks|e]|];
    [|injection H as _ <-; auto|discriminate].
  match type of H with
  | context [match ?u with Ok _ => _ | Raise _ => _ end] =>
      destruct u as [rows1|e]; [|injection H as _ <-; auto]
  end.
  match type of H with
  | context [match ?u with Ok _ => _ | Raise _ => _ end] =>
      destruct u as [rows2|e]; [|injection H as _ <-; auto]
  end.
  match type of H with
  | context [match ?u with Ok _ => _ | Raise _ => _ end] =>
      destruct u as [refs|e]; injection H as _ <-; auto
  end.
Qed.

(** X13.  An exception leaves [_run_vectorize_job] only when reading one
    of the named documents from the store raises something other than
    [FileNotFoundError]; nothing that the chunker, the index or the
    reference update raises leaves it.  In that case the index and the
    stored references are as before. *)
Theorem job_raises_only_from_store (L : lib) (S : Settings) (W : world)
  (fuel : nat) (entries : list entry) (st st' : state) (e : exn) :
  _run_vectorize_job L S W fuel entries st = Some (Raise e, st') ->
  (exists name,
     In name (map filename (filter (fun e => filename e <> []) entries)) /\
     get_document W name = Raise e /\
     exn_cls e <> FileNotFoundError) /\
  index st' = index st /\ vector_refs st' = vector_refs st.
Proof.
  unfold _run_vectorize_job. intros H.
  destruct (map filename (filter (fun e => filename e <> []) entries))
    as [|f fs] eqn:Hnames; [discriminate|].
  destruct (collect_requested L W entries (f :: fs) [] st) as [[requested|e0] st0]
    eqn:Hreq.
  - destruct requested as [|kv requested']; [discriminate|].
    destruct (indexing_section L S W fuel (kv :: requested') st0)
      as [[[m|e1] st1]|]; discriminate.
  - injection H as <- <-.
    destruct (collect_requested_frame _ _ _ _ _ _ _ _ Hreq) as (Hi & Hr & _).
    split; [|auto]. eapply collect_requested_raise; eauto.
Qed.

(** The theorem at [batch] when the document store is down. *)
Lemma job_raises_only_from_store_witness :
  (exists name,
     In name (map filename (filter (fun e => filename e <> []) batch)) /\
     get_document store_down name = Raise (Exn OtherError []) /\
     exn_cls (Exn OtherError []) <> FileNotFoundError) /\
  index before = index before /\ vector_refs before = vector_refs before.
Proof.
  apply (job_raises_only_from_store sample_lib default_settings store_down 10
           batch before before (Exn OtherError [])).
  reflexivity.
Defined.

(** ** The statuses the job appends *)

Lemma statuses_of_app name a b :
  statuses_of name (a ++ b) = statuses_of name a ++ statuses_of name b.
Proof. unfold statuses_of. apply flat_map_app. Qed.

Lemma statuses_of_fail entries n reason st name :
  statuses_of name (sink (_fail entries n reason st))
  = statuses_of name (sink st)
    ++ (if str_eqb n name then [failure_report entries n reason] else []).
Proof.
  unfold _fail. cbn [sink]. rewrite statuses_of_app. f_equal.
  unfold statuses_of. cbn [flat_map r_doc]. now rewrite !app_nil_r.
Qed.

Lemma statuses_of_pairs {V} (f : str * V -> report) (items : list (str * V)) name :
  (forall kv, r_doc (f kv) = fst kv) ->
  statuses_of name (flat_map (fun kv => [SetStatus (f kv); RecordEvent (f kv)]) items)
  = map f (filter (fun kv => fst kv = name) items).
Proof.
  intros Hf. induction items as [|kv items IH]; [reflexivity|].
  cbn [flat_map]. rewrite statuses_of_app, IH, filter_cons.
  unfold statuses_of at 1. cbn [flat_map]. rewrite !app_nil_r, Hf.
  destruct (decide (fst kv = name)) as [Heq|Hne].
  - apply str_eqb_eq in Heq. now rewrite Heq.
  - apply str_eqb_neq in Hne. now rewrite Hne.
Qed.

Lemma filter_key_absent {V} (items : list (str * V)) name :
  ~ In name (map fst items) -> filter (fun kv => fst kv = name) items = [].
Proof.
  induction items as [|kv items IH]; intros Hn; [reflexivity|].
  cbn [map In] in Hn. rewrite filter_cons, decide_False by tauto.
  apply IH. tauto.
Qed.

Lemma filter_key_NoDup {V} (items : list (str * V)) name v :
  NoDup (map fst items) -> In (name, v) items ->
  filter (fun kv => fst kv = name) items = [(name, v)].
Proof.
  induction items as [|kv items IH]; [intros _ []|].
  intros Hnd Hin. cbn [map] in Hnd. apply NoDup_cons in Hnd as [Hk Hnd].
  rewrite list_elem_of_In in Hk. rewrite filter_cons.
  destruct Hin as [->|Hin].
  - rewrite decide_True by reflexivity. now rewrite filter_key_absent.
  - rewrite decide_False; [now apply IH|].
    intros Heq. apply Hk. rewrite Heq. apply in_map_iff. now exists (name, v).
Qed.

Lemma dict_set_keys_super {V} (d : list (str * V)) k v x :
  In x (map fst d) -> In x (map fst (dict_set d k v)).
Proof.
  intros Hx. destruct (decide (k ∈ map fst d)) as [Hin|Hin];
    rewrite list_elem_of_In in Hin.
  - now rewrite dict_set_keys_present.
  - rewrite dict_set_keys_absent by exact Hin. apply in_app_iff. now left.
Qed.

(** A document that the first loop turns down is reported as failed, once
    per time it is named, and is not among the requested documents. *)
Lemma collect_requested_rejected L W entries name reason filenames :
  rejection L W name = Some reason ->
  forall requested st result st',
    collect_requested L W entries filenames requested st = (Ok result, st') ->
    (In name (map fst result) -> In name (map fst requested)) /\
    exists k : nat,
      statuses_of name (sink st')
      = statuses_of name (sink st) ++ repeat (failure_report entries name reason) k /\
      (In name filenames -> (0 < k)%nat).
Proof.
  intros Hrej. unfold rejection in Hrej.
  induction filenames as [|n rest IH]; intros requested st result st' H;
    simpl in H.
  - injection H as <- <-. split; [auto|]. exists 0%nat. simpl.
    rewrite app_nil_r. split; [reflexivity|intros []].
  - destruct (get_document W n) as [doc|e] eqn:Hget.
    + destruct (negb (str_in (lower L (p_ext doc)) ALLOWED_DOC_EXTS)) eqn:Hext.
      * apply IH in H as (Hkeys & k & Hst & Hk). split; [exact Hkeys|].
        rewrite statuses_of_fail in Hst.
        destruct (str_eqb n name) eqn:Hn.
        -- apply str_eqb_eq in Hn. subst n. rewrite Hget, Hext in Hrej.
           injection Hrej as <-.
           exists (S k). rewrite Hst, <- app_assoc. split; [reflexivity|lia].
        -- apply str_eqb_neq in Hn. exists k. rewrite Hst, app_nil_r.
           split; [reflexivity|]. intros [?|Hin]; [congruence|auto].
      * apply IH in H as (Hkeys & k & Hst & Hk).
        assert (Hn : n <> name).
        { intros ->. rewrite Hget, Hext in Hrej. discriminate. }
        split.
        -- intros Hin. apply Hkeys in Hin.
           apply dict_set_keys_incl in Hin as [Hin|Heq]; [exact Hin|congruence].
        -- exists k. split; [exact Hst|]. intros [?|Hin]; [congruence|auto].
    + destruct (exn_cls e) eqn:Hcls; try discriminate.
      apply IH in H as (Hkeys & k & Hst & Hk). split; [exact Hkeys|].
      rewrite statuses_of_fail in Hst.
      destruct (str_eqb n name) eqn:Hn.
      * apply str_eqb_eq in Hn. subst n. rewrite Hget, Hcls in Hrej.
        injection Hrej as <-.
        exists (S k). rewrite Hst, <- app_assoc. split; [reflexivity|lia].
      * apply str_eqb_neq in Hn. exists k. rewrite Hst, app_nil_r.
        split; [reflexivity|]. intros [?|Hin]; [congruence|auto].
Qed.

Lemma fail_all_effect entries requested : forall st,
  index (fail_all entries requested st) = index st /\
  vector_refs (fail_all entries requested st) = vector_refs st /\
  total_doc_uploads (fail_all entries requested st) = total_doc_uploads st /\
  sink (fail_all entries requested st) = sink st ++ failure_calls entries requested.
Proof.
  unfold fail_all, failure_calls.
  induction requested as [|kv requested IH]; intros st; cbn [fold_left flat_map].
  - now rewrite app_nil_r.
  - destruct (IH (_fail entries (fst kv) INDEX_BUILD_FAILED st)) as (Hi & Hr & Hu & Hs).
    rewrite Hi, Hr, Hu, Hs. cbn [index vector_refs total_doc_uploads sink _fail].
    now rewrite <- app_assoc.
Qed.

Lemma report_all_uploads entries items : forall st,
  total_doc_uploads (report_all entries items st)
  = total_doc_uploads st
    + len (filter (fun kv : str * list DocumentChunk => snd kv <> []) items) /\
  vector_refs (report_all entries items st) = vector_refs st.
Proof.
  unfold report_all.
  induction items as [|kv items IH]; intros st; cbn [fold_left].
  - rewrite filter_nil. change (len []) with 0. split; [lia|reflexivity].
  - match goal with |- context [fold_left ?f items ?s] =>
      destruct (IH s) as [Hu Hr] end.
    rewrite Hu, Hr, filter_cons. destruct kv as [k [|c l]]; cbn [snd fst].
    + rewrite decide_False by congruence. simpl. split; reflexivity.
    + rewrite decide_True by congruence.
      replace (0 <? len (c :: l)) with true
        by (symmetry; apply Z.ltb_lt; unfold len; simpl; lia).
      cbn [total_doc_uploads vector_refs _complete record_doc_upload].
      split; [|reflexivity]. unfold len. simpl length. lia.
Qed.

(** The job appends to the sink: first what the first loop reports, then
    what the section's outcome leads to. *)
Lemma job_outcome L S W fuel entries st st' :
  _run_vectorize_job L S W fuel entries st = Some (Ok tt, st') ->
  exists requested st0,
    collect_requested L W entries
      (map filename (filter (fun e => filename e <> []) entries)) [] st
    = (Ok requested, st0) /\
    ((requested = [] /\ st' = st0) \/
     (exists e st1, indexing_section L S W fuel requested st0 = Some (Raise e, st1) /\
                    st' = fail_all entries requested st1) \/
     (exists m st1, indexing_section L S W fuel requested st0 = Some (Ok m, st1) /\
                    st' = report_all entries m st1)).
Proof.
  unfold _run_vectorize_job. intros H.
  destruct (map filename (filter (fun e => filename e <> []) entries))
    as [|f fs] eqn:Hnames.
  { injection H as <-. exists [], st. split; [reflexivity|]. now left. }
  destruct (collect_requested L W entries (f :: fs) [] st) as [[requested|e0] st0]
    eqn:Hreq; [|discriminate].
  exists requested, st0. split; [reflexivity|].
  destruct requested as [|kv requested'].
  { injection H as <-. now left. }
  destruct (indexing_section L S W fuel (kv :: requested') st0)
    as [[[m|e1] st1]|]; [| |discriminate]; injection H as <-; right.
  - right. eauto.
  - left. eauto.
Qed.

Lemma last_repeat {A} (x : A) (l : list A) (k : nat) :
  (0 < k)%nat -> last (l ++ repeat x k) = Some x.
Proof.
  intros Hk. destruct k as [|k]; [lia|].
  change (repeat x (S k)) with (x :: repeat x k).
  rewrite repeat_cons, app_assoc. apply last_snoc.
Qed.

(** X14.  A document of the batch that the store does not hold, or whose
    extension is not supported, ends as failed, with the reason
    ["文件不存在"] or ["不支持的文件类型: {ext or 'unknown'}"] and the job id
    of its entry, whatever happens to the rest of the batch. *)
Theorem rejected_document_failed (L : lib) (S : Settings) (W : world)
  (fuel : nat) (entries : list entry) (st st' : state) (name reason : str) :
  _run_vectorize_job L S W fuel entries st = Some (Ok tt, st') ->
  In name (map filename (filter (fun e => filename e <> []) entries)) ->
  rejection L W name = Some reason ->
  last_status (sink st') name = Some (failure_report entries name reason).
Proof.
  intros Hjob Hin Hrej.
  destruct (job_outcome _ _ _ _ _ _ _ Hjob) as (requested & st0 & Hreq & Hcase).
  destruct (collect_requested_rejected L W entries name reason _ Hrej _ _ _ _ Hreq)
    as (Hkeys & k & Hst & Hk).
  assert (Hout : ~ In name (map fst requested)) by (intros Hx; now apply Hkeys in Hx).
  unfold last_status.
  destruct Hcase as [[-> ->]|[(e & st1 & Hsec & ->)|(m & st1 & Hsec & ->)]].
  - rewrite Hst. apply last_repeat. auto.
  - destruct (fail_all_effect entries requested st1) as (_ & _ & _ & Hs).
    destruct (indexing_section_frame _ _ _ _ _ _ _ _ Hsec) as [Hs1 _].
    rewrite Hs, Hs1, statuses_of_app. unfold failure_calls.
    rewrite (statuses_of_pairs
               (fun kv : str * payload =>
                  failure_report entries (fst kv) INDEX_BUILD_FAILED))
      by reflexivity.
    rewrite filter_key_absent by exact Hout. simpl. rewrite app_nil_r, Hst.
    apply last_repeat. auto.
  - destruct (report_all_effect entries m st1) as [_ Hs].
    destruct (indexing_section_frame _ _ _ _ _ _ _ _ Hsec) as [Hs1 _].
    destruct (indexing_section_ok _ _ _ _ _ _ _ _ Hsec) as (chunks & rows1 & Hm & _).
    rewrite Hs, Hs1, statuses_of_app.
    rewrite statuses_of_absent.
    + rewrite app_nil_r, Hst. apply last_repeat. auto.
    + rewrite Hm, fold_attribute_keys, map_map. exact Hout.
Qed.

(** The theorem at a batch that names [gone.txt], which the store does not
    hold. *)
Lemma rejected_document_failed_witness :
  exists st',
    _run_vectorize_job sample_lib default_settings calm 10 batch_missing before
    = Some (Ok tt, st') /\
    last_status (sink st') (lit "gone.txt")
    = Some (failure_report batch_missing (lit "gone.txt") NO_SUCH_FILE).
Proof.
  eexists. split; [reflexivity|].
  apply (rejected_document_failed sample_lib default_settings calm 10 batch_missing
           before _ (lit "gone.txt") NO_SUCH_FILE); [reflexivity| |reflexivity].
  right. now left.
Defined.

(** ** A batch whose indexing section raises *)

Lemma in_keys_item {V} (items : list (str * V)) name :
  In name (map fst items) -> exists v, In (name, v) items.
Proof.
  intros H. apply in_map_iff in H as ([k v] & <- & Hin). now exists v.
Qed.

(** X15.  When anything inside the indexing section raises (loading, the
    upsert, the delete or the reference update), the job still returns;
    every document that was requested, whether it was the cause or not,
    ends as failed with the reason ["索引构建失败"]; and no upload is
    counted. *)
Theorem failed_section_fails_batch (L : lib) (S : Settings) (W : world)
  (fuel : nat) (entries : list entry) (st st0 st1 : state)
  (requested : list (str * payload)) (e : exn) :
  collect_requested L W entries
    (map filename (filter (fun e => filename e <> []) entries)) [] st
  = (Ok requested, st0) ->
  indexing_section L S W fuel requested st0 = Some (Raise e, st1) ->
  exists st',
    _run_vectorize_job L S W fuel entries st = Some (Ok tt, st') /\
    total_doc_uploads st' = total_doc_uploads st /\
    forall name, In name (map fst requested) ->
      last_status (sink st') name
      = Some (failure_report entries name INDEX_BUILD_FAILED).
Proof.
  intros Hreq Hsec.
  destruct (collect_requested_keys _ _ _ _ _ _ _ _ Hreq (NoDup_nil_2)) as (Hnd & _ & _).
  destruct (collect_requested_frame _ _ _ _ _ _ _ _ Hreq) as (_ & _ & Hup0).
  destruct (indexing_section_frame _ _ _ _ _ _ _ _ Hsec) as [Hs1 Hup1].
  destruct requested as [|kv requested'].
  - exists st0. split; [|split; [exact Hup0|intros name []]].
    unfold _run_vectorize_job.
    destruct (map filename (filter (fun e => filename e <> []) entries)).
    + simpl in Hreq. now injection Hreq as <-.
    + now rewrite Hreq.
  - set (requested := kv :: requested') in *.
    exists (fail_all entries requested st1).
    destruct (fail_all_effect entries requested st1) as (_ & _ & Hu & Hs).
    split; [|split].
    + unfold _run_vectorize_job.
      destruct (map filename (filter (fun e => filename e <> []) entries)).
      * simpl in Hreq. injection Hreq as Hreq _. discriminate Hreq.
      * rewrite Hreq. unfold requested in *. now rewrite Hsec.
    + rewrite Hu, Hup1. exact Hup0.
    + intros name Hin. destruct (in_keys_item _ _ Hin) as [v Hv].
      rewrite Hs. apply last_status_app. unfold failure_calls.
      rewrite (statuses_of_pairs
                 (fun kv : str * payload =>
                    failure_report entries (fst kv) INDEX_BUILD_FAILED))
        by reflexivity.
      now rewrite (filter_key_NoDup requested name v Hnd Hv).
Qed.

(** The theorem at [batch] when the embedding call of the upsert is rate
    limited to the end. *)
Lemma failed_section_fails_batch_witness :
  exists st',
    _run_vectorize_job sample_lib default_settings throttled 10 batch before
    = Some (Ok tt, st') /\
    total_doc_uploads st' = total_doc_uploads before /\
    forall name, In name (map fst [(lit "a.txt", doc_a); (lit "b.txt", doc_b)]) ->
      last_status (sink st') name
      = Some (failure_report batch name INDEX_BUILD_FAILED).
Proof.
  apply (failed_section_fails_batch sample_lib default_settings throttled 10 batch
           before before before [(lit "a.txt", doc_a); (lit "b.txt", doc_b)]
           (Exn RateLimitError (lit "429"))); reflexivity.
Defined.

(** ** The chunk map *)

Lemma map_other_keys {V} (g : V -> V) (d : list (str * V)) k :
  ~ In k (map fst d) ->
  map (fun kv => (fst kv, if decide (fst kv = k) then g (snd kv) else snd kv)) d = d.
Proof.
  induction d as [|[k' w] d IH]; intros Hk; [reflexivity|].
  cbn [map fst snd In] in *. rewrite decide_False by tauto.
  rewrite IH by tauto. reflexivity.
Qed.

Lemma attribute_chunk_map (d : list (str * list DocumentChunk)) c :
  NoDup (map fst d) ->
  attribute_chunk d c
  = map (fun kv => (fst kv, if decide (fst kv = dc_source c)
                            then snd kv ++ [c] else snd kv)) d.
Proof.
  unfold attribute_chunk. induction d as [|[k w] d IH]; intros Hnd; [reflexivity|].
  cbn [map fst] in Hnd. apply NoDup_cons in Hnd as [Hk Hnd].
  rewrite list_elem_of_In in Hk.
  cbn [dict_get map fst snd]. destruct (str_eqb k (dc_source c)) eqn:Heq.
  - apply str_eqb_eq in Heq. subst k.
    cbn [dict_set]. unfold str_eqb at 1. rewrite bool_decide_eq_true_2 by reflexivity.
    rewrite decide_True by reflexivity.
    now rewrite (map_other_keys (fun l => l ++ [c]) d (dc_source c) Hk).
  - pose proof Heq as Hne. apply str_eqb_neq in Hne.
    rewrite decide_False by exact Hne. specialize (IH Hnd).
    destruct (dict_get d (dc_source c)) as [l|].
    + cbn [dict_set]. rewrite Heq. now rewrite IH.
    + now rewrite <- IH.
Qed.

Lemma chunks_of_snoc name done c :
  chunks_of name (done ++ [c])
  = chunks_of name done ++ (if decide (name = dc_source c) then [c] else []).
Proof.
  unfold chunks_of. rewrite filter_app, filter_cons, filter_nil.
  destruct (decide (dc_source c = name)), (decide (name = dc_source c));
    congruence.
Qed.

(** The chunk map keeps the requested names in order, each with the loaded
    chunks whose source it is, in load order. *)
Lemma chunk_map_spec (requested : list (str * payload)) (chunks : list DocumentChunk) :
  NoDup (map fst requested) ->
  fold_left attribute_chunk chunks
            (map (fun kv => (fst kv, @nil DocumentChunk)) requested)
  = map (fun kv => (fst kv, chunks_of (fst kv) chunks)) requested.
Proof.
  intros Hnd.
  assert (H : forall rest done,
            fold_left attribute_chunk rest
              (map (fun kv : str * payload => (fst kv, chunks_of (fst kv) done))
                   requested)
            = map (fun kv : str * payload => (fst kv, chunks_of (fst kv) (done ++ rest)))
                  requested).
  { induction rest as [|c rest IH]; intros done; cbn [fold_left].
    - now rewrite app_nil_r.
    - rewrite attribute_chunk_map by (now rewrite map_map).
      rewrite map_map. cbn [fst snd].
      replace (done ++ c :: rest) with ((done ++ [c]) ++ rest)
        by now rewrite <- app_assoc.
      rewrite <- IH. f_equal. apply map_ext. intros kv.
      rewrite chunks_of_snoc. destruct (decide (fst kv = dc_source c)).
      + reflexivity.
      + now rewrite app_nil_r. }
  apply (H chunks []).
Qed.

(** What a section that ends without an exception has done, step by
    step. *)
Lemma indexing_section_trace L S W fuel requested st0 m st1 :
  NoDup (map fst requested) ->
  indexing_section L S W fuel requested st0 = Some (Ok m, st1) ->
  exists chunks rows1,
    load_documents L fuel (map snd requested) (chunk_size S) (chunk_overlap S)
                   (chunk_overlap_ratio S) = Some (Ok chunks) /\
    m = map (fun kv => (fst kv, chunks_of (fst kv) chunks)) requested /\
    match filter (fun kv => match snd kv with [] => false | _ => true end = true) m with
    | [] => rows1 = index st0
    | upsert_payload => upsert_documents W upsert_payload (index st0) = Ok rows1
    end /\
    match empty_documents m with
    | [] => index st1 = rows1
    | names => delete_documents W names rows1 = Ok (index st1)
    end /\
    update_all_refs W m (vector_refs st0) = Ok (vector_refs st1).
Proof.
  intros Hnd. unfold indexing_section. intros H.
  destruct (load_documents L fuel (map snd requested) (chunk_size S)
              (chunk_overlap S) (chunk_overlap_ratio S)) as [[chunks|e]|];
    try discriminate.
  rewrite (chunk_map_spec requested chunks Hnd) in H.
  set (m0 := map (fun kv => (fst kv, chunks_of (fst kv) chunks)) requested) in *.
  fold (empty_documents m0) in H.
  exists chunks.
  destruct (filter (fun kv => match snd kv with [] => false | _ => true end = true) m0)
    as [|p0 ps] eqn:Hpay.
  - destruct (empty_documents m0) as [|d0 ds] eqn:Hed.
    + destruct (update_all_refs W m0 _) as [refs|e] eqn:Hrefs; [|discriminate].
      injection H as <- <-. exists (index st0). rewrite Hpay, Hed. auto.
    + destruct (delete_documents W (d0 :: ds) (index st0)) as [rows2|e] eqn:Hdel;
        [|discriminate].
      destruct (update_all_refs W m0 _) as [refs|e] eqn:Hrefs; [|discriminate].
      injection H as <- <-. exists (index st0). rewrite Hpay, Hed. auto.
  - destruct (upsert_documents W (p0 :: ps) (index st0)) as [rows1|e] eqn:Hup;
      [|discriminate].
    destruct (empty_documents m0) as [|d0 ds] eqn:Hed.
    + destruct (update_all_refs W m0 _) as [refs|e] eqn:Hrefs; [|discriminate].
      injection H as <- <-. exists rows1. rewrite Hpay, Hed. auto.
    + destruct (delete_documents W (d0 :: ds) rows1) as [rows2|e] eqn:Hdel;
        [|discriminate].
      destruct (update_all_refs W m0 _) as [refs|e] eqn:Hrefs; [|discriminate].
      injection H as <- <-. exists rows1. rewrite Hpay, Hed. auto.
Qed.

(** ** A batch whose indexing section succeeds *)

Lemma chunk_map_keys (requested : list (str * payload)) chunks :
  map fst (map (fun kv : str * payload => (fst kv, chunks_of (fst kv) chunks)) requested)
  = map fst requested.
Proof. now rewrite map_map. Qed.

Lemma chunk_map_item (requested : list (str * payload)) chunks name :
  In name (map fst requested) ->
  In (name, chunks_of name chunks)
     (map (fun kv : str * payload => (fst kv, chunks_of (fst kv) chunks)) requested).
Proof.
  intros H. apply in_map_iff in H as (kv & <- & Hin).
  apply in_map_iff. now exists kv.
Qed.


Lemma nonempty_count (requested : list (str * payload)) chunks :
  len (filter (fun kv : str * list DocumentChunk => snd kv <> [])
              (map (fun kv : str * payload => (fst kv, chunks_of (fst kv) chunks))
                   requested))
  = len (filter (fun kv : str * payload => chunks_of (fst kv) chunks <> []) requested).
Proof.
  induction requested as [|kv requested IH]; [reflexivity|].
  cbn [map]. rewrite !filter_cons. cbn [snd fst].
  unfold len in *.
  destruct (decide (chunks_of (fst kv) chunks <> [])); simpl length; lia.
Qed.

Lemma job_completes L S W fuel entries st requested st0 m st1 :
  collect_requested L W entries
    (map filename (filter (fun e => filename e <> []) entries)) [] st
  = (Ok requested, st0) ->
  indexing_section L S W fuel requested st0 = Some (Ok m, st1) ->
  _run_vectorize_job L S W fuel entries st
  = Some (Ok tt, match requested with [] => st0 | _ => report_all entries m st1 end).
Proof.
  intros Hreq Hsec. unfold _run_vectorize_job.
  destruct (map filename (filter (fun e => filename e <> []) entries)) as [|f fs].
  { simpl in Hreq. now injection Hreq as <- <-. }
  rewrite Hreq. destruct requested as [|kv requested']; [reflexivity|].
  now rewrite Hsec.
Qed.

(** X16.  When the indexing section ends without an exception, the job
    returns and every requested document ends as completed, with the
    number of loaded chunks whose source it is as [chunk_count], and with
    the note ["no_chunks"] exactly when that number is 0; one upload is
    counted per document that has a chunk. *)
Theorem completed_batch_reports (L : lib) (S : Settings) (W : world)
  (fuel : nat) (entries : list entry) (st st0 st1 : state)
  (requested : list (str * payload))
  (doc_chunk_map : list (str * list DocumentChunk)) :
  collect_requested L W entries
    (map filename (filter (fun e => filename e <> []) entries)) [] st
  = (Ok requested, st0) ->
  indexing_section L S W fuel requested st0 = Some (Ok doc_chunk_map, st1) ->
  exists st' chunks,
    _run_vectorize_job L S W fuel entries st = Some (Ok tt, st') /\
    load_documents L fuel (map snd requested) (chunk_size S) (chunk_overlap S)
                   (chunk_overlap_ratio S) = Some (Ok chunks) /\
    total_doc_uploads st'
    = total_doc_uploads st
      + len (filter (fun kv : str * payload => chunks_of (fst kv) chunks <> [])
                    requested) /\
    forall name, In name (map fst requested) ->
      last_status (sink st') name
      = Some {| r_doc := name; r_status := Completed;
                r_job_id := job_of entries name; r_error := None;
                r_chunk_count := Some (len (chunks_of name chunks));
                r_note := match chunks_of name chunks with
                          | [] => Some (lit "no_chunks")
                          | _ => None
                          end |}.
Proof.
  intros Hreq Hsec.
  destruct (collect_requested_keys _ _ _ _ _ _ _ _ Hreq (NoDup_nil_2)) as (Hnd & _ & _).
  destruct (collect_requested_frame _ _ _ _ _ _ _ _ Hreq) as (_ & _ & Hup0).
  destruct (indexing_section_frame _ _ _ _ _ _ _ _ Hsec) as [Hs1 Hup1].
  destruct (indexing_section_trace _ _ _ _ _ _ _ _ Hnd Hsec)
    as (chunks & rows1 & Hload & Hm & _).
  eexists _, chunks. split; [eapply job_completes; eauto|].
  split; [exact Hload|].
  destruct requested as [|kv requested'].
  { split; [|intros name []]. rewrite filter_nil. change (len []) with 0. lia. }
  set (requested := kv :: requested') in *.
  destruct (report_all_effect entries doc_chunk_map st1) as [_ Hs].
  destruct (report_all_uploads entries doc_chunk_map st1) as [Hu _].
  split.
  - rewrite Hu, Hup1, Hup0, Hm. now rewrite nonempty_count.
  - intros name Hin. rewrite Hs. apply last_status_app.
    rewrite (statuses_of_reports entries doc_chunk_map name (chunks_of name chunks)).
    + unfold completion_report. cbn [fst snd].
      destruct (chunks_of name chunks) as [|c l]; [reflexivity|].
      replace (0 <? len (c :: l)) with true
        by (symmetry; apply Z.ltb_lt; unfold len; simpl; lia).
      reflexivity.
    + rewrite Hm, chunk_map_keys. exact Hnd.
    + rewrite Hm. now apply chunk_map_item.
Qed.

(** The theorem at [batch] in the calm world: [a.txt] has one chunk and
    [b.txt] none, one upload is counted. *)
Lemma completed_batch_reports_witness :
  exists st' chunks,
    _run_vectorize_job sample_lib default_settings calm 10 batch before
    = Some (Ok tt, st') /\
    load_documents sample_lib 10 (map snd [(lit "a.txt", doc_a); (lit "b.txt", doc_b)])
                   (chunk_size default_settings) (chunk_overlap default_settings)
                   (chunk_overlap_ratio default_settings) = Some (Ok chunks) /\
    total_doc_uploads st'
    = total_doc_uploads before
      + len (filter (fun kv : str * payload => chunks_of (fst kv) chunks <> [])
                    [(lit "a.txt", doc_a); (lit "b.txt", doc_b)]) /\
    forall name, In name (map fst [(lit "a.txt", doc_a); (lit "b.txt", doc_b)]) ->
      last_status (sink st') name
      = Some {| r_doc := name; r_status := Completed;
                r_job_id := job_of batch name; r_error := None;
                r_chunk_count := Some (len (chunks_of name chunks));
                r_note := match chunks_of name chunks with
                          | [] => Some (lit "no_chunks")
                          | _ => None
                          end |}.
Proof.
  apply (completed_batch_reports sample_lib default_settings calm 10 batch
           before before
           {| index := [row_of (make_chunk (lit "a") (lit "a.txt") (lit ".txt") 0 (lit "x"))];
              sink := [];
              vector_refs := [(lit "a.txt", [lit "a-0"]); (lit "b.txt", [])];
              total_doc_uploads := 0 |}
           [(lit "a.txt", doc_a); (lit "b.txt", doc_b)] batch_chunks); reflexivity.
Defined.

(** ** The index after an upsert *)

Lemma insert_row_in r rows : In r (insert_row r rows).
Proof.
  induction rows as [|r' rows IH]; simpl; [now left|].
  destruct (str_eqb (chunk_id r') (chunk_id r)); [now left|now right].
Qed.

Lemma insert_row_keeps r rows x :
  In x rows -> chunk_id x <> chunk_id r -> In x (insert_row r rows).
Proof.
  intros Hx Hne. induction rows as [|r' rows IH]; [destruct Hx|].
  simpl. destruct (str_eqb (chunk_id r') (chunk_id r)) eqn:Heq.
  - apply str_eqb_eq in Heq. destruct Hx as [->|Hx]; [congruence|now right].
  - destruct Hx as [->|Hx]; [now left|right; auto].
Qed.

Lemma insert_row_from r rows x :
  In x (insert_row r rows) -> x = r \/ In x rows.
Proof.
  induction rows as [|r' rows IH]; simpl.
  - intros [<-|[]]. now left.
  - destruct (str_eqb (chunk_id r') (chunk_id r)).
    + intros [<-|Hx]; [now left|right; now right].
    + intros [<-|Hx]; [right; now left|].
      destruct (IH Hx); [now left|right; now right].
Qed.

Lemma insert_rows_from new : forall rows x,
  In x (fold_left (fun acc r => insert_row r acc) new rows) ->
  In x rows \/ In x new.
Proof.
  induction new as [|r new IH]; intros rows x Hx; cbn [fold_left] in Hx;
    [now left|].
  apply IH in Hx as [Hx|Hx]; [|right; now right].
  apply insert_row_from in Hx as [->|Hx]; [right; now left|now left].
Qed.

Lemma insert_rows_keep new : forall rows x,
  In x rows -> ~ In (chunk_id x) (map chunk_id new) ->
  In x (fold_left (fun acc r => insert_row r acc) new rows).
Proof.
  induction new as [|r new IH]; intros rows x Hx Hid; cbn [fold_left];
    [exact Hx|].
  cbn [map In] in Hid. apply IH; [|tauto].
  apply insert_row_keeps; [exact Hx|]. intros Heq. apply Hid. left.
  symmetry. exact Heq.
Qed.

(** The last row sent under a [chunk_id] is the one the table keeps. *)
Lemma insert_rows_last l1 r l2 rows :
  ~ In (chunk_id r) (map chunk_id l2) ->
  In r (fold_left (fun acc r => insert_row r acc) (l1 ++ r :: l2) rows).
Proof.
  intros Hid. rewrite fold_left_app. cbn [fold_left].
  apply insert_rows_keep; [apply insert_row_in|exact Hid].
Qed.



Lemma has_duplicates_false keys : has_duplicates keys = false -> NoDup keys.
Proof.
  unfold has_duplicates. intros H. apply negb_false_iff in H.
  now apply bool_decide_eq_true in H.
Qed.

(** The pages are the rows, cut. *)
Lemma paginate_concat {A} (page_size : nat) :
  (0 < page_size)%nat ->
  forall fuel (seq : list A),
    (length seq <= fuel)%nat -> concat (paginate page_size fuel seq) = seq.
Proof.
  intros Hpos. induction fuel as [|fuel IH]; intros seq Hlen.
  - destruct seq; [reflexivity|simpl in Hlen; lia].
  - destruct seq as [|a seq]; [reflexivity|].
    cbn [paginate concat]. rewrite IH; [apply take_drop|].
    rewrite length_drop. simpl in *. lia.
Qed.

Lemma pages_concat {A} (seq : list A) : concat (pages seq) = seq.
Proof. apply paginate_concat; unfold PAGE_SIZE; lia. Qed.

(** Pages that are all taken are taken row by row, and none of them names
    a [chunk_id] twice. *)
Lemma insert_pages_spec todo : forall rows rows',
  insert_pages todo rows = Ok rows' ->
  rows' = fold_left (fun acc r => insert_row r acc) (concat todo) rows /\
  forall page, In page todo -> NoDup (map chunk_id page).
Proof.
  induction todo as [|page todo IH]; intros rows rows' H; cbn [insert_pages] in H.
  - injection H as <-. split; [reflexivity|intros page []].
  - unfold insert_page in H.
    destruct (has_duplicates (map chunk_id page)) eqn:Hdup; [discriminate|].
    apply has_duplicates_false in Hdup. cbn [bind] in H.
    apply IH in H as [-> Hall]. split.
    + cbn [concat]. now rewrite fold_left_app.
    + intros p [<-|Hp]; auto.
Qed.

Lemma delete_rows_spec targets rows r :
  In r (delete_rows targets rows) <-> In r rows /\ ~ In (document_id r) targets.
Proof.
  unfold delete_rows, str_in. split.
  - intros Hr. apply list_elem_of_In, list_elem_of_filter in Hr as [Hf Hr].
    split; [now apply list_elem_of_In|]. intros Hin.
    assert (existsb (str_eqb (document_id r)) targets = true); [|congruence].
    apply existsb_exists. exists (document_id r). split; [exact Hin|].
    now apply str_eqb_eq.
  - intros [Hr Hout]. apply list_elem_of_In, list_elem_of_filter.
    split; [|now apply list_elem_of_In].
    destruct (existsb (str_eqb (document_id r)) targets) eqn:He; [|reflexivity].
    apply existsb_exists in He as (t & Ht & Heq). apply str_eqb_eq in Heq.
    subst t. tauto.
Qed.

(** What a successful upsert leaves in the table, with [targets] the names
    of the map that are not empty and have chunks, [ordered] their chunks
    and [written] the chunks that [zip] pairs with a row of the embedding
    matrix. *)
Lemma upsert_documents_rows (W : world)
  (chunk_map : list (str * list DocumentChunk)) (rows rows' : list row) :
  let kept := filter (fun kv => negb (str_eqb (fst kv) []) &&
                                match snd kv with [] => false | _ => true end = true)
                     chunk_map in
  let targets := map fst kept in
  let ordered := flat_map snd kept in
  upsert_documents W chunk_map rows = Ok rows' ->
  exists written,
    (ordered = [] /\ written = [] \/
     ordered <> [] /\
     exists n, embed_rows W (map dc_text ordered) = Ok n /\ written = take n ordered) /\
    (forall page, In page (pages (map row_of written)) -> NoDup (map chunk_id page)) /\
    (forall r, In r rows' ->
       (exists c, In c written /\ r = row_of c) \/
       (In r rows /\ ~ In (document_id r) targets)) /\
    (forall before c after,
       written = before ++ c :: after -> ~ In (dc_id c) (map dc_id after) ->
       In (row_of c) rows') /\
    (forall r, In r rows -> ~ In (document_id r) targets ->
       ~ In (chunk_id r) (map dc_id written) -> In r rows').
Proof.
  intros kept targets ordered H. unfold upsert_documents in H.
  fold kept in H.
  assert (Hspec : forall k l, In (k, l) kept -> l <> []).
  { intros k l Hin. apply list_elem_of_In in Hin. unfold kept in Hin.
    apply list_elem_of_filter in Hin as [Hp _]. cbn [fst snd] in Hp.
    destruct l; [now rewrite andb_false_r in Hp|discriminate]. }
  subst targets ordered. clearbody kept.
  destruct (flat_map snd kept) as [|c0 ordered'] eqn:Hord.
  - assert (Hk : kept = []).
    { destruct kept as [|[k l] kept']; [reflexivity|].
      specialize (Hspec k l ltac:(now left)).
      destruct l; [congruence|discriminate Hord]. }
    subst kept. cbn [map] in *. injection H as <-. exists [].
    split; [now left|]. split; [intros page []|]. split; [|split].
    + intros r Hr. right. split; [exact Hr|intros []].
    + intros before c after Heq. now destruct before.
    + auto.
  - destruct (embed_rows W (map dc_text (c0 :: ordered'))) as [n|e] eqn:Hemb;
      [|discriminate].
    cbn [bind] in H. destruct (upsert_fault W); [discriminate|].
    set (written := take n (c0 :: ordered')) in *.
    apply insert_pages_spec in H as [-> Hpages]. rewrite pages_concat.
    exists written. split; [right; split; [discriminate|now exists n]|].
    split; [exact Hpages|]. split; [|split].
    + intros r Hr. apply insert_rows_from in Hr as [Hr|Hr].
      * right. now apply delete_rows_spec in Hr.
      * left. apply in_map_iff in Hr as (c & <- & Hc). now exists c.
    + intros before c after Heq Hid. rewrite Heq, map_app. cbn [map].
      apply insert_rows_last. now rewrite map_map.
    + intros r Hr Hdoc Hid. apply insert_rows_keep.
      * apply delete_rows_spec. auto.
      * now rewrite map_map.
Qed.

(** X17.  An upsert that succeeds replaces: write [targets] for the names
    of the map that are not empty and have chunks, [ordered] for their
    chunks, and [written] for the chunks that [zip] pairs with a row of the
    embedding matrix: the first [n] of [ordered] when the matrix has [n]
    rows.  No page of 100 of the rows written names a [chunk_id] twice.
    Every row left in the table is the row of a chunk of [written], or an
    old row of a document that is no target.  A chunk of [written] that no
    later one shares its [chunk_id] with has its row in the table.  And an
    old row of a document that is no target stays unless a written chunk
    takes its [chunk_id]. *)
Theorem upsert_replaces_targets (W : world)
  (chunk_map : list (str * list DocumentChunk)) (rows rows' : list row) :
  let kept := filter (fun kv => negb (str_eqb (fst kv) []) &&
                                match snd kv with [] => false | _ => true end = true)
                     chunk_map in
  let targets := map fst kept in
  let ordered := flat_map snd kept in
  upsert_documents W chunk_map rows = Ok rows' ->
  exists written,
    (ordered = [] /\ written = [] \/
     ordered <> [] /\
     exists n, embed_rows W (map dc_text ordered) = Ok n /\ written = take n ordered) /\
    (forall page, In page (pages (map row_of written)) -> NoDup (map chunk_id page)) /\
    (forall r, In r rows' ->
       (exists c, In c written /\ r = row_of c) \/
       (In r rows /\ ~ In (document_id r) targets)) /\
    (forall before c after,
       written = before ++ c :: after -> ~ In (dc_id c) (map dc_id after) ->
       In (row_of c) rows') /\
    (forall r, In r rows -> ~ In (document_id r) targets ->
       ~ In (chunk_id r) (map dc_id written) -> In r rows').
Proof.
  intros kept targets ordered H.
  exact (upsert_documents_rows W chunk_map rows rows' H).
Qed.

(** The theorem at a table that holds a row of [b.txt] and an upsert of the
    one chunk of [a.txt]. *)
Lemma upsert_replaces_targets_witness :
  exists written,
    ([mk_chunk (lit "a-0") (lit "a.txt") (lit "x")] = [] /\ written = [] \/
     [mk_chunk (lit "a-0") (lit "a.txt") (lit "x")] <> [] /\
     exists n, embed_rows calm (map dc_text [mk_chunk (lit "a-0") (lit "a.txt") (lit "x")])
               = Ok n /\
               written = take n [mk_chunk (lit "a-0") (lit "a.txt") (lit "x")]) /\
    (forall page, In page (pages (map row_of written)) -> NoDup (map chunk_id page)) /\
    (forall r, In r [stale; row_of (mk_chunk (lit "a-0") (lit "a.txt") (lit "x"))] ->
       (exists c, In c written /\ r = row_of c) \/
       (In r [stale] /\ ~ In (document_id r) [lit "a.txt"])) /\
    (forall before c after,
       written = before ++ c :: after -> ~ In (dc_id c) (map dc_id after) ->
       In (row_of c) [stale; row_of (mk_chunk (lit "a-0") (lit "a.txt") (lit "x"))]) /\
    (forall r, In r [stale] -> ~ In (document_id r) [lit "a.txt"] ->
       ~ In (chunk_id r) (map dc_id written) ->
       In r [stale; row_of (mk_chunk (lit "a-0") (lit "a.txt") (lit "x"))]).
Proof.
  apply (upsert_replaces_targets calm
           [(lit "a.txt", [mk_chunk (lit "a-0") (lit "a.txt") (lit "x")])]
           [stale] [stale; row_of (mk_chunk (lit "a-0") (lit "a.txt") (lit "x"))]).
  reflexivity.
Defined.

(** Two chunks of one [chunk_id] in one page: the statement is refused and
    the upsert raises. *)
Example upsert_same_page_refused :
  upsert_documents calm
    [(lit "a.txt", [mk_chunk (lit "a-0") (lit "a.txt") (lit "x");
                    mk_chunk (lit "a-0") (lit "a.txt") (lit "y")])]
    [stale]
  = raise OtherError.
Proof. reflexivity. Qed.

(** A hundred and one chunks, the last one under the [chunk_id] of the
    first: they go in two statements, the upsert succeeds, and the row of
    the last chunk has overwritten the row of the first. *)
Example upsert_later_page_overwrites :
  exists rows',
    upsert_documents calm [(lit "a.txt", Cases.two_pages)] [stale] = Ok rows' /\
    length rows' = 101%nat /\
    map (fun r => dc_text (row_chunk r))
        (filter (fun r => chunk_id r = lit "a-0") rows') = [lit "y"].
Proof.
  eexists. split; [vm_compute; reflexivity|]. split; vm_compute; reflexivity.
Qed.

(** With a matrix of one row for two chunks, [zip] writes the first chunk
    only, and the upsert succeeds. *)
Example upsert_short_matrix :
  upsert_documents
    {| get_document := stored; embed_rows := fun _ => Ok 1%nat;
       upsert_fault := None; delete_fault := None; refs_fault := fun _ => None |}
    [(lit "a.txt", [mk_chunk (lit "a-0") (lit "a.txt") (lit "x");
                    mk_chunk (lit "a-1") (lit "a.txt") (lit "y")])]
    [stale]
  = Ok [stale; row_of (mk_chunk (lit "a-0") (lit "a.txt") (lit "x"))].
Proof. reflexivity. Qed.

(** ** The index and the references after a job *)






Section AfterJob.
Variables (L : lib) (S : Settings) (W : world) (fuel : nat).
Variables (entries : list entry) (st st0 st1 : state).
Variables (requested : list (str * payload)).
Variable doc_chunk_map : list (str * list DocumentChunk).
Hypothesis Hreq :
  collect_requested L W entries
    (map filename (filter (fun e => filename e <> []) entries)) [] st
  = (Ok requested, st0).
Hypothesis Hsec :
  indexing_section L S W fuel requested st0 = Some (Ok doc_chunk_map, st1).



End AfterJob.



End JobFacts.

(* ===================================================================== *)
(** * Facts: the streaming path against [handle]                           *)
(* ===================================================================== *)

Module StreamFacts.
Import Py Models Agents Stream Reports Samples Cases.

Lemma meta_source_attribution (h : RetrievedChunk) :
  meta_source h = source_json (attribution h).
Proof. reflexivity. Qed.

(** X19.  The streaming path agrees with [handle] on what was retrieved.
    Whenever [handle] computes a response for a request (the cache-hit flag
    is false), [handle_stream] on that request first yields the header
    ["__META__" + json], whose ["sources"] are the sources of that
    response, each with its source, snippet and score.  When the response
    has no source, the header says ["low_relevance": true], the one chunk
    after it is the answer of the response, the fallback text, and the
    stream ends there; otherwise the header has no ["low_relevance"] and
    what follows is the model's stream for the hits that passed the
    gate. *)
Theorem stream_agrees_with_handle (L : lib) (P : prompts) (S : Settings)
  (W : world) (dumps : json -> str)
  (generate_answer_stream : str -> list RetrievedChunk -> option Z -> yielded)
  (cache cache' : gmap str QueryResponse) (req : QueryRequest)
  (resp : QueryResponse) :
  handle L P S W cache req = Ok (resp, false, cache') ->
  exists meta rest ending,
    handle_stream L P S W dumps generate_answer_stream req
    = ((META ++ dumps (JDict meta)) :: rest, ending) /\
    dict_get meta (lit "sources") = Some (JList (map source_json (sources resp))) /\
    (sources resp = [] ->
     dict_get meta (lit "low_relevance") = Some (JBool true) /\
     rest = [answer resp] /\ ending = None) /\
    (sources resp <> [] ->
     dict_get meta (lit "low_relevance") = None /\
     exists hits,
       map attribution hits = sources resp /\
       (rest, ending) = generate_answer_stream (query req) hits (max_tokens req)).
Proof.
  intros H. unfold handle in H. unfold handle_stream.
  destruct (_cache_key L req) as [key|e]; [|discriminate]. cbn [bind] in H.
  destruct (if cache_enabled S then cache !! key else None) as [cached|];
    [discriminate|].
  destruct (rag_retrieve W (query req) (top_k req)) as [hits|e]; [|discriminate].
  cbn [bind] in H.
  destruct (_apply_relevance_threshold S hits) as [filtered best].
  destruct filtered as [|h filtered].
  - injection H as <- _. eexists _, _, _. split; [reflexivity|].
    split; [reflexivity|]. split; [auto|]. intros Hne. now contradiction Hne.
  - destruct (match lc_rag_answer W with
              | Some lc => lc (query req)
              | None => rag_generate_answer W (query req) (h :: filtered)
                                            (max_tokens req)
              end) as [text|e]; [|discriminate].
    cbn [bind] in H. injection H as <- _.
    destruct (generate_answer_stream (query req) (h :: filtered) (max_tokens req))
      as [chunks ending] eqn:Hgen.
    exists (answer_meta (h :: filtered) best), chunks, ending.
    split; [reflexivity|]. split.
    { change (dict_get (answer_meta (h :: filtered) best) (lit "sources"))
        with (Some (JList (map meta_source (h :: filtered)))).
      cbn [sources]. change (attribution h :: map attribution filtered)
        with (map attribution (h :: filtered)).
      now rewrite map_map. }
    split; [discriminate|].
    intros _. split; [reflexivity|]. exists (h :: filtered).
    split; [reflexivity|]. now rewrite Hgen.
Qed.

(** The theorem at the default settings, an empty cache and one strong
    hit. *)
Lemma stream_agrees_with_handle_witness :
  exists meta rest ending,
    handle_stream sample_lib sample_prompts default_settings strong_world
                  no_dumps two_chunks (ask None false)
    = ((META ++ no_dumps (JDict meta)) :: rest, ending) /\
    dict_get meta (lit "sources")
    = Some (JList (map source_json (sources first_answer))) /\
    (sources first_answer = [] ->
     dict_get meta (lit "low_relevance") = Some (JBool true) /\
     rest = [answer first_answer] /\ ending = None) /\
    (sources first_answer <> [] ->
     dict_get meta (lit "low_relevance") = None /\
     exists hits,
       map attribution hits = sources first_answer /\
       (rest, ending) = two_chunks (query (ask None false)) hits
                                   (max_tokens (ask None false))).
Proof.
  apply (stream_agrees_with_handle sample_lib sample_prompts default_settings
           strong_world no_dumps two_chunks ∅
           (<[cache_key_raw (ask None false) := first_answer]> ∅)
           (ask None false) first_answer).
  reflexivity.
Defined.

End StreamFacts.

(* ===================================================================== *)
(** * Facts: the latency window and the counters                           *)
(* ===================================================================== *)

Module MetricsFacts.
Import Py Metrics.

Lemma deque_append_window (w : nat) (prev : list float) (x : float) :
  deque_append (Z.of_nat w) (drop (length prev - w) prev) x
  = drop (length (prev ++ [x]) - w) (prev ++ [x]).
Proof.
  unfold deque_append, len. rewrite !length_app, length_drop. simpl length.
  destruct (Z.ltb_spec (Z.of_nat w) (Z.of_nat (length prev - (length prev - w) + 1)))
    as [Hfull|Hroom].
  - assert (Hw : (w <= length prev)%nat) by lia.
    replace (length prev + 1 - w)%nat with (S (length prev - w)) by lia.
    destruct w as [|w].
    + rewrite Nat.sub_0_r, drop_all. simpl.
      now rewrite drop_ge by (rewrite length_app; simpl; lia).
    + replace (S (length prev - S w)) with (length prev - S w + 1)%nat by lia.
      rewrite <- drop_drop.
      now rewrite (drop_app_le prev [x]) by lia.
  - replace (length prev - w)%nat with 0%nat by lia.
    replace (length prev + 1 - w)%nat with 0%nat by lia.
    reflexivity.
Qed.

Lemma recorded_cons c calls : recorded (c :: calls) = recorded [c] ++ recorded calls.
Proof. unfold recorded. cbn [flat_map]. now rewrite app_nil_r. Qed.

(** What a run keeps true, from any object whose window is the tail of
    what it was handed before. *)
Lemma run_window (w : nat) (calls : list call) : forall (m : metrics) prev,
  latency_window m = Z.of_nat w ->
  latencies_ms m = drop (length prev - w) prev ->
  latency_window (run calls m) = Z.of_nat w /\
  latencies_ms (run calls m)
  = drop (length (prev ++ recorded calls) - w) (prev ++ recorded calls).
Proof.
  induction calls as [|c calls IH]; intros m prev Hw Hl; cbn [run fold_left].
  - now rewrite app_nil_r.
  - rewrite recorded_cons, app_assoc. apply IH.
    + now destruct c.
    + destruct c as [x cached|[x|] count| |]; cbn [step recorded flat_map app];
        rewrite ?app_nil_r; cbn [latencies_ms record_query record_stream
                                   record_doc_upload record_error];
        try exact Hl; rewrite Hw, Hl; apply deque_append_window.
Qed.

Lemma run_counters (calls : list call) : forall m,
  0 <= cache_hits m <= total_queries m ->
  0 <= cache_hits (run calls m) <= total_queries (run calls m) /\
  total_queries (run calls m) - total_queries m
  = len (filter (fun c => is_query c = true) calls).
Proof.
  induction calls as [|c calls IH]; intros m Hm; cbn [run fold_left].
  - rewrite filter_nil. change (len []) with 0. lia.
  - destruct (IH (step m c)) as [Hc Hq].
    { destruct c as [x [|]|? ?| |]; simpl; lia. }
    fold (run calls (step m c)) in *. split; [exact Hc|].
    rewrite filter_cons. unfold len in *.
    destruct c as [x cached|? ?| |]; simpl in *; lia.
Qed.

(** X20.  On a [Metrics] object built with window [w], after any run of
    calls, [latencies_ms] holds the last [w] latencies that the calls
    handed over, in order (all of them while there are fewer), never more
    than [w]; [total_queries] is the number of [record_query] calls; and
    [cache_hits] never exceeds [total_queries]. *)
Theorem metrics_window_and_counters (w : Z) (now : float) (m0 : metrics)
  (calls : list call) :
  __init__ w now = Ok m0 ->
  latencies_ms (run calls m0)
  = drop (length (recorded calls) - Z.to_nat w) (recorded calls) /\
  len (latencies_ms (run calls m0)) <= w /\
  total_queries (run calls m0)
  = len (filter (fun c => is_query c = true) calls) /\
  0 <= cache_hits (run calls m0) <= total_queries (run calls m0).
Proof.
  unfold __init__. destruct (Z.ltb_spec w 0) as [|Hw]; [discriminate|].
  intros [= <-].
  match goal with |- context [run calls ?m] => set (m0 := m) end.
  destruct (run_window (Z.to_nat w) calls m0 []) as [_ Hl].
  { simpl. lia. }
  { reflexivity. }
  destruct (run_counters calls m0) as [Hc Hq]; [simpl; lia|].
  simpl in Hl. split; [exact Hl|]. split; [|split; [simpl in Hq; lia|exact Hc]].
  rewrite Hl. unfold len. rewrite length_drop. lia.
Qed.

(** The theorem at a window of 2 and three queries, the second one
    answered from the cache. *)
Lemma metrics_window_and_counters_witness :
  latencies_ms (run [RecordQuery 5 false; RecordQuery 1 true; RecordQuery 7 false]
                    {| latency_window := 2; latencies_ms := [];
                       total_queries := 0; total_stream_queries := 0;
                       total_doc_uploads := 0; cache_hits := 0; total_errors := 0;
                       last_reset_ts := 0 |})
  = drop (length (recorded [RecordQuery 5 false; RecordQuery 1 true;
                            RecordQuery 7 false]) - Z.to_nat 2)
         (recorded [RecordQuery 5 false; RecordQuery 1 true; RecordQuery 7 false]) /\
  len (latencies_ms (run [RecordQuery 5 false; RecordQuery 1 true; RecordQuery 7 false]
                         {| latency_window := 2; latencies_ms := [];
                            total_queries := 0; total_stream_queries := 0;
                            total_doc_uploads := 0; cache_hits := 0; total_errors := 0;
                            last_reset_ts := 0 |})) <= 2 /\
  total_queries (run [RecordQuery 5 false; RecordQuery 1 true; RecordQuery 7 false]
                     {| latency_window := 2; latencies_ms := [];
                        total_queries := 0; total_stream_queries := 0;
                        total_doc_uploads := 0; cache_hits := 0; total_errors := 0;
                        last_reset_ts := 0 |})
  = len (filter (fun c => is_query c = true)
                [RecordQuery 5 false; RecordQuery 1 true; RecordQuery 7 false]) /\
  0 <= cache_hits (run [RecordQuery 5 false; RecordQuery 1 true; RecordQuery 7 false]
                       {| latency_window := 2; latencies_ms := [];
                          total_queries := 0; total_stream_queries := 0;
                          total_doc_uploads := 0; cache_hits := 0; total_errors := 0;
                          last_reset_ts := 0 |})
  <= total_queries (run [RecordQuery 5 false; RecordQuery 1 true; RecordQuery 7 false]
                        {| latency_window := 2; latencies_ms := [];
                           total_queries := 0; total_stream_queries := 0;
                           total_doc_uploads := 0; cache_hits := 0; total_errors := 0;
                           last_reset_ts := 0 |}).
Proof.
  apply (metrics_window_and_counters 2 0). reflexivity.
Defined.

Example metrics_window_slides :
  latencies_ms (run [RecordQuery 5 false; RecordQuery 1 true; RecordQuery 7 false]
                    {| latency_window := 2; latencies_ms := [];
                       total_queries := 0; total_stream_queries := 0;
                       total_doc_uploads := 0; cache_hits := 0; total_errors := 0;
                       last_reset_ts := 0 |})
  = [1; 7]%float.
Proof. reflexivity. Qed.

End MetricsFacts.

(* ===================================================================== *)
(** * Facts: the in-memory document store                                  *)
(* ===================================================================== *)

Module StorageFacts.
Import Py Storage StrFacts Samples Cases.

Lemma sanitize_ok name base :
  _sanitize name = Ok base ->
  contains name (lit "/") = false /\ contains name (lit "..") = false /\
  base = strip name /\ base <> [].
Proof.
  unfold _sanitize.
  destruct (contains name (lit "/")); [discriminate|].
  destruct (contains name (lit "..")); [discriminate|]. simpl.
  destruct (strip name) as [|c s] eqn:Hs; [discriminate|].
  intros [= <-]. repeat split; discriminate.
Qed.

Lemma contains_strip_false name tok :
  contains name tok = false -> contains (strip name) tok = false.
Proof.
  intros H. destruct (contains (strip name) tok) eqn:Hc; [|reflexivity].
  destruct (strip_infix name) as (pre & post & Heq).
  rewrite (contains_infix name (strip name) pre post tok Heq Hc) in H.
  discriminate.
Qed.

(** A name that [_sanitize] accepts comes back trimmed; the result
    is not empty, holds no ["/"] and no [".."], and is accepted again
    unchanged: the name under which a document is saved finds it again. *)
Theorem sanitize_idempotent (name base : str) :
  _sanitize name = Ok base ->
  base = strip name /\ base <> [] /\
  contains base (lit "/") = false /\ contains base (lit "..") = false /\
  _sanitize base = Ok base.
Proof.
  intros H. destruct (sanitize_ok name base H) as (Hslash & Hdots & -> & Hne).
  pose proof (contains_strip_false name _ Hslash) as Hs1.
  pose proof (contains_strip_false name _ Hdots) as Hs2.
  repeat split; auto.
  unfold _sanitize. rewrite Hs1, Hs2. simpl. rewrite strip_idem.
  destruct (strip name); [congruence|reflexivity].
Qed.

(** The theorem at [" a.txt "]. *)
Lemma sanitize_idempotent_witness :
  lit "a.txt" = strip (lit " a.txt ") /\ lit "a.txt" <> [] /\
  contains (lit "a.txt") (lit "/") = false /\
  contains (lit "a.txt") (lit "..") = false /\
  _sanitize (lit "a.txt") = Ok (lit "a.txt").
Proof.
  apply (sanitize_idempotent (lit " a.txt ") (lit "a.txt")). reflexivity.
Defined.

(** X21.  What [save] stores is found again: after [save(name, data)],
    [get_document], under the name given or under the name returned, gives
    the dict that was returned, every key of it with the value returned,
    plus the content; [read_bytes] gives the data; [exists] says yes; and
    the object store holds the data under the key of the dict.  The dict
    returned has the trimmed name, the size and digest of the data, the
    uploader, no references and the time of the call. *)
Theorem save_then_read (L : lib) (sha256_hex : bytes -> str) (st st' : store)
  (name : str) (data : bytes) (uploaded_by : option str) (uid : str)
  (now : float) (payload : doc) :
  save L sha256_hex st name data uploaded_by uid now = Ok (payload, st') ->
  d_name payload = strip name /\
  d_size payload = len data /\ d_hash payload = sha256_hex data /\
  d_uploaded_by payload = uploaded_by /\ d_vector_refs payload = [] /\
  d_created_at payload = now /\ d_updated_at payload = now /\
  d_content payload = None /\
  (forall lookup, lookup = name \/ lookup = d_name payload ->
     get_document st' lookup true
     = Ok {| d_name := d_name payload; d_size := d_size payload;
             d_ext := d_ext payload; d_oss_key := d_oss_key payload;
             d_hash := d_hash payload; d_uploaded_by := d_uploaded_by payload;
             d_vector_refs := d_vector_refs payload;
             d_created_at := d_created_at payload;
             d_updated_at := d_updated_at payload;
             d_content := Some data |} /\
     read_bytes st' lookup = Ok data /\
     exists_ st' lookup = Ok true) /\
  _memory_objects st' !! d_oss_key payload = Some data.
Proof.
  unfold save. intros H.
  destruct (_sanitize name) as [safe|e] eqn:Hsafe; [|discriminate].
  cbn [bind] in H. injection H as <- <-.
  cbn [d_name d_size d_ext d_oss_key d_hash d_uploaded_by d_vector_refs
       d_created_at d_updated_at d_content].
  destruct (sanitize_idempotent name safe Hsafe) as (Hstrip & _ & _ & _ & Hagain).
  split; [exact Hstrip|]. do 7 (split; [reflexivity|]).
  split; [|apply lookup_insert_eq].
  intros lookup Hl.
  assert (Hs : _sanitize lookup = Ok safe) by (destruct Hl as [->| ->]; assumption).
  unfold read_bytes, get_document, exists_. rewrite Hs. cbn [bind _memory_meta].
  rewrite lookup_insert_eq. cbn [bind d_content default].
  repeat split.
Qed.

(** The theorem at an empty store and the upload of [" a.txt "]. *)
Lemma save_then_read_witness :
  exists payload st',
    save sample_lib flat_digest empty_store (lit " a.txt ") (ascii_bytes "x") None
         (lit "0a1b2c3d") 1
    = Ok (payload, st') /\
    d_name payload = strip (lit " a.txt ") /\
    d_size payload = len (ascii_bytes "x") /\
    d_hash payload = flat_digest (ascii_bytes "x") /\
    d_uploaded_by payload = None /\ d_vector_refs payload = [] /\
    d_created_at payload = 1%float /\ d_updated_at payload = 1%float /\
    d_content payload = None /\
    (forall lookup, lookup = lit " a.txt " \/ lookup = d_name payload ->
       get_document st' lookup true
       = Ok {| d_name := d_name payload; d_size := d_size payload;
               d_ext := d_ext payload; d_oss_key := d_oss_key payload;
               d_hash := d_hash payload; d_uploaded_by := d_uploaded_by payload;
               d_vector_refs := d_vector_refs payload;
               d_created_at := d_created_at payload;
               d_updated_at := d_updated_at payload;
               d_content := Some (ascii_bytes "x") |} /\
       read_bytes st' lookup = Ok (ascii_bytes "x") /\
       exists_ st' lookup = Ok true) /\
    _memory_objects st' !! d_oss_key payload = Some (ascii_bytes "x").
Proof.
  eexists _, _. split; [reflexivity|].
  eapply (save_then_read sample_lib flat_digest empty_store _ (lit " a.txt ")
            (ascii_bytes "x") None (lit "0a1b2c3d") 1).
  reflexivity.
Defined.

Example save_key_and_ext :
  exists payload st',
    save sample_lib flat_digest empty_store (lit " Notes.v2.TXT ") (ascii_bytes "x")
         None (lit "0a1b2c3d") 1
    = Ok (payload, st') /\
    d_name payload = lit "Notes.v2.TXT" /\ d_ext payload = lit ".txt" /\
    d_oss_key payload = lit "docs/Notes.v2.TXT-0a1b2c3d".
Proof. eexists _, _. repeat split. Qed.

Lemma object_key_inj st st' safe u1 u2 :
  prefix st' = prefix st ->
  _object_key st safe u1 = _object_key st' safe u2 -> u1 = u2.
Proof.
  unfold _object_key. intros ->. destruct (prefix st) as [|c p].
  - intros H. apply app_inv_head in H. now injection H.
  - intros H. apply (app_inv_head (c :: p)) in H. injection H as H.
    apply app_inv_head in H. now injection H.
Qed.

(** X22.  Saving a document again under the same name replaces its
    metadata and content, but the object that the first save stored stays
    in the object store (each save writes under a key of its own), and it
    is still there after the document is deleted: [delete] removes the
    object of the current key only. *)
Theorem resave_keeps_old_object (L : lib) (sha256_hex : bytes -> str)
  (st st1 st2 : store) (name : str) (d1 d2 : bytes) (by1 by2 : option str)
  (u1 u2 : str) (t1 t2 : float) (p1 p2 : doc) :
  save L sha256_hex st name d1 by1 u1 t1 = Ok (p1, st1) ->
  save L sha256_hex st1 name d2 by2 u2 t2 = Ok (p2, st2) ->
  u1 <> u2 ->
  read_bytes st2 name = Ok d2 /\
  _memory_objects st2 !! d_oss_key p1 = Some d1 /\
  exists st3,
    delete st2 name = Ok st3 /\
    exists_ st3 name = Ok false /\
    _memory_objects st3 !! d_oss_key p2 = None /\
    _memory_objects st3 !! d_oss_key p1 = Some d1.
Proof.
  unfold save. intros H1 H2 Hu.
  destruct (_sanitize name) as [safe|e] eqn:Hsafe; [|discriminate].
  cbn [bind] in H1, H2. injection H1 as <- <-. injection H2 as <- <-.
  cbn [d_oss_key prefix _memory_meta _memory_objects].
  assert (Hkeys : _object_key st safe u1
                  <> _object_key
                       {| prefix := prefix st;
                          _memory_meta := <[safe := {| d_name := safe; d_size := len d1;
                              d_ext := if contains safe (lit ".")
                                       then lower L (slice_from safe (rfind safe 46%N))
                                       else [];
                              d_oss_key := _object_key st safe u1;
                              d_hash := sha256_hex d1; d_uploaded_by := by1;
                              d_vector_refs := []; d_created_at := t1;
                              d_updated_at := t1; d_content := Some d1 |}]>
                            (_memory_meta st);
                          _memory_objects := <[_object_key st safe u1 := d1]>
                                               (_memory_objects st) |} safe u2).
  { intros Heq. apply Hu. eapply object_key_inj; [|exact Heq]. reflexivity. }
  match type of Hkeys with _ <> ?k2 => set (key2 := k2) in * end.
  set (key1 := _object_key st safe u1) in *.
  assert (Hk2 : key2 <> []).
  { unfold key2, _object_key. cbn [prefix]. destruct (prefix st), safe; discriminate. }
  split; [|split].
  - unfold read_bytes, get_document. rewrite Hsafe. cbn [bind _memory_meta].
    now rewrite lookup_insert_eq.
  - rewrite lookup_insert_ne by congruence. apply lookup_insert_eq.
  - unfold delete, exists_. rewrite Hsafe. cbn [bind _memory_meta _memory_objects].
    rewrite lookup_insert_eq. cbn [d_oss_key].
    destruct key2 as [|c k] eqn:Hkey2; [congruence|].
    eexists. split; [reflexivity|]. cbn [_memory_meta _memory_objects].
    split; [|split].
    + rewrite lookup_delete_eq. reflexivity.
    + apply lookup_delete_eq.
    + rewrite lookup_delete_ne by congruence.
      rewrite lookup_insert_ne by congruence. apply lookup_insert_eq.
Qed.

(** The theorem at two uploads of [a.txt]. *)
Lemma resave_keeps_old_object_witness :
  exists p1 st1 p2 st2,
    save sample_lib flat_digest empty_store (lit "a.txt") (ascii_bytes "x") None
         (lit "00000001") 1 = Ok (p1, st1) /\
    save sample_lib flat_digest st1 (lit "a.txt") (ascii_bytes "y") None
         (lit "00000002") 2 = Ok (p2, st2) /\
    read_bytes st2 (lit "a.txt") = Ok (ascii_bytes "y") /\
    _memory_objects st2 !! d_oss_key p1 = Some (ascii_bytes "x") /\
    exists st3,
      delete st2 (lit "a.txt") = Ok st3 /\
      exists_ st3 (lit "a.txt") = Ok false /\
      _memory_objects st3 !! d_oss_key p2 = None /\
      _memory_objects st3 !! d_oss_key p1 = Some (ascii_bytes "x").
Proof.
  eexists _, _, _, _. split; [reflexivity|]. split; [reflexivity|].
  eapply (resave_keeps_old_object sample_lib flat_digest empty_store _ _ (lit "a.txt")
            (ascii_bytes "x") (ascii_bytes "y") None None
            (lit "00000001") (lit "00000002") 1 2); [reflexivity|reflexivity|].
  discriminate.
Defined.

End StorageFacts.

(* ===================================================================== *)
(** * Facts: accounts, tokens and the bearer header                        *)
(* ===================================================================== *)

Module UsersFacts.
Import Py Users Auth Samples Cases MainFacts.

Lemma flag_round_trip (must_change : bool) :
  str_eqb (if must_change then lit "1" else lit "0") (lit "1") = must_change.
Proof. now destruct must_change. Qed.

(** X23.  An account that [create_user] has just created logs in with the
    password it was created with: [authenticate] answers success, the
    fresh token, the [must_change] flag and the role given at creation,
    and the token then validates to that user.  A password with another
    digest is refused and no token is issued; and creating the same user
    name again is refused and changes nothing. *)
Theorem created_user_logs_in (L : lib) (st st1 : store)
  (username password : str) (must_change : bool) (role stamp token : str) :
  create_user L st username password must_change role stamp = Ok (true, st1) ->
  (exists st2,
     authenticate L st1 username password token
     = Ok ((true, Some token, must_change, Some role), st2) /\
     validate_token st2 token = Some (username, role, must_change)) /\
  (forall other h h',
     _hash_password L password = Ok h -> _hash_password L other = Ok h' ->
     h' <> h ->
     authenticate L st1 username other token = Ok ((false, None, false, None), st1)) /\
  (forall password2 must_change2 role2 stamp2,
     create_user L st1 username password2 must_change2 role2 stamp2 = Ok (false, st1)).
Proof.
  unfold create_user. intros H.
  destruct (users st !! username) eqn:Hu; [discriminate|].
  destruct (_hash_password L password) as [h|e] eqn:Hh; [|discriminate].
  cbn [bind] in H. injection H as <-.
  split; [|split].
  - unfold authenticate. cbn [users]. rewrite lookup_insert_eq, Hh.
    cbn [bind password_hash must_change_password Users.role].
    unfold str_eqb at 1. rewrite bool_decide_eq_true_2 by reflexivity.
    cbn [negb issue_token]. rewrite flag_round_trip.
    eexists. split; [reflexivity|]. unfold validate_token. cbn [tokens].
    apply lookup_insert_eq.
  - intros other h0 h' Hh0 Hh' Hne. injection Hh0 as <-.
    unfold authenticate. cbn [users]. rewrite lookup_insert_eq, Hh'.
    cbn [bind password_hash].
    unfold str_eqb. rewrite bool_decide_eq_false_2 by congruence. reflexivity.
  - intros password2 must_change2 role2 stamp2. cbn [users].
    now rewrite lookup_insert_eq.
Qed.

(** The theorem at an empty store and the student [s1]. *)
Lemma created_user_logs_in_witness :
  exists st1,
    create_user sample_lib no_users (lit "s1") (lit "hziees1") true (lit "student")
                (lit "0.0") = Ok (true, st1) /\
    (exists st2,
       authenticate sample_lib st1 (lit "s1") (lit "hziees1") (lit "t1")
       = Ok ((true, Some (lit "t1"), true, Some (lit "student")), st2) /\
       validate_token st2 (lit "t1") = Some (lit "s1", lit "student", true)) /\
    (forall other h h',
       _hash_password sample_lib (lit "hziees1") = Ok h ->
       _hash_password sample_lib other = Ok h' ->
       h' <> h ->
       authenticate sample_lib st1 (lit "s1") other (lit "t1")
       = Ok ((false, None, false, None), st1)) /\
    (forall password2 must_change2 role2 stamp2,
       create_user sample_lib st1 (lit "s1") password2 must_change2 role2 stamp2
       = Ok (false, st1)).
Proof.
  eexists. split; [reflexivity|].
  eapply (created_user_logs_in sample_lib no_users _ (lit "s1") (lit "hziees1") true
            (lit "student") (lit "0.0") (lit "t1")).
  reflexivity.
Defined.

(** ** A password change and the tokens issued before it *)

(** X24.  In this store a token keeps the [must_change] flag it was issued
    with.  After a login that had to change the password and a
    [set_password], the token of that login still validates with the flag
    set, so [_require_user_active] keeps answering 403 to it; a new login
    with the new password gets a token without the flag, which does not
    change what the old one validates to. *)
Theorem password_change_keeps_old_token (L : lib) (st st1 st2 : store)
  (username password new_password t1 role header : str) :
  authenticate L st username password t1
  = Ok ((true, Some t1, true, Some role), st1) ->
  set_password L st1 username new_password = Ok st2 ->
  _parse_bearer_token L (Some header) = Respond t1 ->
  validate_token st2 t1 = Some (username, role, true) /\
  _require_user_active L st2 (Some header)
  = HTTPException 403 CHANGE_PASSWORD_FIRST /\
  _require_user_allow_change L st2 (Some header) = Respond username /\
  forall t2, t2 <> t1 ->
    exists st3,
      authenticate L st2 username new_password t2
      = Ok ((true, Some t2, false, Some role), st3) /\
      validate_token st3 t2 = Some (username, role, false) /\
      validate_token st3 t1 = Some (username, role, true).
Proof.
  unfold authenticate, set_password. intros Hauth Hset Hparse.
  destruct (users st !! username) as [user|] eqn:Hu; [|discriminate].
  destruct (_hash_password L password) as [h|e]; [|discriminate].
  cbn [bind] in Hauth.
  destruct (negb (str_eqb (password_hash user) h)); [discriminate|].
  cbn [issue_token] in Hauth. injection Hauth as Hflag <- <-.
  rewrite Hflag in Hset.
  cbn [users tokens] in *. rewrite Hu in Hset.
  destruct (_hash_password L new_password) as [h2|e] eqn:Hh2; [|discriminate].
  cbn [bind] in Hset. injection Hset as <-.
  assert (Hv : validate_token
                 {| users := <[username := {| password_hash := h2;
                                               must_change_password := lit "0";
                                               role := Users.role user;
                                               created_at := created_at user |}]>
                               (users st);
                    tokens := <[t1 := (username, Users.role user, true)]> (tokens st) |}
                 t1 = Some (username, Users.role user, true)).
  { unfold validate_token. cbn [tokens]. apply lookup_insert_eq. }
  split; [exact Hv|]. split; [|split].
  - unfold _require_user_active. now rewrite Hparse, Hv.
  - unfold _require_user_allow_change. now rewrite Hparse, Hv.
  - intros t2 Hne. cbn [users]. rewrite lookup_insert_eq.
    cbn [bind password_hash must_change_password Users.role].
    unfold str_eqb at 1. rewrite bool_decide_eq_true_2 by reflexivity.
    cbn [negb issue_token].
    eexists. split; [reflexivity|]. unfold validate_token. cbn [tokens].
    split; [apply lookup_insert_eq|].
    rewrite lookup_insert_ne by congruence. apply lookup_insert_eq.
Qed.

(** The theorem at the student [s1], created with a password to change,
    who logs in, changes the password and keeps using the first token. *)
Lemma password_change_keeps_old_token_witness :
  exists st0 st1 st2,
    create_user sample_lib no_users (lit "s1") (lit "hziees1") true (lit "student")
                (lit "0.0") = Ok (true, st0) /\
    authenticate sample_lib st0 (lit "s1") (lit "hziees1") (lit "t1")
    = Ok ((true, Some (lit "t1"), true, Some (lit "student")), st1) /\
    set_password sample_lib st1 (lit "s1") (lit "secret1") = Ok st2 /\
    validate_token st2 (lit "t1") = Some (lit "s1", lit "student", true) /\
    _require_user_active sample_lib st2 (Some (lit "Bearer t1"))
    = HTTPException 403 CHANGE_PASSWORD_FIRST /\
    _require_user_allow_change sample_lib st2 (Some (lit "Bearer t1"))
    = Respond (lit "s1") /\
    forall t2, t2 <> lit "t1" ->
      exists st3,
        authenticate sample_lib st2 (lit "s1") (lit "secret1") t2
        = Ok ((true, Some t2, false, Some (lit "student")), st3) /\
        validate_token st3 t2 = Some (lit "s1", lit "student", false) /\
        validate_token st3 (lit "t1") = Some (lit "s1", lit "student", true).
Proof.
  eexists _, _, _. split; [reflexivity|].
  match goal with
  | |- authenticate _ ?st0 _ _ _ = _ /\ _ =>
      split; [reflexivity|]; split; [reflexivity|];
      eapply (password_change_keeps_old_token sample_lib st0 _ _ (lit "s1")
                (lit "hziees1") (lit "secret1") (lit "t1") (lit "student")
                (lit "Bearer t1")); reflexivity
  end.
Defined.

(** ** Batch registration *)

Lemma create_user_effect L st username password must_change role stamp ok st' :
  create_user L st username password must_change role stamp = Ok (ok, st') ->
  (ok = false /\ st' = st /\ is_Some (users st !! username)) \/
  (ok = true /\ users st !! username = None /\
   exists h, _hash_password L password = Ok h /\
             users st' = <[username := {| password_hash := h;
                                          must_change_password :=
                                            if must_change then lit "1" else lit "0";
                                          Users.role := role;
                                          created_at := stamp |}]> (users st)).
Proof.
  unfold create_user. destruct (users st !! username) as [a|] eqn:Hu.
  - intros [= <- <-]. left. eauto.
  - destruct (_hash_password L password) as [h|e]; [|discriminate].
    cbn [bind]. intros [= <- <-]. right. eauto.
Qed.

Lemma batch_loop_spec L password_prefix role stamps usernames :
  forall st i created skipped created' skipped' st',
    batch_loop L st usernames password_prefix role stamps i created skipped
    = Ok ((created', skipped'), st') ->
    exists c s,
      created' = created ++ c /\ skipped' = skipped ++ s /\
      c ++ s ≡ₚ usernames /\ NoDup c /\
      (forall u, u ∈ c ->
         users st !! u = None /\
         exists h a, _hash_password L (password_prefix ++ u) = Ok h /\
                     users st' !! u = Some a /\ password_hash a = h /\
                     must_change_password a = lit "1" /\ Users.role a = role) /\
      (forall u, u ∈ s -> is_Some (users st !! u) \/ u ∈ c) /\
      (forall u, is_Some (users st !! u) -> users st' !! u = users st !! u).
Proof.
  induction usernames as [|uid rest IH];
    intros st i created skipped created' skipped' st' H; simpl in H.
  - injection H as <- <- <-. exists [], []. rewrite !app_nil_r.
    split; [reflexivity|]. split; [reflexivity|]. split; [reflexivity|].
    split; [constructor|]. split; [|split]; try (intros u Hu; now apply elem_of_nil in Hu).
    reflexivity.
  - destruct (create_user L st uid (password_prefix ++ uid) true role (stamps i))
      as [[ok st1]|e] eqn:Hc; [|discriminate]. cbn [bind] in H.
    apply create_user_effect in Hc
      as [(-> & -> & Hsome)|(-> & Hnone & h & Hh & Hst1)].
    + apply IH in H as (c & s & -> & -> & Hperm & Hnd & Hc & Hs & Hkeep).
      exists c, (uid :: s). rewrite <- app_assoc.
      split; [reflexivity|]. split; [reflexivity|].
      split; [rewrite <- Hperm; symmetry; apply Permutation_middle|].
      split; [exact Hnd|]. split; [exact Hc|]. split; [|exact Hkeep].
      intros u Hu. apply elem_of_cons in Hu as [->|Hu]; auto.
    + apply IH in H as (c & s & -> & -> & Hperm & Hnd & Hc & Hs & Hkeep).
      assert (Hfresh : uid ∉ c).
      { intros Hin. destruct (Hc uid Hin) as [Hn _].
        rewrite Hst1, lookup_insert_eq in Hn. discriminate. }
      exists (uid :: c), s. rewrite <- app_assoc.
      split; [reflexivity|]. split; [reflexivity|].
      split; [simpl; now rewrite Hperm|].
      split; [now constructor|]. split; [|split].
      * intros u Hu. apply elem_of_cons in Hu as [->|Hu].
        -- split; [exact Hnone|]. eexists h, _. split; [exact Hh|].
           rewrite Hkeep by (rewrite Hst1, lookup_insert_eq; eauto).
           rewrite Hst1, lookup_insert_eq. repeat split.
        -- destruct (Hc u Hu) as [Hn Hrest]. split; [|exact Hrest].
           rewrite Hst1 in Hn.
           destruct (decide (uid = u)) as [->|Hne];
             [now rewrite lookup_insert_eq in Hn|].
           now rewrite lookup_insert_ne in Hn.
      * intros u Hu. destruct (decide (uid = u)) as [->|Hne]; [right; left|].
        destruct (Hs u Hu) as [Hsome|Hin]; [|right; now right].
        rewrite Hst1, lookup_insert_ne in Hsome by exact Hne. now left.
      * intros u Hu. assert (Hne : uid <> u).
        { intros ->. rewrite Hnone in Hu. now destruct Hu. }
        rewrite Hkeep by (rewrite Hst1, lookup_insert_ne by exact Hne; exact Hu).
        rewrite Hst1. now apply lookup_insert_ne.
Qed.

(** X25.  [batch_create] names every user once: the created and the
    skipped names together are the names given.  A name is created when it
    had no account and was not created earlier in the batch, and it then
    has an account with the digest of [password_prefix + name], the flag
    to change the password and the role given; every other name is
    skipped; and accounts that existed are left as they were. *)
Theorem batch_create_partition (L : lib) (st st' : store) (usernames : list str)
  (password_prefix role : str) (stamps : nat -> str)
  (created skipped : list str) :
  batch_create L st usernames password_prefix role stamps
  = Ok ((created, skipped), st') ->
  created ++ skipped ≡ₚ usernames /\ NoDup created /\
  (forall u, u ∈ created ->
     users st !! u = None /\
     exists h a, _hash_password L (password_prefix ++ u) = Ok h /\
                 users st' !! u = Some a /\ password_hash a = h /\
                 must_change_password a = lit "1" /\ Users.role a = role) /\
  (forall u, u ∈ skipped -> is_Some (users st !! u) \/ u ∈ created) /\
  (forall u, is_Some (users st !! u) -> users st' !! u = users st !! u).
Proof.
  unfold batch_create. intros H.
  apply batch_loop_spec in H as (c & s & -> & -> & H). exact H.
Qed.

(** The theorem at an empty store and the names [s1], [s2], [s1]. *)
Lemma batch_create_partition_witness :
  exists st',
    batch_create sample_lib no_users [lit "s1"; lit "s2"; lit "s1"] (lit "hziee")
                 (lit "student") (fun _ => lit "0.0")
    = Ok (([lit "s1"; lit "s2"], [lit "s1"]), st') /\
    [lit "s1"; lit "s2"] ++ [lit "s1"] ≡ₚ [lit "s1"; lit "s2"; lit "s1"] /\
    NoDup [lit "s1"; lit "s2"] /\
    (forall u, u ∈ [lit "s1"; lit "s2"] ->
       users no_users !! u = None /\
       exists h a, _hash_password sample_lib (lit "hziee" ++ u) = Ok h /\
                   users st' !! u = Some a /\ password_hash a = h /\
                   must_change_password a = lit "1" /\
                   Users.role a = lit "student") /\
    (forall u, u ∈ [lit "s1"] ->
       is_Some (users no_users !! u) \/ u ∈ [lit "s1"; lit "s2"]) /\
    (forall u, is_Some (users no_users !! u) ->
       users st' !! u = users no_users !! u).
Proof.
  eexists. split; [reflexivity|].
  eapply (batch_create_partition sample_lib no_users _ [lit "s1"; lit "s2"; lit "s1"]
            (lit "hziee") (lit "student") (fun _ => lit "0.0")).
  reflexivity.
Defined.

End UsersFacts.

(* ===================================================================== *)
(** * Facts: the in-memory session store                                   *)
(* ===================================================================== *)

Module SessionsFacts.
Import Py Sessions StrFacts Text Cases.

(** ** Titles *)

Lemma slice_to_cons {A} (c : A) (s : list A) k :
  1 <= k -> slice_to (c :: s) k = c :: slice_to s (k - 1).
Proof.
  intros Hk. rewrite !PipelineFacts.slice_to_take by lia.
  replace (Z.to_nat k) with (S (Z.to_nat (k - 1))) by lia. reflexivity.
Qed.

(** A title that [_sanitize_title] gives has between 1 and 60 characters
    and starts with a character that is no white space, whatever title
    was asked for: none, an empty one, or one of white space only. *)
Theorem sanitize_title_bounds (t : option str) :
  1 <= len (_sanitize_title t) <= 60 /\
  exists c rest, _sanitize_title t = c :: rest /\ isspace c = false.
Proof.
  unfold _sanitize_title.
  pose proof (strip_clean (str_or t DEFAULT_TITLE)) as Hclean.
  destruct (strip (str_or t DEFAULT_TITLE)) as [|c s].
  - cbn [str_or]. split; [vm_compute; split; discriminate|].
    eexists _, _. split; reflexivity.
  - cbn [str_or]. split.
    + rewrite RerankBounds.len_slice_to by lia.
      pose proof (ChunkerFacts.len_nonneg s). unfold len in *. simpl length. lia.
    + rewrite slice_to_cons by lia. eexists _, _. split; [reflexivity|exact Hclean].
Qed.

(** ** History *)

Lemma slice_to_end {A} (l : list A) (a : Z) :
  slice l a (len l) = drop (Z.to_nat (slice_bound (len l) a)) l.
Proof.
  unfold slice. set (n := len l). set (a' := slice_bound n a).
  assert (Hn : 0 <= n) by apply ChunkerFacts.len_nonneg.
  assert (Hb : slice_bound n n = n).
  { unfold slice_bound. destruct (Z.ltb_spec n 0); lia. }
  rewrite Hb. apply take_ge. rewrite length_drop. unfold n, len. lia.
Qed.

(** X27.  [get_history] returns the end of the stored history: the last [limit]
    messages, or all of them when there are fewer.  With [limit = 0] it
    returns the whole history, not an empty list, and with a negative
    [limit] it leaves out the first [-limit] messages. *)
Theorem get_history_window (st : store) (session_id : str) (limit : Z) :
  let msgs := messages_of st session_id in
  (exists older, msgs = older ++ get_history st session_id limit) /\
  len (get_history st session_id limit)
  = if limit =? 0 then len msgs
    else if limit <? 0 then Z.max 0 (len msgs + limit)
    else Z.min limit (len msgs).
Proof.
  intros msgs. unfold get_history. fold msgs. rewrite slice_to_end.
  split.
  - eexists. symmetry. apply take_drop.
  - unfold len at 1. rewrite length_drop.
    assert (Hn : 0 <= len msgs) by apply ChunkerFacts.len_nonneg.
    unfold slice_bound.
    destruct (Z.eqb_spec limit 0) as [->|Hne].
    + simpl. unfold len in *. lia.
    + destruct (Z.ltb_spec limit 0), (Z.ltb_spec (- limit) 0); unfold len in *; lia.
Qed.

(** ** Adding messages *)

Lemma messages_of_insert (st : store) ms sid msgs sid' :
  messages_of {| _messages := <[sid := msgs]> (_messages st); _sessions := ms |} sid'
  = if decide (sid = sid') then msgs else messages_of st sid'.
Proof.
  unfold messages_of. cbn [_messages].
  destruct (decide (sid = sid')) as [->|Hne].
  - now rewrite lookup_insert_eq.
  - now rewrite lookup_insert_ne.
Qed.

Lemma add_message_messages st sid role content user ts ts' :
  _messages (add_message st sid role content user ts ts')
  = <[sid := messages_of st sid
             ++ [{| msg_role := role; msg_content := content;
                    msg_created_at := ts |}]]> (_messages st).
Proof.
  unfold add_message. cbv zeta. cbn [_sessions _messages].
  destruct (_sessions st !! sid) as [m|] eqn:Hm.
  - cbn [_sessions _messages]. rewrite Hm. reflexivity.
  - destruct user as [[|c u]|]; cbn [snd bootstrap_session _sessions _messages];
      rewrite ?Hm, ?lookup_insert_eq; reflexivity.
Qed.

Lemma add_message_history st sid role content user ts ts' sid' :
  messages_of (add_message st sid role content user ts ts') sid'
  = if decide (sid = sid')
    then messages_of st sid
         ++ [{| msg_role := role; msg_content := content; msg_created_at := ts |}]
    else messages_of st sid'.
Proof.
  unfold messages_of at 1. rewrite add_message_messages.
  destruct (decide (sid = sid')) as [->|Hne].
  - now rewrite lookup_insert_eq.
  - now rewrite lookup_insert_ne.
Qed.

Lemma add_message_known st sid role content user ts ts' m :
  _sessions st !! sid = Some m ->
  _sessions (add_message st sid role content user ts ts')
  = <[sid := {| session_id := Sessions.session_id m; user := Sessions.user m;
                title := title m; created_at := created_at m; updated_at := ts;
                message_count := message_count m + 1;
                last_message := content |}]> (_sessions st).
Proof.
  intros Hm. unfold add_message. cbv zeta. cbn [_sessions _messages].
  rewrite Hm. cbn [_sessions _messages]. rewrite Hm. reflexivity.
Qed.

(** X28.  A message added to a session that the store has no entry for, in the
    name of a user, sets the session up from the stored messages, the new
    one among them, and then counts the new message once more: the
    session's [message_count] is one more than the number of its
    messages. *)
Theorem add_message_unknown_session (st : store)
  (session_id role content user : str) (ts ts' : float) :
  get_session st session_id = None ->
  user <> [] ->
  let st' := add_message st session_id role content (Some user) ts ts' in
  exists m,
    get_session st' session_id = Some m /\
    Sessions.user m = user /\ last_message m = content /\ updated_at m = ts /\
    message_count m = len (messages_of st' session_id) + 1.
Proof.
  intros Hnone Huser st'. unfold get_session in *.
  assert (Hlen : len (messages_of st' session_id) = len (messages_of st session_id) + 1).
  { unfold st'. rewrite add_message_history.
    destruct (decide (session_id = session_id)); [|congruence].
    unfold len. rewrite length_app. simpl. lia. }
  rewrite Hlen. unfold st', add_message. cbv zeta. cbn [_sessions _messages].
  rewrite Hnone.
  destruct user as [|c u]; [congruence|].
  cbn [snd bootstrap_session _sessions _messages]. rewrite lookup_insert_eq.
  cbn [_sessions]. rewrite lookup_insert_eq.
  eexists. split; [reflexivity|]. cbn.
  repeat split. rewrite messages_of_insert.
  destruct (decide (session_id = session_id)); [|congruence].
  unfold len. rewrite length_app. simpl. lia.
Qed.

(** The theorem at an empty store: one message of [u1] in the session
    [s1] is counted as two. *)
Lemma add_message_unknown_session_witness :
  exists m,
    get_session (add_message no_sessions (lit "s1") (lit "user") (lit "hi")
                             (Some (lit "u1")) 1%float 2%float) (lit "s1") = Some m /\
    Sessions.user m = lit "u1" /\ last_message m = lit "hi" /\
    updated_at m = 1%float /\
    message_count m
    = len (messages_of (add_message no_sessions (lit "s1") (lit "user") (lit "hi")
                                    (Some (lit "u1")) 1%float 2%float) (lit "s1")) + 1.
Proof.
  apply (add_message_unknown_session no_sessions (lit "s1") (lit "user") (lit "hi")
           (lit "u1") 1%float 2%float); [reflexivity|discriminate].
Defined.

(** ** Sessions of other users *)

(** X30.  A session that belongs to another user is out of reach:
    [rename_session] and [delete_session] answer [None] and [False],
    [ensure_session_for_user] raises [PermissionError], [query] stores
    nothing, and all of them leave the store as it was. *)
Theorem foreign_session_untouched (st : store) (session_id user : str) (m : meta) :
  get_session st session_id = Some m ->
  Sessions.user m <> [] ->
  Sessions.user m <> user ->
  (forall title ts, rename_session st session_id user title ts = (None, st)) /\
  delete_session st session_id user = (false, st) /\
  (forall create ts,
     ensure_session_for_user st session_id user create ts = (PermissionError, st)) /\
  (forall question answer ts0 ts1 ts1' ts2 ts2',
     session_id <> [] ->
     query_history st (Some session_id) user question answer ts0 ts1 ts1' ts2 ts2'
     = None) /\
  (forall query parts ts0 ts1 ts1' ts2 ts2',
     _persist_stream_history st (Some session_id) query user parts
                             ts0 ts1 ts1' ts2 ts2' = st).
Proof.
  unfold get_session. intros Hm Howner Hother.
  assert (Hneq : negb (str_eqb (Sessions.user m) user) = true).
  { unfold str_eqb. now rewrite bool_decide_eq_false_2. }
  assert (Hens : forall create ts,
             ensure_session_for_user st session_id user create ts
             = (PermissionError, st)).
  { intros create ts. unfold ensure_session_for_user, get_session. rewrite Hm.
    destruct (Sessions.user m) as [|c u] eqn:Hu; [congruence|]. now rewrite Hneq. }
  split; [|split; [|split; [exact Hens|split]]].
  - intros title ts. unfold rename_session. now rewrite Hm, Hneq.
  - unfold delete_session. now rewrite Hm, Hneq.
  - intros question answer ts0 ts1 ts1' ts2 ts2' Hsid. unfold query_history.
    destruct session_id as [|c s]; [congruence|]. now rewrite Hens.
  - intros query parts ts0 ts1 ts1' ts2 ts2'. unfold _persist_stream_history.
    destruct session_id as [|c s]; [reflexivity|]. rewrite Hens.
    destruct query, (strip (concat parts)); reflexivity.
Qed.

(** The theorem at the session [s1] of [u1], for the user [u2]. *)
Lemma foreign_session_untouched_witness :
  (forall title ts, rename_session one_session (lit "s1") (lit "u2") title ts
                    = (None, one_session)) /\
  delete_session one_session (lit "s1") (lit "u2") = (false, one_session) /\
  (forall create ts,
     ensure_session_for_user one_session (lit "s1") (lit "u2") create ts
     = (PermissionError, one_session)) /\
  (forall question answer ts0 ts1 ts1' ts2 ts2',
     lit "s1" <> [] ->
     query_history one_session (Some (lit "s1")) (lit "u2") question answer
                   ts0 ts1 ts1' ts2 ts2' = None) /\
  (forall query parts ts0 ts1 ts1' ts2 ts2',
     _persist_stream_history one_session (Some (lit "s1")) query (lit "u2") parts
                             ts0 ts1 ts1' ts2 ts2' = one_session).
Proof.
  eapply (foreign_session_untouched one_session (lit "s1") (lit "u2"));
    [reflexivity|cbn; discriminate|cbn; discriminate].
Defined.

(** ** One exchange *)

Lemma ensure_keeps st sid user ts st' r :
  ensure_session_for_user st sid user true ts = (Ensured r, st') ->
  (forall sid', messages_of st' sid' = messages_of st sid') /\
  exists m, _sessions st' !! sid = Some m /\
            message_count m = match get_session st sid with
                              | Some m0 => message_count m0
                              | None => len (messages_of st sid)
                              end.
Proof.
  unfold ensure_session_for_user, get_session.
  destruct (_sessions st !! sid) as [m|] eqn:Hm.
  - destruct (Sessions.user m) as [|c u] eqn:Hu.
    + intros [= <- <-]. split.
      * intros sid'. unfold messages_of, save_meta, setdefault_messages.
        cbn [_messages session_id].
        destruct (_messages st !! Sessions.session_id m) eqn:Hk; [reflexivity|].
        destruct (decide (Sessions.session_id m = sid')) as [<-|Hne].
        -- now rewrite lookup_insert_eq, Hk.
        -- now rewrite lookup_insert_ne.
      * unfold save_meta. cbn [_sessions session_id].
        destruct (decide (Sessions.session_id m = sid)) as [->|Hne].
        -- rewrite lookup_insert_eq. eexists. split; reflexivity.
        -- rewrite lookup_insert_ne by exact Hne. eauto.
    + destruct (negb (str_eqb (c :: u) user)); [discriminate|].
      intros [= <- <-]. split; [reflexivity|eauto].
  - cbn [bootstrap_session]. intros [= <- <-]. split; [reflexivity|].
    cbn [_sessions]. rewrite lookup_insert_eq. eexists. split; reflexivity.
Qed.

(** X29.  What [query] stores for an exchange in a session: the question and
    the answer are added after the stored history, in this order, and no
    other session's history changes; the session's entry then has the
    answer as its last message and counts two messages more than before,
    where a session without an entry counted its stored messages. *)
Theorem query_history_appends (st st' : store) (session_id user question answer : str)
  (ts0 ts1 ts1' ts2 ts2' : float) :
  session_id <> [] ->
  query_history st (Some session_id) user question answer ts0 ts1 ts1' ts2 ts2'
  = Some st' ->
  messages_of st' session_id
  = messages_of st session_id
    ++ [{| msg_role := lit "user"; msg_content := question; msg_created_at := ts1 |};
        {| msg_role := lit "assistant"; msg_content := answer;
           msg_created_at := ts2 |}] /\
  (forall other, other <> session_id ->
     messages_of st' other = messages_of st other) /\
  exists m,
    get_session st' session_id = Some m /\
    last_message m = answer /\ updated_at m = ts2 /\
    message_count m = match get_session st session_id with
                      | Some m0 => message_count m0
                      | None => len (messages_of st session_id)
                      end + 2.
Proof.
  intros Hsid. unfold query_history.
  destruct session_id as [|c s] eqn:Hs; [congruence|]. rewrite <- Hs in *. clear Hs.
  destruct (ensure_session_for_user st session_id user true ts0) as [[|r] st0] eqn:He;
    [discriminate|].
  intros [= <-]. apply ensure_keeps in He as (Hmsgs & m0 & Hm0 & Hcount).
  pose proof (add_message_known st0 session_id (lit "user") question (Some user)
                ts1 ts1' m0 Hm0) as H1.
  set (st1 := add_message st0 session_id (lit "user") question (Some user) ts1 ts1')
    in *.
  assert (Hm1 : _sessions st1 !! session_id
                = Some {| session_id := Sessions.session_id m0;
                          user := Sessions.user m0; title := title m0;
                          created_at := created_at m0; updated_at := ts1;
                          message_count := message_count m0 + 1;
                          last_message := question |}).
  { rewrite H1. apply lookup_insert_eq. }
  pose proof (add_message_known st1 session_id (lit "assistant") answer (Some user)
                ts2 ts2' _ Hm1) as H2.
  split; [|split].
  - rewrite add_message_history.
    destruct (decide (session_id = session_id)); [|congruence].
    unfold st1. rewrite add_message_history.
    destruct (decide (session_id = session_id)); [|congruence].
    rewrite Hmsgs, <- app_assoc. reflexivity.
  - intros other Hne. rewrite add_message_history.
    destruct (decide (session_id = other)); [congruence|].
    unfold st1. rewrite add_message_history.
    destruct (decide (session_id = other)); [congruence|]. apply Hmsgs.
  - unfold get_session at 1. rewrite H2, lookup_insert_eq.
    eexists. split; [reflexivity|]. cbn. repeat split. rewrite Hcount. lia.
Qed.

(** The theorem at the first exchange of [u1] in the session [s1]. *)
Lemma query_history_appends_witness :
  exists st',
    query_history no_sessions (Some (lit "s1")) (lit "u1") (lit "q") (lit "a")
                  0%float 1%float 2%float 3%float 4%float = Some st' /\
    messages_of st' (lit "s1")
    = messages_of no_sessions (lit "s1")
      ++ [{| msg_role := lit "user"; msg_content := lit "q";
             msg_created_at := 1%float |};
          {| msg_role := lit "assistant"; msg_content := lit "a";
             msg_created_at := 3%float |}] /\
    (forall other, other <> lit "s1" ->
       messages_of st' other = messages_of no_sessions other) /\
    exists m,
      get_session st' (lit "s1") = Some m /\
      last_message m = lit "a" /\ updated_at m = 3%float /\
      message_count m = match get_session no_sessions (lit "s1") with
                        | Some m0 => message_count m0
                        | None => len (messages_of no_sessions (lit "s1"))
                        end + 2.
Proof.
  eexists. split; [reflexivity|].
  eapply (query_history_appends no_sessions _ (lit "s1") (lit "u1") (lit "q") (lit "a")
            0%float 1%float 2%float 3%float 4%float); [discriminate|reflexivity].
Defined.

(** ** Deleting *)

(** [delete_session] answers [True] exactly for the owner of a session
    that the store has.  The session and its history are then gone and
    every other session is as it was; otherwise the store is unchanged. *)
Theorem delete_session_owner_only (st st' : store) (session_id user : str)
  (ok : bool) :
  delete_session st session_id user = (ok, st') ->
  (ok = true <->
   exists m, get_session st session_id = Some m /\ Sessions.user m = user) /\
  (ok = false -> st' = st) /\
  (ok = true ->
   get_session st' session_id = None /\
   (forall limit, get_history st' session_id limit = []) /\
   forall other, other <> session_id ->
     get_session st' other = get_session st other /\
     messages_of st' other = messages_of st other).
Proof.
  unfold delete_session, get_session.
  destruct (_sessions st !! session_id) as [m|] eqn:Hm.
  - unfold str_eqb. destruct (decide (Sessions.user m = user)) as [Hu|Hu].
    + rewrite bool_decide_eq_true_2 by exact Hu. cbn [negb]. intros [= <- <-].
      split; [split; eauto|]. split; [discriminate|]. intros _.
      cbn [_sessions]. split; [apply lookup_delete_eq|]. split.
      * intros limit. unfold get_history, messages_of. cbn [_messages].
        rewrite lookup_delete_eq. cbn [default]. unfold slice.
        now rewrite drop_nil, take_nil.
      * intros other Hne. unfold messages_of. cbn [_messages].
        rewrite !lookup_delete_ne by congruence. split; reflexivity.
    + rewrite bool_decide_eq_false_2 by exact Hu. cbn [negb]. intros [= <- <-].
      split; [|split; [reflexivity|discriminate]].
      split; [discriminate|]. intros (m' & [= <-] & Hu'). contradiction.
  - intros [= <- <-]. split; [|split; [reflexivity|discriminate]].
    split; [discriminate|]. intros (m' & Hm' & _). discriminate.
Qed.

(** The theorem at the session [s1], deleted by its owner [u1]. *)
Lemma delete_session_owner_only_witness :
  exists st',
    delete_session one_session (lit "s1") (lit "u1") = (true, st') /\
    (true = true <->
     exists m, get_session one_session (lit "s1") = Some m /\
               Sessions.user m = lit "u1") /\
    (true = false -> st' = one_session) /\
    (true = true ->
     get_session st' (lit "s1") = None /\
     (forall limit, get_history st' (lit "s1") limit = []) /\
     forall other, other <> lit "s1" ->
       get_session st' other = get_session one_session other /\
       messages_of st' other = messages_of one_session other).
Proof.
  eexists. split; [reflexivity|].
  eapply (delete_session_owner_only one_session _ (lit "s1") (lit "u1") true).
  reflexivity.
Defined.

End SessionsFacts.

(* ===================================================================== *)
(** * Facts: bearer tokens                                                 *)
(* ===================================================================== *)

Module AuthFacts.
Import Py Users Auth Samples.

Lemma split_runs_word (w s cur : str) :
  Forall (fun c => isspace c = false) w ->
  split_runs (w ++ s) cur = split_runs s (cur ++ w).
Proof.
  intros Hw. revert cur. induction Hw as [|c w Hc _ IH]; intros cur.
  - now rewrite app_nil_r.
  - simpl. rewrite Hc, IH, <- app_assoc. reflexivity.
Qed.

Lemma split_runs_gap (ws s : str) :
  Forall (fun c => isspace c = true) ws ->
  split_runs (ws ++ s) [] = split_runs s [].
Proof.
  induction 1 as [|c ws Hc _ IH]; [reflexivity|]. simpl. now rewrite Hc.
Qed.

Lemma split_runs_close (ws s cur : str) :
  Forall (fun c => isspace c = true) ws -> ws <> [] -> cur <> [] ->
  split_runs (ws ++ s) cur = cur :: split_runs s [].
Proof.
  intros Hws Hne Hcur. destruct Hws as [|c ws Hc Hws]; [congruence|].
  simpl. rewrite Hc. destruct cur; [congruence|].
  now rewrite split_runs_gap.
Qed.

Lemma split_runs_end (ws cur : str) :
  Forall (fun c => isspace c = true) ws -> cur <> [] ->
  split_runs ws cur = [cur].
Proof.
  intros Hws Hcur. destruct Hws as [|c ws Hc Hws].
  - simpl. now destruct cur.
  - simpl. rewrite Hc. destruct cur; [congruence|].
    rewrite <- (app_nil_r ws), split_runs_gap by exact Hws. reflexivity.
Qed.

Lemma split_runs_clean (s cur : str) :
  Forall (fun c => isspace c = false) cur ->
  Forall (fun w => w <> [] /\ Forall (fun c => isspace c = false) w)
         (split_runs s cur).
Proof.
  revert cur. induction s as [|c s IH]; intros cur Hcur; simpl.
  - destruct cur; constructor; [|constructor]. split; [discriminate|exact Hcur].
  - destruct (isspace c) eqn:Hc.
    + destruct cur as [|d cur]; [apply IH; constructor|].
      constructor; [split; [discriminate|exact Hcur]|apply IH; constructor].
    + apply IH. apply Forall_app. split; [exact Hcur|]. now repeat constructor.
Qed.

(** The token that [_parse_bearer_token] takes from a header is never
    empty and has no white space in it. *)
Theorem bearer_token_clean (L : lib) (authorization : option str) (token : str) :
  _parse_bearer_token L authorization = Respond token ->
  token <> [] /\ Forall (fun c => isspace c = false) token.
Proof.
  unfold _parse_bearer_token. destruct authorization as [[|c a]|]; try discriminate.
  pose proof (split_runs_clean (c :: a) [] (List.Forall_nil _)) as Hclean.
  unfold split. destruct (split_runs (c :: a) []) as [|scheme [|t [|x rest]]];
    try discriminate.
  destruct (negb (str_eqb (lower L scheme) (lit "bearer"))); [discriminate|].
  intros [= <-]. apply Forall_cons in Hclean as [_ Hclean].
  apply Forall_cons in Hclean as [Ht _]. exact Ht.
Qed.

(** The theorem at the header [Bearer t1]. *)
Lemma bearer_token_clean_witness :
  lit "t1" <> [] /\ Forall (fun c => isspace c = false) (lit "t1").
Proof.
  apply (bearer_token_clean sample_lib (Some (lit "Bearer t1")) (lit "t1")).
  reflexivity.
Defined.

(** X26.  A header made of a scheme that lower-cases to [bearer], white space
    and a token is accepted, with any white space before and after, and
    the token comes back as it was written. *)
Theorem bearer_header_round_trip (L : lib)
  (before scheme gap token after : str) :
  Forall (fun c => isspace c = true) before ->
  Forall (fun c => isspace c = true) gap -> gap <> [] ->
  Forall (fun c => isspace c = true) after ->
  Forall (fun c => isspace c = false) scheme -> scheme <> [] ->
  Forall (fun c => isspace c = false) token -> token <> [] ->
  lower L scheme = lit "bearer" ->
  _parse_bearer_token L (Some (before ++ scheme ++ gap ++ token ++ after))
  = Respond token.
Proof.
  intros Hb Hg Hgne Ha Hs Hsne Ht Htne Hlow.
  assert (Hsplit : split (before ++ scheme ++ gap ++ token ++ after) = [scheme; token]).
  { unfold split. rewrite split_runs_gap by exact Hb.
    rewrite split_runs_word by exact Hs. cbn [app].
    rewrite split_runs_close by assumption.
    rewrite split_runs_word by exact Ht. cbn [app].
    now rewrite split_runs_end. }
  unfold _parse_bearer_token.
  destruct (before ++ scheme ++ gap ++ token ++ after) as [|c a] eqn:Heq.
  - discriminate Hsplit.
  - rewrite Hsplit, Hlow. unfold str_eqb.
    now rewrite bool_decide_eq_true_2.
Qed.

(** The theorem at the header [bearer], a tab, [t1] and a line end. *)
Lemma bearer_header_round_trip_witness :
  _parse_bearer_token sample_lib
    (Some ([] ++ lit "Bearer" ++ [9%N] ++ lit "t1" ++ [10%N]))
  = Respond (lit "t1").
Proof.
  apply (bearer_header_round_trip sample_lib [] (lit "Bearer") [9%N] (lit "t1") [10%N]);
    try discriminate; try reflexivity; repeat constructor.
Defined.

End AuthFacts.
